(** * PyAutoLens: masks, coordinate grids, border relocation and the two-plane tracer

    A shallow embedding of
    - [auto_lens/image.py]      ([Mask.blurring_region], [Mask.border_pixels],
      [Mask.sparse_clustering_pixels], [Mask.mask], [Mask.circular],
      [Mask.annular], [trim], [pad], [normalize], [Array.from_array],
      [arc_seconds_coordinates_of_array]),
    - [src/analysis/ray_tracing.py] ([Plane], [Tracer]),
    - [autolens/fit/fit.py]     ([PositionsFit]),
    - the grid and border operations of [auto_lens/imaging/grids.py], which
      are known here through [auto_lens/imaging/test_grids.py] only.

    Python integers are [Z]; numpy boolean arrays are lists of rows; numpy
    float arrays are lists over [R] (exact arithmetic: rounding of binary
    floating point is outside that model).  Where a statement is an identity
    that rounding breaks, it is stated of the exact arithmetic only, and the
    module [Binary64] has the same operation on binary64 numbers, the
    arithmetic of the arrays, to show what the program computes.  Python
    exceptions are the [Raise] branch of [result]. *)

From Stdlib Require Import String.
From Stdlib Require Import ZArith List Bool Lia Sorted.
From Stdlib Require Import Reals Lra Psatz.
From Stdlib Require PrimFloat.
Import ListNotations.

Set Implicit Arguments.

(** ** Python exceptions and numpy indexing *)

Module Numpy.

Local Open Scope Z_scope.

(** The exception classes the modelled code can raise: [MaskException] is
    declared in image.py, [IndexError] is numpy's out-of-range index,
    [AttributeError] is an attribute looked up on [None] or never assigned,
    [ValueError] is numpy's refusal to broadcast two shapes.  [ShapeMismatch]
    is the name the specification gives to the failure of the grid-bundle
    operations, whose code is not among the sources. *)
Inductive exn : Type :=
| MaskException (msg : string)
| IndexError
| AttributeError
| ValueError
| ShapeMismatch.

Inductive exn_class : Type :=
| CMaskException | CIndexError | CAttributeError | CValueError | CShapeMismatch.

(** The Python class of a raised exception (its message is not part of it). *)
Definition class_of (e : exn) : exn_class :=
  match e with
  | MaskException _ => CMaskException
  | IndexError => CIndexError
  | AttributeError => CAttributeError
  | ValueError => CValueError
  | ShapeMismatch => CShapeMismatch
  end.

Inductive result (A : Type) : Type :=
| Ok (a : A)
| Raise (e : exn).

Arguments Ok {A} a.
Arguments Raise {A} e.

Definition bind {A B} (r : result A) (f : A -> result B) : result B :=
  match r with
  | Ok a => f a
  | Raise e => Raise e
  end.

Notation "x <- c1 ;; c2" := (bind c1 (fun x => c2))
  (at level 61, c1 at next level, right associativity).

(** [range a b] is Python's [range(a, b)]. *)
Definition range (a b : Z) : list Z :=
  map (fun k => a + Z.of_nat k) (seq 0 (Z.to_nat (b - a))).

(** [for x in l: s = body x s], stopping at the first exception. *)
Fixpoint for_loop {S : Type} (l : list Z) (body : Z -> S -> result S) (s : S)
  : result S :=
  match l with
  | [] => Ok s
  | x :: l' => s' <- body x s ;; for_loop l' body s'
  end.

(** A two-dimensional numpy array, as the list of its rows. *)
Definition ndarray2 (A : Type) := list (list A).

Definition shape {A} (a : ndarray2 A) : Z * Z :=
  (Z.of_nat (length a), Z.of_nat (length (hd [] a))).

Definition rectangular {A} (a : ndarray2 A) : Prop :=
  Forall (fun row => length row = length (hd [] a)) a.

Definition square {A} (a : ndarray2 A) : Prop :=
  rectangular a /\ length (hd [] a) = length a.

(** numpy's index normalisation along an axis of length [n]: an index in
    [[-n, 0)] counts from the end, an index outside [[-n, n)] is an
    IndexError. *)
Definition norm_index (n k : Z) : option nat :=
  if (0 <=? k) && (k <? n) then Some (Z.to_nat k)
  else if (- n <=? k) && (k <? 0) then Some (Z.to_nat (k + n))
  else None.

(** [a[i, j]] *)
Definition getitem {A} (a : ndarray2 A) (i j : Z) : result A :=
  match norm_index (fst (shape a)) i, norm_index (snd (shape a)) j with
  | Some r, Some c =>
      match nth_error a r with
      | Some row =>
          match nth_error row c with
          | Some v => Ok v
          | None => Raise IndexError
          end
      | None => Raise IndexError
      end
  | _, _ => Raise IndexError
  end.

Fixpoint set_nth {A} (l : list A) (n : nat) (v : A) : list A :=
  match l, n with
  | [], _ => []
  | _ :: t, O => v :: t
  | h :: t, S n' => h :: set_nth t n' v
  end.

(** [a[i, j] = v] *)
Definition setitem {A} (a : ndarray2 A) (i j : Z) (v : A) : result (ndarray2 A) :=
  match norm_index (fst (shape a)) i, norm_index (snd (shape a)) j with
  | Some r, Some c =>
      match nth_error a r with
      | Some row =>
          if (c <? length row)%nat then Ok (set_nth a r (set_nth row c v))
          else Raise IndexError
      | None => Raise IndexError
      end
  | _, _ => Raise IndexError
  end.

(** [np.zeros(shape)], read as booleans (0.0 is falsy). *)
Definition zeros (sh : Z * Z) : ndarray2 bool :=
  repeat (repeat false (Z.to_nat (snd sh))) (Z.to_nat (fst sh)).

End Numpy.

(** ** auto_lens/image.py : class Mask *)

Module Image.

Import Numpy.
Local Open Scope Z_scope.

Definition Mask := ndarray2 bool.

Definition msg_odd : string :=
  "blurring_region_size of exterior region must be odd"%string.

Definition msg_pad : string :=
  "blurring_region extends beynod the size of the mask - pad the imagebefore masking"%string.

(** The innermost statement of [Mask.blurring_region]: the bounds test
    compares both coordinates with [image_dimensions_pixels[0]], and the mask
    and the result are indexed as [[j + j1, i + i1]]. *)
Definition blurring_cell (mask : Mask) (dims : Z * Z) (i j i1 j1 : Z)
  (blurring_region : ndarray2 bool) : result (ndarray2 bool) :=
  if (0 <=? i + i1) && (i + i1 <=? fst dims - 1)
     && (0 <=? j + j1) && (j + j1 <=? fst dims - 1)
  then
    v <- getitem mask (j + j1) (i + i1) ;;
    if negb v then setitem blurring_region (j + j1) (i + i1) true
    else Ok blurring_region
  else Raise (MaskException msg_pad).

Definition blurring_pixel (mask : Mask) (dims size : Z * Z) (i j : Z)
  (blurring_region : ndarray2 bool) : result (ndarray2 bool) :=
  v <- getitem mask i j ;;
  if v then
    for_loop (range ((- fst size + 1) / 2) ((fst size + 1) / 2))
      (fun i1 =>
         for_loop (range ((- snd size + 1) / 2) ((snd size + 1) / 2))
           (fun j1 => blurring_cell mask dims i j i1 j1))
      blurring_region
  else Ok blurring_region.

(** [Mask.blurring_region(mask, blurring_region_size)] *)
Definition blurring_region (mask : Mask) (blurring_region_size : Z * Z)
  : result (ndarray2 bool) :=
  if (fst blurring_region_size mod 2 =? 0) || (snd blurring_region_size mod 2 =? 0)
  then Raise (MaskException msg_odd)
  else
    let image_dimensions_pixels := shape mask in
    for_loop (range 0 (fst image_dimensions_pixels))
      (fun i =>
         for_loop (range 0 (snd image_dimensions_pixels))
           (fun j => blurring_pixel mask image_dimensions_pixels
                       blurring_region_size i j))
      (zeros image_dimensions_pixels).

(** The eight neighbour reads of [Mask.border_pixels], in the order of the
    source's [or] chain. *)
Definition neighbours (i j : Z) : list (Z * Z) :=
  [(i + 1, j); (i - 1, j); (i, j + 1); (i, j - 1);
   (i + 1, j + 1); (i + 1, j - 1); (i - 1, j + 1); (i - 1, j - 1)].

(** [mask[a] == 0 or mask[b] == 0 or ...]: Python's [or] evaluates its
    operands from the left and stops at the first true one.  [log] records
    the raw index pair of every read that was performed. *)
Fixpoint any_zero (mask : Mask) (idx log : list (Z * Z))
  : result (list (Z * Z) * bool) :=
  match idx with
  | [] => Ok (log, false)
  | (a, b) :: rest =>
      v <- getitem mask a b ;;
      if negb v then Ok (log ++ [(a, b)], true)
      else any_zero mask rest (log ++ [(a, b)])
  end.

(** The local variables of [Mask.border_pixels], with the log of mask reads. *)
Record border_state : Type := {
  accesses : list (Z * Z);
  border : list Z;
  image_pixel_index : Z
}.

Definition border_pixel (mask : Mask) (i j : Z) (st : border_state)
  : result border_state :=
  v <- getitem mask i j ;;
  if v then
    r <- any_zero mask (neighbours i j) (accesses st ++ [(i, j)]) ;;
    Ok {| accesses := fst r;
          border := if snd r then border st ++ [image_pixel_index st]
                    else border st;
          image_pixel_index := image_pixel_index st + 1 |}
  else
    Ok {| accesses := accesses st ++ [(i, j)];
          border := border st;
          image_pixel_index := image_pixel_index st |}.

Definition border_pixels_run (mask : Mask) : result border_state :=
  let image_dimensions_pixels := shape mask in
  for_loop (range 0 (fst image_dimensions_pixels))
    (fun i =>
       for_loop (range 0 (snd image_dimensions_pixels))
         (fun j => border_pixel mask i j))
    {| accesses := []; border := []; image_pixel_index := 0 |}.

(** [Mask.border_pixels(mask)] *)
Definition border_pixels (mask : Mask) : result (list Z) :=
  st <- border_pixels_run mask ;; Ok (border st).

(** *** Vocabulary of the statements *)

(** Pixel [(i, j)] of the array is an included (True) pixel. *)
Definition included (mask : Mask) (i j : Z) : Prop :=
  0 <= i < fst (shape mask) /\ 0 <= j < snd (shape mask)
  /\ getitem mask i j = Ok true.

(** The raw index pair lies inside the array, without wrap-around. *)
Definition in_bounds (mask : Mask) (p : Z * Z) : Prop :=
  0 <= fst p < fst (shape mask) /\ 0 <= snd p < snd (shape mask).

Definition on_edge (mask : Mask) (i j : Z) : Prop :=
  i = 0 \/ i = fst (shape mask) - 1 \/ j = 0 \/ j = snd (shape mask) - 1.

Definition no_included_on_edge (mask : Mask) : Prop :=
  forall i j, included mask i j -> ~ on_edge mask i j.

(** [border_pixels] returns and every read it performed was in bounds. *)
Definition in_bounds_only (mask : Mask) : Prop :=
  exists st, border_pixels_run mask = Ok st /\ Forall (in_bounds mask) (accesses st).

(** The array has as many rows as the mask, each as long as the mask's. *)
Definition same_shape (mask : Mask) (br : ndarray2 bool) : Prop :=
  length br = length mask
  /\ Forall (fun row => length row = length (hd [] mask)) br.

(** Half-width of an odd kernel side. *)
Definition half (s : Z) : Z := (s - 1) / 2.

(** The neighbourhood box of pixel [(i, j)] for kernel [size] contains [(a, b)]. *)
Definition in_box (size : Z * Z) (i j a b : Z) : Prop :=
  - half (fst size) <= a - i <= half (fst size)
  /\ - half (snd size) <= b - j <= half (snd size).

(** The box of [(i, j)] has a cell outside the array. *)
Definition box_outside (mask : Mask) (size : Z * Z) (i j : Z) : Prop :=
  exists a b, in_box size i j a b /\ ~ in_bounds mask (a, b).

(** The blurring region the documentation describes: the excluded pixels
    inside the box of some included pixel. *)
Definition in_blurring_region (mask : Mask) (size : Z * Z) (a b : Z) : Prop :=
  getitem mask a b = Ok false /\ in_bounds mask (a, b)
  /\ exists i j, included mask i j /\ in_box size i j a b.

Definition T := true.
Definition F := false.

(** Scenario D: a 3x3 mask whose only included pixel is the centre. *)
Definition mask_centre_3x3 : Mask :=
  [[F; F; F];
   [F; T; F];
   [F; F; F]].

(** A 4x4 mask whose only included pixel is [(1, 2)]. *)
Definition mask_off_centre_4x4 : Mask :=
  [[F; F; F; F];
   [F; F; T; F];
   [F; F; F; F];
   [F; F; F; F]].

(** A 3x3 mask whose only included pixel is [(1, 2)], in the last column. *)
Definition mask_last_column_3x3 : Mask :=
  [[F; F; F];
   [F; F; T];
   [F; F; F]].

(** A 4x4 mask with a 2x2 block of included pixels in the middle. *)
Definition mask_block_4x4 : Mask :=
  [[F; F; F; F];
   [F; T; T; F];
   [F; T; T; F];
   [F; F; F; F]].

(** A 3x3 mask with the included pixels [(0, 1)] and [(1, 1)]: one of them
    in the first row. *)
Definition mask_first_row_3x3 : Mask :=
  [[F; T; F];
   [F; T; F];
   [F; F; F]].

(** A 3x3 mask whose only included pixel is [(2, 1)], in the last row. *)
Definition mask_last_row_3x3 : Mask :=
  [[F; F; F];
   [F; F; F];
   [F; T; F]].

(** The read of the mask at a raw index pair succeeds and gives True. *)
Definition reads_true (mask : Mask) (p : Z * Z) : Prop :=
  getitem mask (fst p) (snd p) = Ok true.

(** The locals of [Mask.border_pixels] before the loops. *)
Definition border_start : border_state :=
  {| accesses := []; border := []; image_pixel_index := 0 |}.

End Image.

(** ** auto_lens/imaging/grids.py : coordinate grids *)

Module Grids.

Import Numpy.
Local Open Scope R_scope.

(** An arc-second coordinate; [test_grids.py] reads the first component as
    the one measured along the axis of angle 0. *)
Definition Coord : Type := (R * R)%type.

Definition cadd (p q : Coord) : Coord := (fst p + fst q, snd p + snd q).
Definition csub (p q : Coord) : Coord := (fst p - fst q, snd p - snd q).
Definition cscale (k : R) (p : Coord) : Coord := (k * fst p, k * snd p).
Definition czero : Coord := (0, 0).

(** The profiles are capabilities supplied from outside: a mass profile gives
    a deflection vector at a coordinate, a light profile an intensity. *)
Record MassProfile : Type := { deflection_angle : Coord -> Coord }.
Record LightProfile : Type := { intensity : Coord -> R }.

Record Galaxy : Type := {
  mass_profiles : list MassProfile;
  light_profiles : list LightProfile
}.

Definition csum (l : list Coord) : Coord := fold_right cadd czero l.
Definition rsum (l : list R) : R := fold_right Rplus 0 l.

(** Sum of the deflection vectors of every mass profile of every galaxy at
    one coordinate. *)
Definition deflection_at (galaxies : list Galaxy) (c : Coord) : Coord :=
  csum (map (fun g => csum (map (fun p => deflection_angle p c) (mass_profiles g)))
            galaxies).

(** Sum of the intensities of every light profile of every galaxy at one
    coordinate. *)
Definition intensity_at (galaxies : list Galaxy) (c : Coord) : R :=
  rsum (map (fun g => rsum (map (fun p => intensity p c) (light_profiles g)))
            galaxies).

Fixpoint map2 {A B C} (f : A -> B -> C) (l : list A) (l' : list B) : list C :=
  match l, l' with
  | a :: t, b :: t' => f a b :: map2 f t t'
  | _, _ => []
  end.

(** The image grid and the blurring grid: one coordinate per pixel. *)
Definition GridImage : Type := list Coord.
Definition GridBlurring : Type := list Coord.

(** The sub-grid: for every pixel its sub-coordinates, and the declared
    [sub_grid_size]. *)
Record GridImageSub : Type := {
  sub_grid : list (list Coord);
  sub_grid_size : nat
}.

(** Modelled from the spec: [deflection_grid_from_galaxies] of grids.py is
    missing from the sources.  "For every coordinate, sum the
    deflection-angle vector of every mass profile of every galaxy evaluated
    at that coordinate; returns a same-shaped deflection grid." *)
Definition deflection_grid_from_galaxies (grid : list Coord)
  (galaxies : list Galaxy) : list Coord :=
  map (deflection_at galaxies) grid.

(** Modelled from the spec: [trace_to_next_grid] of grids.py is missing from
    the sources.  "Elementwise coordinate - deflection; pure, non-mutating."
    The result is a new list; the two arguments are values. *)
Definition trace_to_next_grid (grid deflection_grid : list Coord) : list Coord :=
  map2 csub grid deflection_grid.

(** Modelled from the spec: the sub-grid variants of the two operations of
    grids.py, missing from the sources; [sub_grid_size] is "preserved through
    both operations". *)
Definition sub_deflection_grid_from_galaxies (g : GridImageSub)
  (galaxies : list Galaxy) : GridImageSub :=
  {| sub_grid := map (fun subs => deflection_grid_from_galaxies subs galaxies)
                     (sub_grid g);
     sub_grid_size := sub_grid_size g |}.

(** Modelled from the spec: [trace_to_next_grid] of the sub-grid, missing from
    the sources; pixel by pixel, "elementwise coordinate - deflection". *)
Definition sub_trace_to_next_grid (g d : GridImageSub) : GridImageSub :=
  {| sub_grid := map2 trace_to_next_grid (sub_grid g) (sub_grid d);
     sub_grid_size := sub_grid_size g |}.

(** Elementwise difference of two grids, [original - traced] of the
    round-trip property, in exact arithmetic; [Binary64.grid_sub] is the
    difference the arrays compute. *)
Definition grid_sub (a b : list Coord) : list Coord := map2 csub a b.

(** Every vector of a grid multiplied by [k], in exact arithmetic;
    [Binary64.grid_scale] is the product the arrays compute. *)
Definition grid_scale (k : R) (g : list Coord) : list Coord := map (cscale k) g.


(** The bundle of grids handed to the tracer: the image grid is always
    there, the sub-grid and the blurring grid may be [None]. *)
Record RayTracingGrids : Type := {
  image : GridImage;
  sub : option GridImageSub;
  blurring : option GridBlurring
}.

(** Modelled from the spec: the bundle method that ray_tracing.py calls
    [deflection_grids_for_galaxies] is missing from the sources.  The
    operation is applied "per present grid; absence propagates". *)
Definition deflection_grids_for_galaxies (g : RayTracingGrids)
  (galaxies : list Galaxy) : RayTracingGrids :=
  {| image := deflection_grid_from_galaxies (image g) galaxies;
     sub := option_map (fun s => sub_deflection_grid_from_galaxies s galaxies) (sub g);
     blurring := option_map (fun b => deflection_grid_from_galaxies b galaxies)
                            (blurring g) |}.

(** Modelled from the spec: the bundle method that ray_tracing.py calls
    [traced_grids_for_deflections] is missing from the sources.  Each present
    grid is traced; "a precondition failure (bundle presence mismatch between
    operands) fails fast rather than silently skipping". *)
Definition traced_grids_for_deflections (g d : RayTracingGrids)
  : result RayTracingGrids :=
  s <- match sub g, sub d with
       | Some gs, Some ds => Ok (Some (sub_trace_to_next_grid gs ds))
       | None, None => Ok None
       | _, _ => Raise ShapeMismatch
       end ;;
  b <- match blurring g, blurring d with
       | Some gb, Some db => Ok (Some (trace_to_next_grid gb db))
       | None, None => Ok None
       | _, _ => Raise ShapeMismatch
       end ;;
  Ok {| image := trace_to_next_grid (image g) (image d); sub := s; blurring := b |}.

(** Modelled from the spec: [intensities_via_grid] of the sub-grid is missing
    from the sources.  "Sum all galaxies' light-profile intensities at every
    sub-coordinate, then average the sub_grid_size^2 samples per pixel";
    the mapping argument is an opaque hook and is not consulted. *)
Definition sub_intensities_via_grid {Mapping : Type} (g : GridImageSub)
  (galaxies : list Galaxy) (mapping : Mapping) : list R :=
  map (fun subs => rsum (map (intensity_at galaxies) subs)
                   / INR (sub_grid_size g * sub_grid_size g))
      (sub_grid g).

(** Modelled from the spec: [intensities_via_grid] of the blurring grid is
    missing from the sources.  "Sum intensities directly with no averaging
    (single sample per coordinate)." *)
Definition blurring_intensities_via_grid (g : GridBlurring)
  (galaxies : list Galaxy) : list R :=
  map (intensity_at galaxies) g.


(** The arrays of the grid objects live in a store, and a grid object holds
    the address of its array, so that two names can denote one array. *)
Definition store : Type := list (list Coord).
Definition address : Type := nat.

(** Modelled from the spec: [grid.trace_to_next_grid(deflection_grid)] on
    grid objects, missing from the sources.  "Elementwise coordinate -
    deflection; pure, non-mutating": the result is a new array, put at an
    address that was not in use. *)
Definition trace_to_next_grid_at (s : store) (grid deflection_grid : address)
  : option (store * address) :=
  match nth_error s grid, nth_error s deflection_grid with
  | Some g, Some d => Some (s ++ [trace_to_next_grid g d], length s)
  | _, _ => None
  end.

End Grids.

(** ** src/analysis/ray_tracing.py : Plane and Tracer *)

Module RayTracing.

Import Numpy Grids.
Local Open Scope R_scope.

(** A plane object; [deflections] is [None] when [__init__] did not assign
    the attribute. *)
Record Plane : Type := {
  galaxies : list Galaxy;
  grids : RayTracingGrids;
  deflections : option RayTracingGrids
}.

(** [Plane.__init__(galaxies, grids, compute_deflections)] *)
Definition Plane_init (galaxies : list Galaxy) (grids : RayTracingGrids)
  (compute_deflections : bool) : Plane :=
  {| galaxies := galaxies;
     grids := grids;
     deflections :=
       if compute_deflections
       then Some (deflection_grids_for_galaxies grids galaxies)
       else None |}.

(** [Plane.trace_to_next_plane()] *)
Definition trace_to_next_plane (p : Plane) : result RayTracingGrids :=
  match deflections p with
  | Some d => traced_grids_for_deflections (grids p) d
  | None => Raise AttributeError
  end.

(** [a + b] on one-dimensional numpy arrays: elementwise on equal lengths, a
    one-element array is broadcast, any other pair of lengths is refused. *)
Definition array_add (a b : list R) : result (list R) :=
  if (length a =? length b)%nat then Ok (map2 Rplus a b)
  else match a, b with
       | [x], _ => Ok (map (fun y => x + y) b)
       | _, [y] => Ok (map (fun x => x + y) a)
       | _, _ => Raise ValueError
       end.

Section Mapping.

Variable Mapping : Type.

(** [Plane.generate_image_of_galaxy_light_profiles(mapping)] *)
Definition plane_generate_image_of_galaxy_light_profiles (p : Plane)
  (mapping : Mapping) : result (list R) :=
  match sub (grids p) with
  | Some s => Ok (sub_intensities_via_grid s (galaxies p) mapping)
  | None => Raise AttributeError
  end.

(** [Plane.generate_blurring_image_of_galaxy_light_profiles()] *)
Definition plane_generate_blurring_image_of_galaxy_light_profiles (p : Plane)
  : result (list R) :=
  match blurring (grids p) with
  | Some b => Ok (blurring_intensities_via_grid b (galaxies p))
  | None => Raise AttributeError
  end.

(** A tracer holds its two planes and nothing else. *)
Record Tracer : Type := {
  image_plane : Plane;
  source_plane : Plane
}.

Definition planes (t : Tracer) : list Plane := [image_plane t; source_plane t].

(** [Tracer.__init__(lens_galaxies, source_galaxies, image_plane_grids)] *)
Definition Tracer_init (lens_galaxies source_galaxies : list Galaxy)
  (image_plane_grids : RayTracingGrids) : result Tracer :=
  let image_plane := Plane_init lens_galaxies image_plane_grids true in
  source_plane_grids <- trace_to_next_plane image_plane ;;
  Ok {| image_plane := image_plane;
        source_plane := Plane_init source_galaxies source_plane_grids false |}.

(** [Tracer.generate_image_of_galaxy_light_profiles(mapping)] *)
Definition generate_image_of_galaxy_light_profiles (t : Tracer)
  (mapping : Mapping) : result (list R) :=
  a <- plane_generate_image_of_galaxy_light_profiles (image_plane t) mapping ;;
  b <- plane_generate_image_of_galaxy_light_profiles (source_plane t) mapping ;;
  array_add a b.

(** [Tracer.generate_blurring_image_of_galaxy_light_profiles()]; a Python
    function that falls off its end returns [None]. *)
Definition generate_blurring_image_of_galaxy_light_profiles (t : Tracer)
  : result (option (list R)) :=
  match blurring (grids (image_plane t)) with
  | Some _ =>
      a <- plane_generate_blurring_image_of_galaxy_light_profiles (image_plane t) ;;
      b <- plane_generate_blurring_image_of_galaxy_light_profiles (source_plane t) ;;
      s <- array_add a b ;;
      Ok (Some s)
  | None => Ok None
  end.

End Mapping.

(** Two bundles over one pixel at [(1, 1)]: the first has the image grid
    only, the second also a one-sample sub-grid. *)
Definition grids_image_only : RayTracingGrids :=
  {| image := [(1, 1)]; sub := None; blurring := None |}.

Definition grids_with_sub : RayTracingGrids :=
  {| image := [(1, 1)];
     sub := Some {| sub_grid := [[(1, 1)]]; sub_grid_size := 1 |};
     blurring := None |}.

End RayTracing.

(** ** auto_lens/imaging/grids.py : GridBorder *)

Module Border.

Import Grids.
Local Open Scope R_scope.

(** numpy's [arctan2(y, x)] on the reals. *)
Definition arctan2 (y x : R) : R :=
  if Rlt_dec 0 x then atan (y / x)
  else if Rlt_dec x 0 then
         if Rle_dec 0 y then atan (y / x) + PI else atan (y / x) - PI
       else if Rlt_dec 0 y then PI / 2
            else if Rlt_dec y 0 then - (PI / 2) else 0.

Definition degrees (a : R) : R := a * 180 / PI.

(** [np.polyval(p, x)]: coefficients from the highest degree down. *)
Definition polyval (p : list R) (x : R) : R :=
  fold_left (fun acc c => acc * x + c) p 0.

(** The border object: the constructor's arguments, and the attributes
    [thetas], [radii] and [polynomial] that the fit assigns. *)
Record GridBorder : Type := {
  border_pixels : list nat;
  polynomial_degree : nat;
  centre : Coord;
  thetas : list R;
  radii : list R;
  polynomial : list R
}.

(** [GridBorder(border_pixels, polynomial_degree, centre)] before any fit. *)
Definition GridBorder_init (border_pixels : list nat) (polynomial_degree : nat)
  (centre : Coord) : GridBorder :=
  {| border_pixels := border_pixels; polynomial_degree := polynomial_degree;
     centre := centre; thetas := []; radii := []; polynomial := [] |}.

(** Modelled from the spec: the methods of GridBorder in grids.py are missing
    from the sources; this is the distance that [polynomial_fit_to_border] and
    [move_factor] use.  "radius = distance(coordinate, centre)". *)
Definition coordinates_to_radius (b : GridBorder) (c : Coord) : R :=
  sqrt ((fst c - fst (centre b)) * (fst c - fst (centre b))
        + (snd c - snd (centre b)) * (snd c - snd (centre b))).

(** Modelled from the spec: [coordinates_angle_from_x] of grids.py is missing
    from the sources.  "Angle in degrees of
    (coordinate - centre) from the positive x-axis, counter-clockwise,
    normalized into [0,360) by adding 360 to negative raw angles." *)
Definition coordinates_angle_from_x (b : GridBorder) (c : Coord) : R :=
  let theta := degrees (arctan2 (snd c - snd (centre b)) (fst c - fst (centre b))) in
  if Rlt_dec theta 0 then theta + 360 else theta.

(** Modelled from the spec: [radius_at_theta] of grids.py is missing from the
    sources.  "Evaluate the fitted polynomial." *)
Definition radius_at_theta (b : GridBorder) (theta : R) : R :=
  polyval (polynomial b) theta.

(** Modelled from the spec: [move_factor] of grids.py is missing from the
    sources.  "Returns 1.0 if r <= r_border, else r_border / r." *)
Definition move_factor (b : GridBorder) (c : Coord) : R :=
  let r := coordinates_to_radius b c in
  let theta := coordinates_angle_from_x b c in
  let r_border := radius_at_theta b theta in
  if Rle_dec r r_border then 1 else r_border / r.

(** Modelled from the spec: [relocated_coordinate] of grids.py is missing
    from the sources.
    "centre + move_factor(coordinate) * (coordinate - centre)". *)
Definition relocated_coordinate (b : GridBorder) (c : Coord) : Coord :=
  cadd (centre b) (cscale (move_factor b c) (csub c (centre b))).

(** The coordinate lies inside the fitted border (on it included). *)
Definition inside_border (b : GridBorder) (c : Coord) : Prop :=
  coordinates_to_radius b c <= radius_at_theta b (coordinates_angle_from_x b c).

(** Sum of squared residuals of polynomial [p] on the points [(x, y)]. *)
Definition sse (p : list R) (xs ys : list R) : R :=
  rsum (map2 (fun x y => (polyval p x - y) * (polyval p x - y)) xs ys).

(** [p] is a least-squares polynomial of degree [deg] for the points, which
    is what [np.polyfit(xs, ys, deg)] computes. *)
Definition least_squares (deg : nat) (xs ys p : list R) : Prop :=
  length p = S deg
  /\ forall q, length q = S deg -> sse p xs ys <= sse q xs ys.

(** Modelled from the spec: [polynomial_fit_to_border] is missing from the
    sources.  "For each border-pixel index (in border_pixels order), compute
    radius and theta; store parallel radii/thetas; fit a degree-d
    least-squares polynomial radius(theta)."  The fit is numpy's, so the
    method is given as the relation between the border before and after. *)
Definition polynomial_fit_to_border (b : GridBorder) (coordinates : list Coord)
  (b' : GridBorder) : Prop :=
  Forall (fun i => (i < length coordinates)%nat) (border_pixels b)
  /\ border_pixels b' = border_pixels b
  /\ polynomial_degree b' = polynomial_degree b
  /\ centre b' = centre b
  /\ thetas b' = map (fun i => coordinates_angle_from_x b (nth i coordinates czero))
                     (border_pixels b)
  /\ radii b' = map (fun i => coordinates_to_radius b (nth i coordinates czero))
                    (border_pixels b)
  /\ least_squares (polynomial_degree b) (thetas b') (radii b') (polynomial b').

(** Modelled from the spec: [relocate_sub_coordinates_outside_border] of
    grids.py is missing from the sources.  The border is fitted to
    [coordinates] and "a sub-coordinate is relocated using its own
    angle/radius against the fitted polynomial".  The exemption of border
    parents that the specification adds is not taken over here:
    [test__sub_pixels_outside_border__are_relocated] of test_grids.py has
    every parent pixel 0..3 in [border_pixels] and expects their
    sub-coordinates to be relocated.  The specification's full wording is
    [relocate_sub_coordinates_outside_border_spec] below. *)
Definition relocate_sub_coordinates_outside_border (b : GridBorder)
  (coordinates : list Coord) (sub_coordinates out : list (list Coord)) : Prop :=
  exists b', polynomial_fit_to_border b coordinates b'
    /\ out = map (map (relocated_coordinate b')) sub_coordinates.

Fixpoint mapi_from {A B} (n : nat) (f : nat -> A -> B) (l : list A) : list B :=
  match l with
  | [] => []
  | a :: t => f n a :: mapi_from (S n) f t
  end.

(** Modelled from the spec: the same method, in the specification's words:
    "a sub-coordinate is relocated using its own angle/radius against the
    fitted polynomial, unless its parent pixel's index is a border pixel, in
    which case none of that parent's sub-coordinates are relocated". *)
Definition relocate_sub_coordinates_outside_border_spec (b : GridBorder)
  (coordinates : list Coord) (sub_coordinates out : list (list Coord)) : Prop :=
  exists b', polynomial_fit_to_border b coordinates b'
    /\ out = mapi_from 0
               (fun i subs => if in_dec Nat.eq_dec i (border_pixels b) then subs
                              else map (relocated_coordinate b') subs)
               sub_coordinates.

(** *** test_grids.py : the two tests of the sub-coordinate relocation *)

(** [pytest.approx(expected, rel)] on a number: within
    [max(rel * |expected|, 1e-12)]. *)
Definition approx (actual expected rel : R) : Prop :=
  Rabs (actual - expected) <= Rmax (rel * Rabs expected) (/ 1000000000000).

Definition approx_coord (actual expected : Coord) (rel : R) : Prop :=
  approx (fst actual) (fst expected) rel /\ approx (snd actual) (snd expected) rel.

Definition at2 (a : list (list Coord)) (i j : nat) : Coord :=
  nth j (nth i a []) czero.

Definition test_coordinates : list Coord :=
  [(1, 0); (0, 1); (-1, 0); (0, -1)].

Definition test_border : GridBorder := GridBorder_init [0; 1; 2; 3]%nat 3 czero.

Definition test_sub_coordinates_in : list (list Coord) :=
  [[(1/10, 0); (2/10, 0); (3/10, 0); (4/10, 0)];
   [(1/10, 0); (2/10, 0); (3/10, 0); (4/10, 0)];
   [(1/10, 0); (2/10, 0); (3/10, 0); (4/10, 0)];
   [(1/10, 0); (2/10, 0); (3/10, 0); (4/10, 0)]].

Definition test_sub_coordinates_out : list (list Coord) :=
  [[(2, 0); (2/10, 0); (2, 2); (4/10, 0)];
   [(0, 2); (-2, 2); (3/10, 0); (4/10, 0)];
   [(-2, 0); (2/10, 0); (3/10, 0); (2, -2)];
   [(0, -2); (2/10, 0); (3/10, 0); (4/10, 0)]].

(** The assertions of [test__sub_pixels_in_border__are_not_relocated] on the
    value the method returned. *)
Definition test__sub_pixels_in_border__are_not_relocated
  (relocated_sub_coordinates : list (list Coord)) : Prop :=
  forall i j, (i < 4)%nat -> (j < 4)%nat ->
    approx_coord (at2 relocated_sub_coordinates i j)
                 (at2 test_sub_coordinates_in i j) (1/1000).

(** The assertions of [test__sub_pixels_outside_border__are_relocated] on the
    value the method returned. *)
Definition test__sub_pixels_outside_border__are_relocated
  (r : list (list Coord)) : Prop :=
  let s := test_sub_coordinates_out in
  approx_coord (at2 r 0 0) (1, 0) (1/1000)
  /\ at2 r 0 1 = at2 s 0 1
  /\ approx_coord (at2 r 0 2) (707/1000, 707/1000) (1/1000)
  /\ at2 r 0 3 = at2 s 0 3
  /\ approx_coord (at2 r 1 0) (0, 1) (1/1000)
  /\ approx_coord (at2 r 1 1) (-707/1000, 707/1000) (1/1000)
  /\ at2 r 1 2 = at2 s 1 2
  /\ at2 r 1 3 = at2 s 1 3
  /\ approx_coord (at2 r 2 0) (-1, 0) (1/1000)
  /\ at2 r 2 1 = at2 s 2 1
  /\ at2 r 2 2 = at2 s 2 2
  /\ approx_coord (at2 r 2 3) (707/1000, -707/1000) (1/1000)
  /\ approx_coord (at2 r 3 0) (0, -1) (1/1000)
  /\ at2 r 3 1 = at2 s 3 1
  /\ at2 r 3 2 = at2 s 3 2
  /\ at2 r 3 3 = at2 s 3 3.

(** The border that the fit of the test's four coordinates produces: the
    cubic through four points of radius 1 is the constant 1. *)
Definition test_border_fitted : GridBorder :=
  {| border_pixels := [0; 1; 2; 3]%nat; polynomial_degree := 3; centre := czero;
     thetas := [0; 90; 180; 270]; radii := [1; 1; 1; 1];
     polynomial := [0; 0; 0; 1] |}.






End Border.

(** ** The arithmetic of the arrays *)

Module Binary64.

Import Grids PrimFloat.
Local Open Scope float_scope.

(** numpy's float arrays hold IEEE binary64 numbers; [float] is that type
    and its operations round as the processor does. *)
Definition Coord64 : Type := (float * float)%type.

(** The binary64 number that Python's literal [0.1] denotes. *)
Definition tenth : float := 0x1.999999999999ap-4.

Definition cadd (p q : Coord64) : Coord64 := (fst p + fst q, snd p + snd q).
Definition csub (p q : Coord64) : Coord64 := (fst p - fst q, snd p - snd q).
Definition cscale (k : float) (p : Coord64) : Coord64 := (k * fst p, k * snd p).
Definition czero : Coord64 := (0, 0).
Definition csum (l : list Coord64) : Coord64 := fold_right cadd czero l.

(** [==] on two coordinates and, entry by entry, on two grids. *)
Definition coord_eqb (p q : Coord64) : bool :=
  (fst p =? fst q) && (snd p =? snd q).

Fixpoint grid_eqb (a b : list Coord64) : bool :=
  match a, b with
  | [], [] => true
  | p :: a', q :: b' => coord_eqb p q && grid_eqb a' b'
  | _, _ => false
  end.

(** Modelled from the spec: [trace_to_next_grid], "elementwise coordinate -
    deflection", on binary64 numbers. *)
Definition trace_to_next_grid (grid deflection_grid : list Coord64)
  : list Coord64 :=
  map2 csub grid deflection_grid.

(** [original - traced] on binary64 numbers. *)
Definition grid_sub (a b : list Coord64) : list Coord64 := map2 csub a b.

(** [k * grid] on binary64 numbers. *)
Definition grid_scale (k : float) (g : list Coord64) : list Coord64 :=
  map (cscale k) g.

Record MassProfile : Type := { deflection_angle : Coord64 -> Coord64 }.
Record Galaxy : Type := { mass_profiles : list MassProfile }.

(** Modelled from the spec: [deflection_grid_from_galaxies], "for every
    coordinate, sum the deflection-angle vector of every mass profile of
    every galaxy evaluated at that coordinate", on binary64 numbers. *)
Definition deflection_grid_from_galaxies (grid : list Coord64)
  (galaxies : list Galaxy) : list Coord64 :=
  map (fun c =>
         csum (map (fun g => csum (map (fun p => deflection_angle p c)
                                       (mass_profiles g)))
                   galaxies))
      grid.

(** The grid of the one coordinate [(1.0, 1.0)], as in test_grids.py. *)
Definition grid_1_1 : list Coord64 := [(1, 1)].




(** Modelled from the spec: [move_factor] and [relocated_coordinate] of a
    border, on binary64 numbers.  "r = distance(coordinate, centre)";
    "returns 1.0 if r <= r_border, else r_border / r";
    "centre + move_factor(coordinate) * (coordinate - centre)".
    [radius_at] is the fitted radius at the angle of a coordinate. *)
Definition coordinates_to_radius (centre c : Coord64) : float :=
  sqrt ((fst c - fst centre) * (fst c - fst centre)
        + (snd c - snd centre) * (snd c - snd centre)).

Definition move_factor (centre : Coord64) (radius_at : Coord64 -> float)
  (c : Coord64) : float :=
  let r := coordinates_to_radius centre c in
  let r_border := radius_at c in
  if r <=? r_border then 1 else r_border / r.

Definition relocated_coordinate (centre : Coord64)
  (radius_at : Coord64 -> float) (c : Coord64) : Coord64 :=
  cadd centre (cscale (move_factor centre radius_at c) (csub c centre)).

(** The border of radius 1 around the origin. *)
Definition unit_border (c : Coord64) : float := 1.

Definition coordinate_3_11 : Coord64 := (3, 11).

End Binary64.

(** ** auto_lens/image.py : module-level array functions *)

Module ImageArrays.

Import Numpy.
Local Open Scope Z_scope.

(** The bound of a Python slice on an axis of length [n]: a negative bound
    counts from the end, and the result is clipped to [[0, n]]. *)
Definition slice_index (n k : Z) : Z :=
  if k <? 0 then Z.max 0 (k + n) else Z.min k n.

(** [l[a:b]] *)
Definition slice {A} (l : list A) (a b : Z) : list A :=
  let n := Z.of_nat (length l) in
  let start := slice_index n a in
  let stop := slice_index n b in
  firstn (Z.to_nat (stop - start)) (skipn (Z.to_nat start) l).

(** [array[a0:b0, a1:b1]] *)
Definition slice2 {A} (array : ndarray2 A) (a0 b0 a1 b1 : Z) : ndarray2 A :=
  map (fun row => slice row a1 b1) (slice array a0 b0).

(** [trim(array, pixel_dimensions)].  The decorator [keep_attributes] views
    the result as the class of the argument and copies its instance
    attributes, and the two [logger.debug] branches only write to the log;
    neither touches the entries. *)
Definition trim {A} (array : ndarray2 A) (pixel_dimensions : Z * Z)
  : result (ndarray2 A) :=
  let shape := shape array in
  if fst pixel_dimensions >? fst shape then Raise ValueError
  else if snd pixel_dimensions >? snd shape then Raise ValueError
  else
    let x_trim := (fst shape - fst pixel_dimensions) / 2 in
    let y_trim := (snd shape - snd pixel_dimensions) / 2 in
    Ok (slice2 array x_trim (fst shape - x_trim) y_trim (snd shape - y_trim)).

(** [np.pad(array, ((b0, a0), (b1, a1)), 'constant')]: [b0] rows of zeros
    before and [a0] after, [b1] zeros before every row and [a1] after;
    a negative width is refused. *)
Definition np_pad {A} (zero : A) (array : ndarray2 A) (w0 w1 : Z * Z)
  : result (ndarray2 A) :=
  if (fst w0 <? 0) || (snd w0 <? 0) || (fst w1 <? 0) || (snd w1 <? 0)
  then Raise ValueError
  else
    let width := snd (shape array) + fst w1 + snd w1 in
    let zero_row := repeat zero (Z.to_nat width) in
    Ok (repeat zero_row (Z.to_nat (fst w0))
        ++ map (fun row => repeat zero (Z.to_nat (fst w1)) ++ row
                           ++ repeat zero (Z.to_nat (snd w1)))
               array
        ++ repeat zero_row (Z.to_nat (snd w0))).

(** [pad(array, pixel_dimensions)]: both axes receive the pair
    [(x_pad, y_pad)], as the source passes it to [np.pad]. *)
Definition pad {A} (zero : A) (array : ndarray2 A) (pixel_dimensions : Z * Z)
  : result (ndarray2 A) :=
  let shape := shape array in
  if fst pixel_dimensions <? fst shape then Raise ValueError
  else if snd pixel_dimensions <? snd shape then Raise ValueError
  else
    let x_pad := (fst pixel_dimensions - fst shape + 1) / 2 in
    let y_pad := (snd pixel_dimensions - snd shape + 1) / 2 in
    np_pad zero array (x_pad, y_pad) (x_pad, y_pad).

(** The entry at row [i], column [j], if there is one. *)
Definition entry {A} (a : ndarray2 A) (i j : nat) : option A :=
  match nth_error a i with
  | Some row => nth_error row j
  | None => None
  end.

(** The array has [n0] rows of [n1] entries. *)
Definition has_shape {A} (a : ndarray2 A) (n0 n1 : Z) : Prop :=
  Z.of_nat (length a) = n0 /\ Forall (fun row => Z.of_nat (length row) = n1) a.

End ImageArrays.

(** ** Python exceptions beyond numpy's *)

Module Python.

Import Numpy.
Local Open Scope Z_scope.

(** What a call can raise: one of the exceptions of [Numpy.exn], or
    ZeroDivisionError (division or modulo by zero on Python numbers). *)
Inductive raised : Type :=
| Numpy_error (e : exn)
| ZeroDivisionError.

Inductive outcome (A : Type) : Type :=
| Returns (a : A)
| Raises (e : raised).

Arguments Returns {A} a.
Arguments Raises {A} e.

Definition and_then {A B} (r : outcome A) (f : A -> outcome B) : outcome B :=
  match r with
  | Returns a => f a
  | Raises e => Raises e
  end.

Notation "x <~ c1 ;; c2" := (and_then c1 (fun x => c2))
  (at level 61, c1 at next level, right associativity).

Definition lift {A} (r : result A) : outcome A :=
  match r with
  | Ok a => Returns a
  | Raise e => Raises (Numpy_error e)
  end.

(** [for x in l: s = body x s], stopping at the first exception. *)
Fixpoint for_each {S : Type} (l : list Z) (body : Z -> S -> outcome S) (s : S)
  : outcome S :=
  match l with
  | [] => Returns s
  | x :: l' => s' <~ body x s ;; for_each l' body s'
  end.

(** [a % b] on Python integers: the sign of the result is that of [b]. *)
Definition py_mod (a b : Z) : outcome Z :=
  if b =? 0 then Raises ZeroDivisionError else Returns (a mod b).

End Python.

(** ** auto_lens/image.py : Mask.sparse_clustering_pixels *)

Module MaskIndexing.

Import Numpy Image Python.
Local Open Scope Z_scope.

(** The local variables of [Mask.sparse_clustering_pixels]. *)
Record sparse_state : Type := {
  sparse : list Z;
  sparse_index : Z
}.

(** [i % sparse_grid_size == 0 and j % sparse_grid_size == 0]: the second
    operand is evaluated only when the first is true. *)
Definition on_sparse_grid (i j sparse_grid_size : Z) : outcome bool :=
  r <~ py_mod i sparse_grid_size ;;
  if r =? 0 then
    r' <~ py_mod j sparse_grid_size ;; Returns (r' =? 0)
  else Returns false.

Definition sparse_pixel (mask : Mask) (sparse_grid_size i j : Z)
  (st : sparse_state) : outcome sparse_state :=
  v <~ lift (getitem mask i j) ;;
  if v then
    keep <~ on_sparse_grid i j sparse_grid_size ;;
    Returns {| sparse := if keep then sparse st ++ [sparse_index st]
                         else sparse st;
               sparse_index := sparse_index st + 1 |}
  else Returns st.

(** [Mask.sparse_clustering_pixels(mask, sparse_grid_size)] *)
Definition sparse_clustering_pixels (mask : Mask) (sparse_grid_size : Z)
  : outcome (list Z) :=
  let image_dimensions_pixels := shape mask in
  st <~ for_each (range 0 (fst image_dimensions_pixels))
          (fun i =>
             for_each (range 0 (snd image_dimensions_pixels))
               (fun j => sparse_pixel mask sparse_grid_size i j))
          {| sparse := []; sparse_index := 0 |} ;;
  Returns (sparse st).

(** *** Vocabulary of the statements *)

(** The positions of the array in row-major order. *)
Definition pixels (mask : Mask) : list (Z * Z) :=
  flat_map (fun i => map (pair i) (range 0 (snd (shape mask))))
           (range 0 (fst (shape mask))).

(** The entry of the mask at a position reads True. *)
Definition mask_at (mask : Mask) (p : Z * Z) : bool :=
  match getitem mask (fst p) (snd p) with
  | Ok true => true
  | _ => false
  end.

(** The included pixels in row-major order: the pixel with image pixel index
    [k] is the [k]-th of this list. *)
Definition included_pixels (mask : Mask) : list (Z * Z) :=
  filter (mask_at mask) (pixels mask).

(** A list paired with the indices [k, k + 1, ...] of its elements. *)
Fixpoint enumerate_from {A} (k : Z) (l : list A) : list (Z * A) :=
  match l with
  | [] => []
  | a :: t => (k, a) :: enumerate_from (k + 1) t
  end.

(** The indices, counted from [k], of the elements that satisfy [keep]. *)
Definition select {A} (keep : A -> bool) (k : Z) (l : list A) : list Z :=
  map fst (filter (fun kp => keep (snd kp)) (enumerate_from k l)).

(** The image pixel indices of the included pixels that satisfy [keep]. *)
Definition indices_where (mask : Mask) (keep : Z * Z -> bool) : list Z :=
  select keep 0 (included_pixels mask).

(** One of the eight neighbours of the pixel is excluded. *)
Definition has_excluded_neighbour (mask : Mask) (p : Z * Z) : bool :=
  existsb (fun q => negb (mask_at mask q)) (neighbours (fst p) (snd p)).

(** Both coordinates of the pixel are multiples of [size]. *)
Definition multiple_of (size : Z) (p : Z * Z) : bool :=
  (fst p mod size =? 0) && (snd p mod size =? 0).

End MaskIndexing.

(** ** autolens/fit/fit.py : PositionsFit *)

Module Fit.

Import Numpy Grids.
Local Open Scope R_scope.

(** A grid of positions is an array of shape [(n, 2)], one row per position;
    its [sub_shape_1d] is the number of rows. *)
Definition PositionGrid : Type := list Coord.

Definition sub_shape_1d (grid : PositionGrid) : Z := Z.of_nat (length grid).

(** [np.max(a)] on a one-dimensional array, and Python's [max(a)] on a list:
    both refuse an empty argument with a ValueError. *)
Definition np_max (a : list R) : result R :=
  match a with
  | [] => Raise ValueError
  | x :: t => Ok (fold_left Rmax t x)
  end.

(** [grid[i]], the row whose columns are [grid[i, 0]] and [grid[i, 1]]. *)
Definition position (grid : PositionGrid) (i : Z) : result Coord :=
  match norm_index (sub_shape_1d grid) i with
  | Some r =>
      match nth_error grid r with
      | Some p => Ok p
      | None => Raise IndexError
      end
  | None => Raise IndexError
  end.

(** [a[i] = v] on a one-dimensional array. *)
Definition setitem1 (a : list R) (i : Z) (v : R) : result (list R) :=
  match norm_index (Z.of_nat (length a)) i with
  | Some r => Ok (set_nth a r v)
  | None => Raise IndexError
  end.

(** [PositionsFit.max_separation_of_grid(grid)] *)
Definition max_separation_of_grid (grid : PositionGrid) : result R :=
  let rdist_max := repeat 0 (Z.to_nat (sub_shape_1d grid)) in
  rdist_max <-
    for_loop (range 0 (sub_shape_1d grid))
      (fun i rdist_max =>
         p <- position grid i ;;
         let xdists := map (fun q => Rsqr (fst p - fst q)) grid in
         let ydists := map (fun q => Rsqr (snd p - snd q)) grid in
         m <- np_max (map2 Rplus xdists ydists) ;;
         setitem1 rdist_max i m)
      rdist_max ;;
  np_max (map sqrt rdist_max).

(** The fit keeps the traced positions, a list of grids ([list_in_1d]), and
    the noise value, here a float. *)
Record PositionsFit : Type := {
  source_plane_positions : list PositionGrid;
  noise_map : R
}.

(** [[f(x) for x in l]], stopping at the first exception. *)
Fixpoint comprehension {A B} (f : A -> result B) (l : list A) : result (list B) :=
  match l with
  | [] => Ok []
  | x :: t => y <- f x ;; ys <- comprehension f t ;; Ok (y :: ys)
  end.

(** [PositionsFit.maximum_separations] *)
Definition maximum_separations (fit : PositionsFit) : result (list R) :=
  comprehension max_separation_of_grid (source_plane_positions fit).

(** [PositionsFit.maximum_separation_within_threshold(threshold)] *)
Definition maximum_separation_within_threshold (fit : PositionsFit)
  (threshold : R) : result bool :=
  separations <- maximum_separations fit ;;
  m <- np_max separations ;;
  Ok (if Rle_dec m threshold then true else false).

(** [PositionsFit.chi_squared_map] *)
Definition chi_squared_map (fit : PositionsFit) : result (list R) :=
  separations <- maximum_separations fit ;;
  Ok (map (fun s => Rsqr (s / noise_map fit)) separations).

(** [sum(l)]: Python adds from the left, starting at 0. *)
Definition py_sum (l : list R) : R := fold_left Rplus l 0.

(** [PositionsFit.figure_of_merit] *)
Definition figure_of_merit (fit : PositionsFit) : result R :=
  chi_squared <- chi_squared_map fit ;;
  Ok (- (1 / 2) * py_sum chi_squared).

(** The distance between two positions. *)
Definition distance (p q : Coord) : R :=
  sqrt (Rsqr (fst p - fst q) + Rsqr (snd p - snd q)).

(** What the largest separation of a grid is expected to be: a distance
    between two of its positions that no other pair exceeds. *)
Definition largest_distance (grid : PositionGrid) (d : R) : Prop :=
  (exists p q, In p grid /\ In q grid /\ d = distance p q)
  /\ forall p q, In p grid -> In q grid -> distance p q <= d.

End Fit.

(** ** auto_lens/image.py : coordinates, normalisation and mask shapes *)

Module ImageShapes.

Import Numpy Python Grids.
Local Open Scope R_scope.

(** [central_pixel(pixel_dimensions)]; the callers pass integers (a shape)
    or floats (a size in arc seconds divided by the pixel scale). *)
Definition central_pixel (pixel_dimensions : R * R) : R * R :=
  ((fst pixel_dimensions + 1) / 2 - 1, (snd pixel_dimensions + 1) / 2 - 1).

(** [pixel_dimensions_to_arc_seconds(pixel_dimensions, pixel_scale)] *)
Definition pixel_dimensions_to_arc_seconds (pixel_dimensions : R * R)
  (pixel_scale : R) : R * R :=
  (fst pixel_dimensions * pixel_scale, snd pixel_dimensions * pixel_scale).

(** [arc_second_dimensions_to_pixel(arc_second_dimensions, pixel_scale)]:
    Python's [/] raises ZeroDivisionError on a zero divisor. *)
Definition arc_second_dimensions_to_pixel (arc_second_dimensions : R * R)
  (pixel_scale : R) : outcome (R * R) :=
  if Req_dec_T pixel_scale 0 then Raises ZeroDivisionError
  else Returns (fst arc_second_dimensions / pixel_scale,
                snd arc_second_dimensions / pixel_scale).

(** [np.zeros(shape)] with entries [zero]; numpy refuses a negative
    dimension with a ValueError. *)
Definition np_zeros {A} (zero : A) (sh : Z * Z) : result (ndarray2 A) :=
  if ((fst sh <? 0) || (snd sh <? 0))%Z then Raise ValueError
  else Ok (repeat (repeat zero (Z.to_nat (snd sh))) (Z.to_nat (fst sh))).

(** [a[i, j, 0] = v] and [a[i, j, 1] = v] on an array whose last axis has
    the two components of a coordinate. *)
Definition setitem_0 (a : ndarray2 (R * R)) (i j : Z) (v : R)
  : result (ndarray2 (R * R)) :=
  c <- getitem a i j ;; setitem a i j (v, snd c).

Definition setitem_1 (a : ndarray2 (R * R)) (i j : Z) (v : R)
  : result (ndarray2 (R * R)) :=
  c <- getitem a i j ;; setitem a i j (fst c, v).

(** [arc_seconds_coordinates_of_array(pixel_dimensions, pixel_scale, centre)];
    the body never reads [centre]. *)
Definition arc_seconds_coordinates_of_array (pixel_dimensions : Z * Z)
  (pixel_scale : R) (centre : R * R) : result (ndarray2 (R * R)) :=
  coordinates_array <- np_zeros (0, 0) pixel_dimensions ;;
  let cen := central_pixel (IZR (fst pixel_dimensions), IZR (snd pixel_dimensions)) in
  for_loop (range 0 (fst pixel_dimensions))
    (fun i coordinates_array =>
       for_loop (range 0 (snd pixel_dimensions))
         (fun j coordinates_array =>
            coordinates_array <-
              setitem_0 coordinates_array i j ((IZR i - fst cen) * pixel_scale) ;;
            setitem_1 coordinates_array i j ((IZR j - snd cen) * pixel_scale))
         coordinates_array)
    coordinates_array.

(** [np.sum(array)] *)
Definition np_sum (array : ndarray2 R) : R := rsum (map rsum array).

(** [normalize(array)] *)
Definition normalize (array : ndarray2 R) : ndarray2 R :=
  map (map (fun x => x / np_sum array)) array.

(** [Array.from_array(array, renormalize)]: the normalised array is computed
    and dropped, and the argument is returned viewed as the class. *)
Definition from_array (array : ndarray2 R) (renormalize : bool) : ndarray2 R :=
  let _ := if renormalize then Some (normalize array) else None in
  array.

(** [int(x)] on a float: truncation towards zero. *)
Definition py_int (x : R) : Z :=
  if Rle_dec 0 x then Int_part x else (- Int_part (- x))%Z.

(** What [np.ma.make_mask] returns: the boolean array, or the constant
    [nomask] when no entry is True. *)
Inductive made_mask : Type :=
| nomask
| mask_array (a : ndarray2 bool).

Definition make_mask (array : ndarray2 bool) : made_mask :=
  if existsb (existsb (fun v => v)) array then mask_array array else nomask.

(** [Mask.mask(arc_second_dimensions, pixel_scale, function, centre)];
    [function] is a callable that returns a boolean without raising, as the
    two the module passes are. *)
Definition mask (arc_second_dimensions : R * R) (pixel_scale : R)
  (function : R -> R -> bool) (centre : R * R) : outcome made_mask :=
  pixel_dimensions <~
    arc_second_dimensions_to_pixel arc_second_dimensions pixel_scale ;;
  array <~ lift (np_zeros false (py_int (fst pixel_dimensions),
                                 py_int (snd pixel_dimensions))) ;;
  let central_pixel_coords := central_pixel pixel_dimensions in
  array <~
    lift (for_loop (range 0 (py_int (fst pixel_dimensions)))
            (fun i array =>
               for_loop (range 0 (py_int (snd pixel_dimensions)))
                 (fun j array =>
                    let x_pix := pixel_scale * (IZR i - fst central_pixel_coords)
                                 - fst centre in
                    let y_pix := pixel_scale * (IZR j - snd central_pixel_coords)
                                 - snd centre in
                    setitem array i j (function x_pix y_pix))
                 array)
            array) ;;
  Returns (make_mask array).

(** [a <= b] on floats, as a boolean. *)
Definition Rleb (a b : R) : bool := if Rle_dec a b then true else false.

(** [Mask.circular(arc_second_dimensions, pixel_scale, radius, centre)] *)
Definition circular (arc_second_dimensions : R * R) (pixel_scale radius : R)
  (centre : R * R) : outcome made_mask :=
  let is_within_radius x_pix y_pix :=
    let radius_arc := sqrt (x_pix ^ 2 + y_pix ^ 2) in
    Rleb radius_arc radius in
  mask arc_second_dimensions pixel_scale is_within_radius centre.

(** [Mask.annular(arc_second_dimensions, pixel_scale, inner_radius,
    outer_radius, centre)] *)
Definition annular (arc_second_dimensions : R * R)
  (pixel_scale inner_radius outer_radius : R) (centre : R * R)
  : outcome made_mask :=
  let is_within_radii x_pix y_pix :=
    let radius_arc := sqrt (x_pix ^ 2 + y_pix ^ 2) in
    Rleb radius_arc outer_radius && Rleb inner_radius radius_arc in
  mask arc_second_dimensions pixel_scale is_within_radii centre.

(** The coordinates of pixel [(i, j)] that [Mask.mask] hands to its
    function. *)
Definition pixel_coordinates (arc_second_dimensions : R * R) (pixel_scale : R)
  (centre : R * R) (i j : Z) : R * R :=
  let c := central_pixel (fst arc_second_dimensions / pixel_scale,
                          snd arc_second_dimensions / pixel_scale) in
  (pixel_scale * (IZR i - fst c) - fst centre,
   pixel_scale * (IZR j - snd c) - snd centre).

(** The value [Mask.mask] computes for pixel [(i, j)]. *)
Definition mask_value (function : R -> R -> bool) (arc_second_dimensions : R * R)
  (pixel_scale : R) (centre : R * R) (i j : Z) : bool :=
  function (fst (pixel_coordinates arc_second_dimensions pixel_scale centre i j))
           (snd (pixel_coordinates arc_second_dimensions pixel_scale centre i j)).

(** The distance of pixel [(i, j)] from the centre of the mask. *)
Definition pixel_radius (arc_second_dimensions : R * R) (pixel_scale : R)
  (centre : R * R) (i j : Z) : R :=
  sqrt (fst (pixel_coordinates arc_second_dimensions pixel_scale centre i j) ^ 2
        + snd (pixel_coordinates arc_second_dimensions pixel_scale centre i j) ^ 2).

(** The number of pixels along each axis of the mask. *)
Definition pixel_counts (arc_second_dimensions : R * R) (pixel_scale : R)
  : Z * Z :=
  (py_int (fst arc_second_dimensions / pixel_scale),
   py_int (snd arc_second_dimensions / pixel_scale)).

End ImageShapes.

(** * Properties *)

Import Numpy.

(** ** Loops and indexing *)

Section Loops.

Local Open Scope Z_scope.

Lemma In_range (a b x : Z) : In x (range a b) <-> a <= x < b.
Proof.
  unfold range. rewrite in_map_iff. split.
  - intros [k [<- Hk]]. apply in_seq in Hk. lia.
  - intros H. exists (Z.to_nat (x - a)). split; [lia|].
    apply in_seq. lia.
Qed.

Variable S : Type.
Variable I : S -> Prop.

(** A loop whose body keeps the invariant and never raises runs to the end. *)
Lemma for_loop_inv (l : list Z) (body : Z -> S -> result S) :
  (forall x s, In x l -> I s -> exists s', body x s = Ok s' /\ I s') ->
  forall s, I s -> exists s', for_loop l body s = Ok s' /\ I s'.
Proof.
  induction l as [|x l IH]; intros Hbody s Hs; simpl.
  - exists s. auto.
  - destruct (Hbody x s (or_introl eq_refl) Hs) as [s1 [E1 I1]].
    rewrite E1. simpl. apply IH; auto.
    intros y t Hy. apply Hbody. now right.
Qed.

(** A loop whose body can only raise [e] either runs to the end or raises [e]. *)
Lemma for_loop_ok_or_raise (e : exn) (l : list Z) (body : Z -> S -> result S) :
  (forall x s, In x l -> I s ->
     (exists s', body x s = Ok s' /\ I s') \/ body x s = Raise e) ->
  forall s, I s ->
    (exists s', for_loop l body s = Ok s' /\ I s') \/ for_loop l body s = Raise e.
Proof.
  induction l as [|x l IH]; intros Hbody s Hs; simpl.
  - left. exists s. auto.
  - destruct (Hbody x s (or_introl eq_refl) Hs) as [[s1 [E1 I1]]|E1];
      rewrite E1; simpl; [|now right].
    apply IH; auto. intros y t Hy. apply Hbody. now right.
Qed.

(** If moreover some iteration raises [e] from every state, the loop raises [e]. *)
Lemma for_loop_raise (e : exn) (l : list Z) (body : Z -> S -> result S) :
  (forall x s, In x l -> I s ->
     (exists s', body x s = Ok s' /\ I s') \/ body x s = Raise e) ->
  (exists x, In x l /\ forall s, I s -> body x s = Raise e) ->
  forall s, I s -> for_loop l body s = Raise e.
Proof.
  induction l as [|x l IH]; intros Hbody [y [Hy Hraise]] s Hs; simpl.
  - destruct Hy.
  - destruct (Hbody x s (or_introl eq_refl) Hs) as [[s1 [E1 I1]]|E1];
      rewrite E1; simpl; [|reflexivity].
    destruct Hy as [->|Hy].
    + rewrite (Hraise s Hs) in E1. discriminate.
    + apply IH; auto.
      * intros z t Hz. apply Hbody. now right.
      * exists y. auto.
Qed.

End Loops.

Section Indexing.

Local Open Scope Z_scope.

Variable A : Type.

Lemma norm_index_in (n k : Z) :
  0 <= k < n -> norm_index n k = Some (Z.to_nat k).
Proof.
  intros H. unfold norm_index.
  replace (0 <=? k) with true by (symmetry; apply Z.leb_le; lia).
  replace (k <? n) with true by (symmetry; apply Z.ltb_lt; lia).
  reflexivity.
Qed.

Lemma norm_index_out (n k : Z) : 0 <= n -> n <= k -> norm_index n k = None.
Proof.
  intros Hn H. unfold norm_index.
  replace (k <? n) with false by (symmetry; apply Z.ltb_ge; lia).
  replace (k <? 0) with false by (symmetry; apply Z.ltb_ge; lia).
  now rewrite !andb_false_r.
Qed.

(** An index of [-1] reads the last position of the axis. *)
Lemma norm_index_wrap (n : Z) :
  0 < n -> norm_index n (-1) = norm_index n (n - 1).
Proof.
  intros H. rewrite (@norm_index_in n (n - 1)) by lia.
  unfold norm_index.
  replace (0 <=? -1) with false by reflexivity. cbn [andb].
  replace (- n <=? -1) with true by (symmetry; apply Z.leb_le; lia).
  replace (-1 <? 0) with true by reflexivity. cbn [andb].
  do 2 f_equal. lia.
Qed.

Lemma rectangular_row (a : ndarray2 A) (r : nat) (row : list A) :
  rectangular a -> nth_error a r = Some row ->
  Z.of_nat (length row) = snd (shape a).
Proof.
  intros Hrect Hrow. unfold shape. simpl. f_equal.
  unfold rectangular in Hrect. rewrite Forall_forall in Hrect.
  apply Hrect. eapply nth_error_In; eauto.
Qed.

(** In a rectangular array every in-range read succeeds. *)
Lemma getitem_in_bounds (a : ndarray2 A) (i j : Z) :
  rectangular a ->
  0 <= i < fst (shape a) -> 0 <= j < snd (shape a) ->
  exists v, getitem a i j = Ok v.
Proof.
  intros Hrect Hi Hj. unfold getitem.
  rewrite (norm_index_in Hi), (norm_index_in Hj).
  destruct (nth_error a (Z.to_nat i)) as [row|] eqn:Erow.
  - pose proof (rectangular_row _ Hrect Erow) as Hlen.
    destruct (nth_error row (Z.to_nat j)) as [v|] eqn:Ev; [eauto|].
    apply nth_error_None in Ev. lia.
  - apply nth_error_None in Erow. unfold shape in Hi. simpl in Hi. lia.
Qed.

(** A read past the end of the first axis raises IndexError. *)
Lemma getitem_past_rows (a : ndarray2 A) (i j : Z) :
  fst (shape a) <= i -> getitem a i j = Raise IndexError.
Proof.
  intros Hi. unfold getitem. rewrite (@norm_index_out _ i); auto.
  unfold shape. simpl. lia.
Qed.

Lemma getitem_past_cols (a : ndarray2 A) (i j : Z) :
  snd (shape a) <= j -> getitem a i j = Raise IndexError.
Proof.
  intros Hj. unfold getitem. rewrite (@norm_index_out _ j); auto.
  - now destruct (norm_index (fst (shape a)) i).
  - unfold shape. simpl. lia.
Qed.

End Indexing.

(** ** Mask.border_pixels *)

Section BorderPixels.

Import Image.
Local Open Scope Z_scope.

Variable mask : Mask.
Hypothesis mask_rect : rectangular mask.

Lemma getitem_ok_or_index (a : ndarray2 bool) (i j : Z) :
  (exists v, getitem a i j = Ok v) \/ getitem a i j = Raise IndexError.
Proof.
  unfold getitem.
  destruct (norm_index (fst (shape a)) i); [|now right].
  destruct (norm_index (snd (shape a)) j); [|now right].
  destruct (nth_error a n); [|now right].
  destruct (nth_error l n0); [left; eauto|now right].
Qed.

Lemma any_zero_ok_or_index (idx log : list (Z * Z)) :
  (exists r, any_zero mask idx log = Ok r) \/ any_zero mask idx log = Raise IndexError.
Proof.
  revert log. induction idx as [|[a b] idx IH]; intros log; simpl.
  - left. eauto.
  - destruct (getitem_ok_or_index mask a b) as [[v ->]| ->]; simpl; [|now right].
    destruct v; simpl; [apply IH|left; eauto].
Qed.

Lemma border_pixel_ok_or_index (i j : Z) (st : border_state) :
  (exists st', border_pixel mask i j st = Ok st' /\ True)
  \/ border_pixel mask i j st = Raise IndexError.
Proof.
  unfold border_pixel.
  destruct (getitem_ok_or_index mask i j) as [[v ->]| ->]; cbn [bind]; [|now right].
  destruct v; [|left; eauto].
  destruct (any_zero_ok_or_index (neighbours i j) (accesses st ++ [(i, j)]))
    as [[r ->]| ->]; cbn [bind]; [left; eauto|now right].
Qed.

(** Reads at in-range positions succeed and extend the log by in-range pairs. *)
Lemma any_zero_in_bounds (idx log : list (Z * Z)) :
  Forall (in_bounds mask) idx -> Forall (in_bounds mask) log ->
  exists r, any_zero mask idx log = Ok r /\ Forall (in_bounds mask) (fst r).
Proof.
  revert log. induction idx as [|[a b] idx IH]; intros log Hidx Hlog; simpl.
  - eauto.
  - inversion Hidx as [|p q Hp Hq]; subst.
    destruct Hp as [Ha Hb]. simpl in Ha, Hb.
    destruct (getitem_in_bounds mask_rect Ha Hb) as [v ->]. simpl.
    assert (Hlog' : Forall (in_bounds mask) (log ++ [(a, b)])).
    { apply Forall_app. split; [assumption|].
      constructor; [split; assumption|constructor]. }
    destruct v; simpl; [apply IH; assumption|eauto].
Qed.

Lemma neighbours_in_bounds (i j : Z) :
  0 < i < fst (shape mask) - 1 -> 0 < j < snd (shape mask) - 1 ->
  Forall (in_bounds mask) (neighbours i j).
Proof.
  intros Hi Hj. unfold neighbours.
  repeat (apply Forall_cons; [unfold in_bounds; cbn [fst snd]; lia|]).
  apply Forall_nil.
Qed.

Lemma border_pixels_in_bounds : no_included_on_edge mask -> in_bounds_only mask.
Proof.
  intros Hedge. unfold in_bounds_only, border_pixels_run.
  apply for_loop_inv with (I := fun st => Forall (in_bounds mask) (accesses st));
    [|constructor].
  intros i st Hi Hst. apply In_range in Hi.
  apply for_loop_inv with (I := fun st => Forall (in_bounds mask) (accesses st));
    [|assumption].
  clear st Hst. intros j st Hj Hst. apply In_range in Hj.
  assert (Hlog : Forall (in_bounds mask) (accesses st ++ [(i, j)])).
  { apply Forall_app. split; [assumption|].
    constructor; [unfold in_bounds; cbn [fst snd]; lia|constructor]. }
  unfold border_pixel.
  destruct (getitem_in_bounds mask_rect (i := i) (j := j)) as [v Ev]; [lia|lia|].
  rewrite Ev. cbn [bind]. destruct v; [|eauto].
  assert (Hin : included mask i j) by (repeat split; try lia; assumption).
  pose proof (Hedge i j Hin) as Hne. unfold on_edge in Hne.
  destruct (any_zero_in_bounds (idx := neighbours i j) (log := accesses st ++ [(i, j)]))
    as [r [-> Hr]]; [apply neighbours_in_bounds; lia|assumption|].
  cbn [bind]. eauto.
Qed.

Lemma border_pixels_last_row :
  (exists i j, included mask i j /\ i = fst (shape mask) - 1) ->
  border_pixels mask = Raise IndexError.
Proof.
  intros [i0 [j0 [[Hi [Hj Hget]] Hlast]]].
  unfold border_pixels.
  enough (E : border_pixels_run mask = Raise IndexError) by now rewrite E.
  unfold border_pixels_run.
  apply for_loop_raise with (I := fun _ => True); [| |exact Logic.I].
  - intros i st _ _.
    apply for_loop_ok_or_raise with (I := fun _ => True); [|exact Logic.I].
    intros j st' _ _. apply border_pixel_ok_or_index.
  - exists i0. split; [apply In_range; lia|]. intros st _.
    apply for_loop_raise with (I := fun _ => True); [| |exact Logic.I].
    + intros j st' _ _. apply border_pixel_ok_or_index.
    + exists j0. split; [apply In_range; lia|]. intros st' _.
      unfold border_pixel. rewrite Hget. cbn [bind]. unfold neighbours. cbn [any_zero].
      rewrite getitem_past_rows by lia. reflexivity.
Qed.

(** In the last column the read past the end is reached only when the two
    neighbours tested before it, below and above, are both included. *)
Lemma border_pixels_last_column :
  (exists i j, included mask i j /\ j = snd (shape mask) - 1
               /\ getitem mask (i + 1) j = Ok true
               /\ getitem mask (i - 1) j = Ok true) ->
  border_pixels mask = Raise IndexError.
Proof.
  intros [i0 [j0 [[Hi [Hj Hget]] [Hlast [Hdown Hup]]]]].
  unfold border_pixels.
  enough (E : border_pixels_run mask = Raise IndexError) by now rewrite E.
  unfold border_pixels_run.
  apply for_loop_raise with (I := fun _ => True); [| |exact Logic.I].
  - intros i st _ _.
    apply for_loop_ok_or_raise with (I := fun _ => True); [|exact Logic.I].
    intros j st' _ _. apply border_pixel_ok_or_index.
  - exists i0. split; [apply In_range; lia|]. intros st _.
    apply for_loop_raise with (I := fun _ => True); [| |exact Logic.I].
    + intros j st' _ _. apply border_pixel_ok_or_index.
    + exists j0. split; [apply In_range; lia|]. intros st' _.
      unfold border_pixel. rewrite Hget. cbn [bind]. unfold neighbours.
      cbn [any_zero]. rewrite Hdown. cbn [bind negb]. rewrite Hup.
      cbn [bind negb]. rewrite getitem_past_cols by lia. reflexivity.
Qed.

(** A read at index -1 is the read of the opposite edge. *)
Lemma getitem_wrap_row (j : Z) :
  0 < fst (shape mask) -> getitem mask (-1) j = getitem mask (fst (shape mask) - 1) j.
Proof. intros H. unfold getitem. now rewrite (norm_index_wrap H). Qed.

Lemma getitem_wrap_column (i : Z) :
  0 < snd (shape mask) -> getitem mask i (-1) = getitem mask i (snd (shape mask) - 1).
Proof. intros H. unfold getitem. now rewrite (norm_index_wrap H). Qed.

End BorderPixels.

(** ** Mask.blurring_region *)

Section SetNth.

Variable A : Type.

Lemma set_nth_length (l : list A) (n : nat) (v : A) :
  length (set_nth l n v) = length l.
Proof.
  revert n. induction l as [|h t IH]; intros [|n]; simpl; auto.
Qed.

Lemma Forall_set_nth (P : A -> Prop) (l : list A) (n : nat) (v : A) :
  Forall P l -> P v -> Forall P (set_nth l n v).
Proof.
  intros Hl Hv. revert n.
  induction Hl as [|h t Hh Ht IH]; intros [|n]; simpl; auto.
Qed.

End SetNth.

Section BlurringRegion.

Import Image.
Local Open Scope Z_scope.

Lemma odd_range (s : Z) :
  s mod 2 = 1 ->
  (- s + 1) / 2 = - half s /\ (s + 1) / 2 = half s + 1.
Proof.
  intros H. unfold half.
  pose proof (Z.div_mod s 2 ltac:(lia)) as E. rewrite H in E.
  replace (- s + 1) with ((- (s / 2)) * 2) by lia.
  replace (s - 1) with ((s / 2) * 2) by lia.
  replace (s + 1) with ((s / 2 + 1) * 2) by lia.
  rewrite !Z.div_mul by lia. lia.
Qed.

Variable mask : Mask.
Hypothesis mask_square : square mask.

Let mask_rect : rectangular mask := proj1 mask_square.

Lemma square_shape : snd (shape mask) = fst (shape mask).
Proof. unfold shape. simpl. f_equal. apply mask_square. Qed.

Lemma same_shape_shape (br : ndarray2 bool) :
  same_shape mask br -> shape br = shape mask.
Proof.
  intros [Hlen Hrows]. unfold shape. rewrite Hlen. f_equal. f_equal.
  destruct br as [|row br]; simpl.
  - destruct mask; [reflexivity|discriminate].
  - now inversion Hrows.
Qed.

Lemma same_shape_zeros : same_shape mask (zeros (shape mask)).
Proof.
  unfold same_shape, zeros, shape. simpl. rewrite !Nat2Z.id. split.
  - apply repeat_length.
  - apply Forall_forall. intros row Hrow.
    apply repeat_spec in Hrow. subst. apply repeat_length.
Qed.

Lemma setitem_same_shape (br : ndarray2 bool) (a b : Z) (v : bool) :
  same_shape mask br ->
  0 <= a < fst (shape mask) -> 0 <= b < snd (shape mask) ->
  exists br', setitem br a b v = Ok br' /\ same_shape mask br'.
Proof.
  intros Hbr Ha Hb. pose proof (same_shape_shape Hbr) as Hsh.
  destruct Hbr as [Hlen Hrows].
  unfold setitem. rewrite Hsh.
  rewrite (norm_index_in Ha), (norm_index_in Hb).
  destruct (nth_error br (Z.to_nat a)) as [row|] eqn:Erow.
  - assert (Hrow : length row = length (hd [] mask)).
    { rewrite Forall_forall in Hrows. apply Hrows.
      eapply nth_error_In; eauto. }
    replace (Z.to_nat b <? length row)%nat with true.
    + eexists. split; [reflexivity|]. split.
      * rewrite set_nth_length. assumption.
      * apply Forall_set_nth; [assumption|].
        rewrite set_nth_length. assumption.
    + symmetry. apply Nat.ltb_lt. unfold shape in Hb. simpl in Hb. lia.
  - apply nth_error_None in Erow. unfold shape in Ha. simpl in Ha. lia.
Qed.

Lemma blurring_cell_ok_or_pad (i j i1 j1 : Z) (br : ndarray2 bool) :
  same_shape mask br ->
  (exists br', blurring_cell mask (shape mask) i j i1 j1 br = Ok br' /\ same_shape mask br')
  \/ blurring_cell mask (shape mask) i j i1 j1 br = Raise (MaskException msg_pad).
Proof.
  intros Hbr. unfold blurring_cell.
  destruct ((0 <=? i + i1) && (i + i1 <=? fst (shape mask) - 1)
            && (0 <=? j + j1) && (j + j1 <=? fst (shape mask) - 1)) eqn:Echeck;
    [|now right].
  left. rewrite !andb_true_iff in Echeck.
  destruct Echeck as [[[H1 H2] H3] H4].
  apply Z.leb_le in H1, H2, H3, H4.
  pose proof square_shape as Hsq.
  destruct (getitem_in_bounds mask_rect (i := j + j1) (j := i + i1)) as [v ->];
    [lia|lia|].
  cbn [bind]. destruct v; cbn [negb]; [eauto|].
  apply setitem_same_shape; [assumption|lia|lia].
Qed.

Lemma blurring_cell_outside (i j a b : Z) (br : ndarray2 bool) :
  ~ in_bounds mask (a, b) ->
  blurring_cell mask (shape mask) i j (a - i) (b - j) br
  = Raise (MaskException msg_pad).
Proof.
  intros Hout. unfold blurring_cell.
  replace (i + (a - i)) with a by lia. replace (j + (b - j)) with b by lia.
  destruct ((0 <=? a) && (a <=? fst (shape mask) - 1)
            && (0 <=? b) && (b <=? fst (shape mask) - 1)) eqn:Echeck;
    [|reflexivity].
  exfalso. apply Hout.
  rewrite !andb_true_iff in Echeck. destruct Echeck as [[[H1 H2] H3] H4].
  apply Z.leb_le in H1, H2, H3, H4.
  unfold in_bounds. cbn [fst snd]. rewrite square_shape. lia.
Qed.

Variable size : Z * Z.
Hypothesis size_odd_0 : fst size mod 2 = 1.
Hypothesis size_odd_1 : snd size mod 2 = 1.

Lemma blurring_pixel_ok_or_pad (i j : Z) (br : ndarray2 bool) :
  0 <= i < fst (shape mask) -> 0 <= j < snd (shape mask) ->
  same_shape mask br ->
  (exists br', blurring_pixel mask (shape mask) size i j br = Ok br' /\ same_shape mask br')
  \/ blurring_pixel mask (shape mask) size i j br = Raise (MaskException msg_pad).
Proof.
  intros Hi Hj Hbr. unfold blurring_pixel.
  destruct (getitem_in_bounds mask_rect Hi Hj) as [v ->]. cbn [bind].
  destruct v; [|left; eauto].
  apply for_loop_ok_or_raise with (I := same_shape mask); [|assumption].
  intros i1 br1 _ Hbr1.
  apply for_loop_ok_or_raise with (I := same_shape mask); [|assumption].
  intros j1 br2 _ Hbr2. now apply blurring_cell_ok_or_pad.
Qed.

Lemma blurring_pixel_outside (i j : Z) (br : ndarray2 bool) :
  included mask i j -> box_outside mask size i j -> same_shape mask br ->
  blurring_pixel mask (shape mask) size i j br = Raise (MaskException msg_pad).
Proof.
  intros [Hi [Hj Hget]] [a [b [[Ha Hb] Hout]]] Hbr.
  destruct (odd_range (fst size) size_odd_0) as [Elo0 Ehi0].
  destruct (odd_range (snd size) size_odd_1) as [Elo1 Ehi1].
  unfold blurring_pixel. rewrite Hget. cbn [bind].
  apply for_loop_raise with (I := same_shape mask); [| |assumption].
  - intros i1 br1 _ Hbr1.
    apply for_loop_ok_or_raise with (I := same_shape mask); [|assumption].
    intros j1 br2 _ Hbr2. now apply blurring_cell_ok_or_pad.
  - exists (a - i). split; [apply In_range; lia|]. intros br1 Hbr1.
    apply for_loop_raise with (I := same_shape mask); [| |assumption].
    + intros j1 br2 _ Hbr2. now apply blurring_cell_ok_or_pad.
    + exists (b - j). split; [apply In_range; lia|]. intros br2 _.
      now apply blurring_cell_outside.
Qed.

Lemma blurring_region_outside :
  (exists i j, included mask i j /\ box_outside mask size i j) ->
  blurring_region mask size = Raise (MaskException msg_pad).
Proof.
  intros [i [j [Hin Hout]]]. unfold blurring_region.
  rewrite size_odd_0, size_odd_1. cbn [Z.eqb orb].
  destruct Hin as [Hi [Hj Hget]].
  apply for_loop_raise with (I := same_shape mask); [| |apply same_shape_zeros].
  - intros i' br Hi' Hbr. apply In_range in Hi'.
    apply for_loop_ok_or_raise with (I := same_shape mask); [|assumption].
    intros j' br' Hj' Hbr'. apply In_range in Hj'.
    now apply blurring_pixel_ok_or_pad.
  - exists i. split; [apply In_range; lia|]. intros br Hbr.
    apply for_loop_raise with (I := same_shape mask); [| |assumption].
    + intros j' br' Hj' Hbr'. apply In_range in Hj'.
      apply blurring_pixel_ok_or_pad; [|lia|assumption].
      lia.
    + exists j. split; [apply In_range; lia|]. intros br' Hbr'.
      apply blurring_pixel_outside;
        [exact (conj Hi (conj Hj Hget))|assumption|assumption].
Qed.

End BlurringRegion.

(** ** Grids: deflection and tracing *)

Section GridProperties.

Import Grids.
Local Open Scope R_scope.

Lemma coord_eq (p q : Coord) : fst p = fst q -> snd p = snd q -> p = q.
Proof. destruct p, q; simpl; intros; subst; reflexivity. Qed.

Lemma map2_length {A B C} (f : A -> B -> C) (l : list A) (l' : list B) :
  length l' = length l -> length (map2 f l l') = length l.
Proof.
  revert l'. induction l as [|a l IH]; intros [|b l'] H; simpl in *;
    try discriminate; auto.
Qed.

Lemma map2_nth {A B C} (f : A -> B -> C) (l : list A) (l' : list B)
  (i : nat) (da : A) (db : B) (dc : C) :
  length l' = length l -> (i < length l)%nat ->
  nth i (map2 f l l') dc = f (nth i l da) (nth i l' db).
Proof.
  revert l' i. induction l as [|a l IH]; intros [|b l'] [|i] H Hi; simpl in *;
    try discriminate; try lia; auto.
  apply IH; lia.
Qed.

(** Subtracting the traced grid from the original gives the deflections back. *)
Lemma grid_sub_trace (grid deflection : list Coord) :
  length deflection = length grid ->
  grid_sub grid (trace_to_next_grid grid deflection) = deflection.
Proof.
  unfold grid_sub, trace_to_next_grid. revert deflection.
  induction grid as [|c grid IH]; intros [|d deflection] H; simpl in *;
    try discriminate; auto.
  f_equal.
  - apply coord_eq; simpl; ring.
  - apply IH. lia.
Qed.








End GridProperties.

(** ** Plane and Tracer *)

Section TracerProperties.

Import Grids RayTracing.
Local Open Scope R_scope.

(** The grids the source plane receives: every present grid of the bundle,
    traced through its own deflections. *)
Lemma traced_own_deflections (g : RayTracingGrids) (l : list Galaxy) :
  traced_grids_for_deflections g (deflection_grids_for_galaxies g l)
  = Ok {| image := trace_to_next_grid (image g)
                     (deflection_grid_from_galaxies (image g) l);
          sub := option_map
                   (fun s => sub_trace_to_next_grid s
                               (sub_deflection_grid_from_galaxies s l))
                   (sub g);
          blurring := option_map
                        (fun b => trace_to_next_grid b
                                    (deflection_grid_from_galaxies b l))
                        (blurring g) |}.
Proof.
  unfold traced_grids_for_deflections, deflection_grids_for_galaxies.
  cbn [sub blurring image]. destruct (sub g), (blurring g); reflexivity.
Qed.

Lemma array_add_same_length (a b : list R) :
  length a = length b -> array_add a b = Ok (map2 Rplus a b).
Proof.
  intros H. unfold array_add. rewrite H, Nat.eqb_refl. reflexivity.
Qed.

Lemma trace_own_length (grid : list Coord) (l : list Galaxy) :
  length (trace_to_next_grid grid (deflection_grid_from_galaxies grid l))
  = length grid.
Proof.
  unfold trace_to_next_grid, deflection_grid_from_galaxies.
  apply map2_length. apply length_map.
Qed.

Lemma sub_trace_own_length (s : GridImageSub) (l : list Galaxy) :
  length (sub_grid (sub_trace_to_next_grid s (sub_deflection_grid_from_galaxies s l)))
  = length (sub_grid s).
Proof.
  unfold sub_trace_to_next_grid, sub_deflection_grid_from_galaxies.
  cbn [sub_grid]. apply map2_length. apply length_map.
Qed.

(** The tracer that the constructor returns. *)
Lemma tracer_construction_data (lens_galaxies source_galaxies : list Galaxy)
  (image_plane_grids : RayTracingGrids) :
  exists t,
    Tracer_init lens_galaxies source_galaxies image_plane_grids = Ok t
    /\ image_plane t = Plane_init lens_galaxies image_plane_grids true
    /\ source_plane t
       = Plane_init source_galaxies
           {| image := trace_to_next_grid (image image_plane_grids)
                         (deflection_grid_from_galaxies (image image_plane_grids)
                            lens_galaxies);
              sub := option_map
                       (fun s => sub_trace_to_next_grid s
                                   (sub_deflection_grid_from_galaxies s lens_galaxies))
                       (sub image_plane_grids);
              blurring := option_map
                            (fun b => trace_to_next_grid b
                                        (deflection_grid_from_galaxies b lens_galaxies))
                            (blurring image_plane_grids) |}
           false.
Proof.
  unfold Tracer_init, trace_to_next_plane.
  cbn [Plane_init deflections RayTracing.grids].
  rewrite traced_own_deflections. cbn [bind].
  eexists. split; [reflexivity|]. split; reflexivity.
Qed.

End TracerProperties.

(** ** GridBorder: geometry of the relocation *)

Section BorderGeometry.

Import Grids Border.
Local Open Scope R_scope.



Variable b : GridBorder.




Lemma move_factor_inside (c : Coord) :
  inside_border b c -> move_factor b c = 1.
Proof.
  unfold inside_border, move_factor. intros H.
  destruct (Rle_dec _ _) as [_|Hn]; [reflexivity|contradiction].
Qed.

Lemma move_factor_outside (c : Coord) :
  ~ inside_border b c ->
  move_factor b c
  = radius_at_theta b (coordinates_angle_from_x b c) / coordinates_to_radius b c.
Proof.
  unfold inside_border, move_factor. intros H.
  destruct (Rle_dec _ _) as [Hl|_]; [contradiction|reflexivity].
Qed.

Lemma relocated_inside (c : Coord) :
  inside_border b c -> relocated_coordinate b c = c.
Proof.
  intros H. unfold relocated_coordinate. rewrite (move_factor_inside H).
  apply coord_eq; unfold cadd, cscale, csub; cbn [fst snd]; ring.
Qed.




End BorderGeometry.

(** ** GridBorder: angles of the axes and of the diagonals *)

Section BorderAngles.

Import Grids Border.
Local Open Scope R_scope.

Ltac rdec :=
  repeat match goal with
         | |- context [Rlt_dec ?a ?b] =>
             destruct (Rlt_dec a b); try (exfalso; lra)
         | |- context [Rle_dec ?a ?b] =>
             destruct (Rle_dec a b); try (exfalso; lra)
         end.

Lemma degrees_mult (q : R) : degrees (q * PI) = q * 180.
Proof. unfold degrees. field. apply PI_neq0. Qed.

Lemma atan_m1 : atan (-1) = - (PI / 4).
Proof.
  replace (-1) with (Ropp 1) by lra. rewrite atan_opp, atan_1. reflexivity.
Qed.

Lemma arctan2_east (x : R) : 0 < x -> arctan2 0 x = 0 * PI.
Proof.
  intros Hx. unfold arctan2. rdec.
  unfold Rdiv. rewrite Rmult_0_l, atan_0. ring.
Qed.

Lemma arctan2_north (y : R) : 0 < y -> arctan2 y 0 = / 2 * PI.
Proof. intros Hy. unfold arctan2. rdec. field. Qed.

Lemma arctan2_west (x : R) : x < 0 -> arctan2 0 x = 1 * PI.
Proof.
  intros Hx. unfold arctan2. rdec.
  unfold Rdiv. rewrite Rmult_0_l, atan_0. ring.
Qed.

Lemma arctan2_south (y : R) : y < 0 -> arctan2 y 0 = - / 2 * PI.
Proof. intros Hy. unfold arctan2. rdec. field. Qed.

Lemma arctan2_origin : arctan2 0 0 = 0 * PI.
Proof. unfold arctan2. rdec. ring. Qed.

Lemma arctan2_north_east (x : R) : 0 < x -> arctan2 x x = / 4 * PI.
Proof.
  intros Hx. unfold arctan2. rdec.
  replace (x / x) with 1 by (field; lra). rewrite atan_1. field.
Qed.

Lemma arctan2_north_west (x : R) : x < 0 -> arctan2 (- x) x = 3 / 4 * PI.
Proof.
  intros Hx. unfold arctan2. rdec.
  replace (- x / x) with (-1) by (field; lra). rewrite atan_m1. field.
Qed.

Lemma arctan2_south_west (x : R) : x < 0 -> arctan2 x x = - (3 / 4) * PI.
Proof.
  intros Hx. unfold arctan2. rdec.
  replace (x / x) with 1 by (field; lra). rewrite atan_1. field.
Qed.

Lemma arctan2_south_east (x : R) : 0 < x -> arctan2 (- x) x = - / 4 * PI.
Proof.
  intros Hx. unfold arctan2. rdec.
  replace (- x / x) with (-1) by (field; lra). rewrite atan_m1. field.
Qed.

Variable b : GridBorder.
Variable c : Coord.

Let dx := fst c - fst (centre b).
Let dy := snd c - snd (centre b).

(** The angle in degrees, from the raw angle as a multiple of pi. *)
Lemma angle_from_arctan2 (q : R) :
  arctan2 dy dx = q * PI ->
  (0 <= q -> coordinates_angle_from_x b c = q * 180)
  /\ (q < 0 -> coordinates_angle_from_x b c = q * 180 + 360).
Proof.
  intros H. unfold coordinates_angle_from_x. fold dx dy.
  rewrite H, degrees_mult. split; intros Hq; rdec; reflexivity.
Qed.

Lemma angle_centre : dx = 0 -> dy = 0 -> coordinates_angle_from_x b c = 0.
Proof.
  intros Hx Hy. destruct (@angle_from_arctan2 0) as [H _].
  - rewrite Hx, Hy. apply arctan2_origin.
  - rewrite H; lra.
Qed.

Lemma angle_east : dy = 0 -> 0 < dx -> coordinates_angle_from_x b c = 0.
Proof.
  intros Hy Hx. destruct (@angle_from_arctan2 0) as [H _].
  - rewrite Hy. now apply arctan2_east.
  - rewrite H; lra.
Qed.

Lemma angle_north : dx = 0 -> 0 < dy -> coordinates_angle_from_x b c = 90.
Proof.
  intros Hx Hy. destruct (@angle_from_arctan2 (/ 2)) as [H _].
  - rewrite Hx. now apply arctan2_north.
  - rewrite H; lra.
Qed.

Lemma angle_west : dy = 0 -> dx < 0 -> coordinates_angle_from_x b c = 180.
Proof.
  intros Hy Hx. destruct (@angle_from_arctan2 1) as [H _].
  - rewrite Hy. now apply arctan2_west.
  - rewrite H; lra.
Qed.

Lemma angle_south : dx = 0 -> dy < 0 -> coordinates_angle_from_x b c = 270.
Proof.
  intros Hx Hy. destruct (@angle_from_arctan2 (- / 2)) as [_ H].
  - rewrite Hx. now apply arctan2_south.
  - rewrite H; lra.
Qed.

Lemma angle_north_east : dy = dx -> 0 < dx -> coordinates_angle_from_x b c = 45.
Proof.
  intros Hy Hx. destruct (@angle_from_arctan2 (/ 4)) as [H _].
  - rewrite Hy. now apply arctan2_north_east.
  - rewrite H; lra.
Qed.

Lemma angle_north_west : dy = - dx -> dx < 0 -> coordinates_angle_from_x b c = 135.
Proof.
  intros Hy Hx. destruct (@angle_from_arctan2 (3 / 4)) as [H _].
  - rewrite Hy. now apply arctan2_north_west.
  - rewrite H; lra.
Qed.

Lemma angle_south_west : dy = dx -> dx < 0 -> coordinates_angle_from_x b c = 225.
Proof.
  intros Hy Hx. destruct (@angle_from_arctan2 (- (3 / 4))) as [_ H].
  - rewrite Hy. now apply arctan2_south_west.
  - rewrite H; lra.
Qed.

Lemma angle_south_east : dy = - dx -> 0 < dx -> coordinates_angle_from_x b c = 315.
Proof.
  intros Hy Hx. destruct (@angle_from_arctan2 (- / 4)) as [_ H].
  - rewrite Hy. now apply arctan2_south_east.
  - rewrite H; lra.
Qed.

(** The radius, from its square. *)
Lemma radius_from_square (r : R) :
  0 <= r -> dx * dx + dy * dy = r * r -> coordinates_to_radius b c = r.
Proof.
  intros Hr Hsq. unfold coordinates_to_radius. fold dx dy.
  rewrite Hsq. now apply sqrt_square.
Qed.

End BorderAngles.

(** ** GridBorder: the fitted borders of the tests *)

Section BorderExamples.

Import Grids Border.
Local Open Scope R_scope.

Lemma sse_nonneg (p xs ys : list R) : 0 <= sse p xs ys.
Proof.
  unfold sse, rsum. revert ys.
  induction xs as [|x xs IH].
  - intros ys. simpl. lra.
  - intros ys. destruct ys as [|y ys]; simpl; [lra|].
    specialize (IH ys).
    pose proof (Rle_0_sqr (polyval p x - y)) as Hsq. unfold Rsqr in Hsq. lra.
Qed.

(** A polynomial that passes through every point is a least-squares fit. *)
Lemma least_squares_exact (deg : nat) (xs ys p : list R) :
  length p = S deg -> sse p xs ys = 0 -> least_squares deg xs ys p.
Proof.
  intros Hlen H0. split; [assumption|].
  intros q _. rewrite H0. apply sse_nonneg.
Qed.

(** Evaluation of [relocated_coordinate] from the radius and the angle. *)
Lemma relocated_eval (b : GridBorder) (c : Coord) (r theta : R) :
  coordinates_to_radius b c = r ->
  coordinates_angle_from_x b c = theta ->
  (r <= polyval (polynomial b) theta -> relocated_coordinate b c = c)
  /\ (polyval (polynomial b) theta < r ->
      relocated_coordinate b c
      = cadd (centre b)
          (cscale (polyval (polynomial b) theta / r) (csub c (centre b)))).
Proof.
  intros Hr Ht. split; intros H.
  - apply relocated_inside. unfold inside_border, radius_at_theta.
    now rewrite Hr, Ht.
  - unfold relocated_coordinate. rewrite move_factor_outside.
    + unfold radius_at_theta. now rewrite Hr, Ht.
    + unfold inside_border, radius_at_theta. rewrite Hr, Ht. lra.
Qed.




Ltac at_origin := cbn [fst snd centre test_border GridBorder_init czero]; lra.

Lemma test_thetas :
  map (fun i => coordinates_angle_from_x test_border (nth i test_coordinates czero))
      [0; 1; 2; 3]%nat
  = [0; 90; 180; 270].
Proof.
  cbn [map nth test_coordinates].
  rewrite (@angle_east test_border (1, 0)) by at_origin.
  rewrite (@angle_north test_border (0, 1)) by at_origin.
  rewrite (@angle_west test_border (-1, 0)) by at_origin.
  rewrite (@angle_south test_border (0, -1)) by at_origin.
  reflexivity.
Qed.

Lemma test_radii :
  map (fun i => coordinates_to_radius test_border (nth i test_coordinates czero))
      [0; 1; 2; 3]%nat
  = [1; 1; 1; 1].
Proof.
  cbn [map nth test_coordinates].
  rewrite (@radius_from_square test_border (1, 0) 1) by at_origin.
  rewrite (@radius_from_square test_border (0, 1) 1) by at_origin.
  rewrite (@radius_from_square test_border (-1, 0) 1) by at_origin.
  rewrite (@radius_from_square test_border (0, -1) 1) by at_origin.
  reflexivity.
Qed.


(** The cubic through the four points of the test is the constant 1 and
    nothing else. *)
Lemma cubic_unique (p : list R) :
  least_squares 3 [0; 90; 180; 270] [1; 1; 1; 1] p -> p = [0; 0; 0; 1].
Proof.
  intros [Hlen Hmin].
  destruct p as [|a [|b0 [|c0 [|d [|e p]]]]]; try discriminate.
  specialize (Hmin [0; 0; 0; 1] eq_refl).
  unfold sse, polyval in Hmin. cbn [map2 rsum fold_right fold_left] in Hmin.
  set (e1 := (((0 * 0 + a) * 0 + b0) * 0 + c0) * 0 + d - 1) in Hmin.
  set (e2 := (((0 * 90 + a) * 90 + b0) * 90 + c0) * 90 + d - 1) in Hmin.
  set (e3 := (((0 * 180 + a) * 180 + b0) * 180 + c0) * 180 + d - 1) in Hmin.
  set (e4 := (((0 * 270 + a) * 270 + b0) * 270 + c0) * 270 + d - 1) in Hmin.
  assert (H0 : e1 * e1 + (e2 * e2 + (e3 * e3 + (e4 * e4 + 0))) <= 0).
  { eapply Rle_trans; [exact Hmin|]. right. field. }
  pose proof (Rle_0_sqr e1) as S1. pose proof (Rle_0_sqr e2) as S2.
  pose proof (Rle_0_sqr e3) as S3. pose proof (Rle_0_sqr e4) as S4.
  unfold Rsqr in S1, S2, S3, S4.
  assert (Z1 : e1 = 0) by (apply Rsqr_0_uniq; unfold Rsqr; lra).
  assert (Z2 : e2 = 0) by (apply Rsqr_0_uniq; unfold Rsqr; lra).
  assert (Z3 : e3 = 0) by (apply Rsqr_0_uniq; unfold Rsqr; lra).
  assert (Z4 : e4 = 0) by (apply Rsqr_0_uniq; unfold Rsqr; lra).
  unfold e1, e2, e3, e4 in Z1, Z2, Z3, Z4.
  assert (d = 1) by lra. assert (a = 0) by lra.
  assert (b0 = 0) by lra. assert (c0 = 0) by lra.
  subst. reflexivity.
Qed.

Lemma test_border_fit_unique (b' : GridBorder) :
  polynomial_fit_to_border test_border test_coordinates b' ->
  b' = test_border_fitted.
Proof.
  unfold polynomial_fit_to_border.
  change (border_pixels test_border) with [0; 1; 2; 3]%nat.
  rewrite test_thetas, test_radii.
  intros [_ [Hbp [Hdeg [Hc [Ht [Hr Hls]]]]]].
  rewrite Ht, Hr in Hls. apply cubic_unique in Hls.
  destruct b'. cbn in *. subst. reflexivity.
Qed.

(** Against the fitted border of the test, a coordinate within distance 1 of
    the origin stays, and one farther away is divided by its distance. *)
Lemma test_relocated_inside (c : Coord) :
  fst c * fst c + snd c * snd c <= 1 ->
  relocated_coordinate test_border_fitted c = c.
Proof.
  intros H. apply relocated_inside. unfold inside_border, radius_at_theta.
  unfold polyval. cbn [polynomial test_border_fitted fold_left].
  unfold coordinates_to_radius. cbn [centre test_border_fitted czero fst snd].
  replace ((((0 * _ + 0) * _ + 0) * _ + 0) * _ + 1) with 1 by ring.
  rewrite <- sqrt_1. apply sqrt_le_1_alt.
  replace ((fst c - 0) * (fst c - 0) + (snd c - 0) * (snd c - 0))
    with (fst c * fst c + snd c * snd c) by ring.
  assumption.
Qed.

Lemma test_relocated_outside (c : Coord) (r : R) :
  1 < r -> fst c * fst c + snd c * snd c = r * r ->
  relocated_coordinate test_border_fitted c = (fst c / r, snd c / r).
Proof.
  intros Hr Hsq.
  assert (Hrad : coordinates_to_radius test_border_fitted c = r).
  { apply radius_from_square; [lra|].
    cbn [centre test_border_fitted czero fst snd]. rewrite <- Hsq. ring. }
  destruct (@relocated_eval test_border_fitted c r
              (coordinates_angle_from_x test_border_fitted c) Hrad eq_refl)
    as [_ H].
  unfold polyval in H. cbn [polynomial test_border_fitted fold_left] in H.
  rewrite H.
  - apply coord_eq; unfold cadd, cscale, csub;
      cbn [fst snd centre test_border_fitted czero]; field; lra.
  - lra.
Qed.

Lemma approx_refl (x rel : R) : approx x x rel.
Proof.
  unfold approx. replace (x - x) with 0 by ring. rewrite Rabs_R0.
  eapply Rle_trans; [|apply Rmax_r]. lra.
Qed.

Lemma approx_coord_refl (c : Coord) (rel : R) : approx_coord c c rel.
Proof. split; apply approx_refl. Qed.

(** [2 / sqrt 8], the coordinate of the unit vector on a diagonal, is 0.707
    within one part in a thousand. *)
Lemma approx_diagonal :
  approx (2 / sqrt 8) (707/1000) (1/1000)
  /\ approx (- 2 / sqrt 8) (-707/1000) (1/1000).
Proof.
  assert (Hs : sqrt 8 * sqrt 8 = 8) by (apply sqrt_sqrt; lra).
  assert (Hp : 0 < sqrt 8) by (apply sqrt_lt_R0; lra).
  set (v := 2 / sqrt 8).
  assert (Hv : 0 < v) by (apply Rdiv_lt_0_compat; lra).
  assert (Hvv : v * v = / 2).
  { assert (Hvs : v * sqrt 8 = 2) by (unfold v; field; lra).
    assert (H4 : v * v * (sqrt 8 * sqrt 8) = 4).
    { replace (v * v * (sqrt 8 * sqrt 8)) with ((v * sqrt 8) * (v * sqrt 8)) by ring.
      rewrite Hvs. ring. }
    rewrite Hs in H4. lra. }
  assert (Hlo : 7063 / 10000 <= v) by nra.
  assert (Hhi : v <= 7077 / 10000) by nra.
  replace (- 2 / sqrt 8) with (- v) by (unfold v; field; lra).
  unfold approx. split.
  - eapply Rle_trans; [|apply Rmax_l].
    rewrite (Rabs_pos_eq (707 / 1000)) by lra. apply Rabs_le. lra.
  - eapply Rle_trans; [|apply Rmax_l].
    replace (-707 / 1000) with (- (707 / 1000)) by field.
    rewrite Rabs_Ropp, (Rabs_pos_eq (707 / 1000)) by lra. apply Rabs_le. lra.
Qed.

Lemma sqrt8_gt_1 : 1 < sqrt 8.
Proof. rewrite <- sqrt_1 at 1. apply sqrt_lt_1; lra. Qed.

Lemma sqrt8_sq : sqrt 8 * sqrt 8 = 8.
Proof. apply sqrt_sqrt. lra. Qed.

Ltac inside_unit := apply test_relocated_inside; cbn [fst snd]; lra.

Ltac outside_axis r :=
  rewrite (@test_relocated_outside _ r) by (cbn [fst snd]; lra);
  apply coord_eq; cbn [fst snd]; field.

Ltac outside_diagonal :=
  rewrite (@test_relocated_outside _ (sqrt 8))
    by (cbn [fst snd]; [apply sqrt8_gt_1 || (rewrite sqrt8_sq; lra)]);
  reflexivity.

(** What the relocation does to the sub-coordinates of the two tests. *)
Lemma relocated_test_in :
  map (map (relocated_coordinate test_border_fitted)) test_sub_coordinates_in
  = test_sub_coordinates_in.
Proof.
  unfold test_sub_coordinates_in. cbn [map].
  repeat match goal with
         | |- context [relocated_coordinate test_border_fitted ?c] =>
             replace (relocated_coordinate test_border_fitted c) with c
               by (symmetry; inside_unit)
         end.
  reflexivity.
Qed.

Lemma relocated_test_out :
  map (map (relocated_coordinate test_border_fitted)) test_sub_coordinates_out
  = [[(1, 0); (2/10, 0); (2 / sqrt 8, 2 / sqrt 8); (4/10, 0)];
     [(0, 1); (-2 / sqrt 8, 2 / sqrt 8); (3/10, 0); (4/10, 0)];
     [(-1, 0); (2/10, 0); (3/10, 0); (2 / sqrt 8, -2 / sqrt 8)];
     [(0, -1); (2/10, 0); (3/10, 0); (4/10, 0)]].
Proof.
  unfold test_sub_coordinates_out. cbn [map].
  replace (relocated_coordinate test_border_fitted (2, 0)) with ((1, 0) : Coord)
    by (symmetry; outside_axis 2).
  replace (relocated_coordinate test_border_fitted (0, 2)) with ((0, 1) : Coord)
    by (symmetry; outside_axis 2).
  replace (relocated_coordinate test_border_fitted (-2, 0)) with ((-1, 0) : Coord)
    by (symmetry; outside_axis 2).
  replace (relocated_coordinate test_border_fitted (0, -2)) with ((0, -1) : Coord)
    by (symmetry; outside_axis 2).
  replace (relocated_coordinate test_border_fitted (2, 2))
    with ((2 / sqrt 8, 2 / sqrt 8) : Coord) by (symmetry; outside_diagonal).
  replace (relocated_coordinate test_border_fitted (-2, 2))
    with ((-2 / sqrt 8, 2 / sqrt 8) : Coord) by (symmetry; outside_diagonal).
  replace (relocated_coordinate test_border_fitted (2, -2))
    with ((2 / sqrt 8, -2 / sqrt 8) : Coord) by (symmetry; outside_diagonal).
  repeat match goal with
         | |- context [relocated_coordinate test_border_fitted ?c] =>
             replace (relocated_coordinate test_border_fitted c) with c
               by (symmetry; inside_unit)
         end.
  reflexivity.
Qed.

(** On the coordinates of the tests the method has one possible result. *)
Lemma relocate_sub_test_result (subs out : list (list Coord)) :
  relocate_sub_coordinates_outside_border test_border test_coordinates subs out ->
  out = map (map (relocated_coordinate test_border_fitted)) subs.
Proof.
  intros [b' [Hfit ->]]. now rewrite (test_border_fit_unique Hfit).
Qed.

(** The method as modelled passes both tests of test_grids.py. *)
Lemma relocate_sub_passes_test_in (out : list (list Coord)) :
  relocate_sub_coordinates_outside_border test_border test_coordinates
    test_sub_coordinates_in out ->
  test__sub_pixels_in_border__are_not_relocated out.
Proof.
  intros H. apply relocate_sub_test_result in H. rewrite relocated_test_in in H.
  subst out. intros i j _ _. apply approx_coord_refl.
Qed.

Lemma relocate_sub_passes_test_out (out : list (list Coord)) :
  relocate_sub_coordinates_outside_border test_border test_coordinates
    test_sub_coordinates_out out ->
  test__sub_pixels_outside_border__are_relocated out.
Proof.
  intros H. apply relocate_sub_test_result in H. rewrite relocated_test_out in H.
  subst out. destruct approx_diagonal as [Dp Dn].
  unfold test__sub_pixels_outside_border__are_relocated, at2,
    test_sub_coordinates_out.
  cbn [nth]. unfold approx_coord. cbn [fst snd].
  repeat split; try reflexivity; try apply approx_refl; assumption.
Qed.

(** Read as the specification words it, with the sub-coordinates of border
    pixels left alone, the method would fail the second test: entry [0, 0]
    would still be [(2, 0)], not [(1, 0)] within a thousandth. *)
Lemma spec_reading_fails_test_out (out : list (list Coord)) :
  relocate_sub_coordinates_outside_border_spec test_border test_coordinates
    test_sub_coordinates_out out ->
  ~ test__sub_pixels_outside_border__are_relocated out.
Proof.
  intros [b' [_ ->]] [[H _] _].
  unfold at2, test_sub_coordinates_out, test_border, GridBorder_init in H.
  cbn in H. unfold approx in H.
  replace (2 - 1) with 1 in H by ring.
  rewrite !Rabs_R1, Rmult_1_r in H.
  unfold Rmax in H. destruct (Rle_dec _ _) in H; lra.
Qed.

End BorderExamples.

(** * The claims *)

Section TracerClaims.

Import Grids RayTracing.

(** ** The tracer *)

(** C1: constructing a Tracer builds the image plane over the lens galaxies
    with the deflections of the image-plane grids computed and stored by the
    constructor, traces the image-plane grids through those deflections at
    once, and builds the source plane over the source galaxies on the traced
    grids with no deflections; the tracer holds these two planes only. *)
Theorem tracer_construction (lens_galaxies source_galaxies : list Galaxy)
  (image_plane_grids : RayTracingGrids) :
  exists source_plane_grids t,
    traced_grids_for_deflections image_plane_grids
      (deflection_grids_for_galaxies image_plane_grids lens_galaxies)
    = Ok source_plane_grids
    /\ Tracer_init lens_galaxies source_galaxies image_plane_grids = Ok t
    /\ image_plane t
       = {| galaxies := lens_galaxies;
            grids := image_plane_grids;
            deflections :=
              Some (deflection_grids_for_galaxies image_plane_grids lens_galaxies) |}
    /\ source_plane t
       = {| galaxies := source_galaxies;
            grids := source_plane_grids;
            deflections := None |}
    /\ planes t = [image_plane t; source_plane t].
Proof.
  eexists. eexists. split; [apply traced_own_deflections|].
  unfold Tracer_init, trace_to_next_plane, Plane_init.
  cbn [deflections RayTracing.grids RayTracing.galaxies].
  rewrite traced_own_deflections. cbn [bind].
  split; [reflexivity|]. repeat split.
Qed.

(** C8: when the bundle of the tracer has no blurring grid the blurring image
    is absent (None, not an empty image); when it has one, the result is the
    elementwise sum of the blurring image of the image plane and that of the
    source plane. *)
Theorem blurring_image_absent_or_sum (lens_galaxies source_galaxies : list Galaxy)
  (image_plane_grids : RayTracingGrids) :
  exists t,
    Tracer_init lens_galaxies source_galaxies image_plane_grids = Ok t
    /\ (blurring image_plane_grids = None ->
        generate_blurring_image_of_galaxy_light_profiles t = Ok None)
    /\ (forall bg, blurring image_plane_grids = Some bg ->
        exists a b,
          plane_generate_blurring_image_of_galaxy_light_profiles (image_plane t)
          = Ok a
          /\ plane_generate_blurring_image_of_galaxy_light_profiles (source_plane t)
             = Ok b
          /\ length a = length b
          /\ generate_blurring_image_of_galaxy_light_profiles t
             = Ok (Some (map2 Rplus a b))).
Proof.
  destruct (tracer_construction_data lens_galaxies source_galaxies image_plane_grids)
    as [t [Ht [Hi Hs]]].
  exists t. split; [exact Ht|].
  unfold generate_blurring_image_of_galaxy_light_profiles,
    plane_generate_blurring_image_of_galaxy_light_profiles.
  rewrite Hi, Hs. unfold Plane_init.
  cbn [RayTracing.grids RayTracing.galaxies blurring]. split.
  - intros ->. reflexivity.
  - intros bg ->. cbn [option_map bind].
    do 2 eexists. split; [reflexivity|]. split; [reflexivity|].
    assert (Hlen : length (blurring_intensities_via_grid bg lens_galaxies)
                   = length (blurring_intensities_via_grid
                               (trace_to_next_grid bg
                                  (deflection_grid_from_galaxies bg lens_galaxies))
                               source_galaxies)).
    { unfold blurring_intensities_via_grid.
      now rewrite !length_map, trace_own_length. }
    split; [exact Hlen|]. now rewrite (array_add_same_length _ _ Hlen).
Qed.

(** C9 (as amended): for every tracer whose bundle carries a sub-grid,
    generate_image_of_galaxy_light_profiles(mapping) returns the elementwise
    sum of the light image of the image plane and that of the source plane,
    each computed over the sub-grid and the galaxies of its own plane. *)
Theorem image_is_sum_of_planes (Mapping : Type)
  (lens_galaxies source_galaxies : list Galaxy)
  (image_plane_grids : RayTracingGrids) (mapping : Mapping) (s : GridImageSub) :
  sub image_plane_grids = Some s ->
  exists t s' a b,
    Tracer_init lens_galaxies source_galaxies image_plane_grids = Ok t
    /\ sub (RayTracing.grids (source_plane t)) = Some s'
    /\ a = sub_intensities_via_grid s lens_galaxies mapping
    /\ b = sub_intensities_via_grid s' source_galaxies mapping
    /\ plane_generate_image_of_galaxy_light_profiles (image_plane t) mapping = Ok a
    /\ plane_generate_image_of_galaxy_light_profiles (source_plane t) mapping = Ok b
    /\ length a = length b
    /\ generate_image_of_galaxy_light_profiles t mapping = Ok (map2 Rplus a b).
Proof.
  intros Hsub.
  destruct (tracer_construction_data lens_galaxies source_galaxies image_plane_grids)
    as [t [Ht [Hi Hs]]].
  exists t.
  exists (sub_trace_to_next_grid s (sub_deflection_grid_from_galaxies s lens_galaxies)).
  do 2 eexists. split; [exact Ht|].
  unfold generate_image_of_galaxy_light_profiles,
    plane_generate_image_of_galaxy_light_profiles.
  rewrite Hi, Hs. unfold Plane_init.
  cbn [RayTracing.grids RayTracing.galaxies sub]. rewrite Hsub.
  cbn [option_map bind].
  split; [reflexivity|]. split; [reflexivity|]. split; [reflexivity|].
  split; [reflexivity|]. split; [reflexivity|].
  assert (Hlen :
    length (sub_intensities_via_grid s lens_galaxies mapping)
    = length (sub_intensities_via_grid
                (sub_trace_to_next_grid s
                   (sub_deflection_grid_from_galaxies s lens_galaxies))
                source_galaxies mapping)).
  { unfold sub_intensities_via_grid. now rewrite !length_map, sub_trace_own_length. }
  split; [exact Hlen|]. now apply array_add_same_length.
Qed.

Lemma image_is_sum_of_planes_witness :
  sub grids_with_sub = Some {| sub_grid := [[(1, 1)%R]]; sub_grid_size := 1 |}
  /\ exists t s' a b,
       Tracer_init [] [] grids_with_sub = Ok t
       /\ sub (RayTracing.grids (source_plane t)) = Some s'
       /\ a = sub_intensities_via_grid
                {| sub_grid := [[(1, 1)%R]]; sub_grid_size := 1 |} [] tt
       /\ b = sub_intensities_via_grid s' [] tt
       /\ plane_generate_image_of_galaxy_light_profiles (image_plane t) tt = Ok a
       /\ plane_generate_image_of_galaxy_light_profiles (source_plane t) tt = Ok b
       /\ length a = length b
       /\ generate_image_of_galaxy_light_profiles t tt = Ok (map2 Rplus a b).
Proof.
  split; [reflexivity|].
  apply (@image_is_sum_of_planes unit [] [] grids_with_sub tt). reflexivity.
Defined.

(** C9, the claim as stated fails: over a bundle without sub-grid the method
    raises AttributeError (the attribute is looked up on None). *)
Lemma image_without_sub_grid_raises :
  exists t, Tracer_init [] [] grids_image_only = Ok t
    /\ generate_image_of_galaxy_light_profiles t tt = Raise AttributeError.
Proof. eexists. split; reflexivity. Qed.

End TracerClaims.

(** ** The grids *)

Section GridClaims.

Import Grids.





(** C2 (as amended): for two grid objects whose arrays have the same shape,
    trace_to_next_grid returns a new array, at an address that is neither
    input's, holding coordinate - deflection at every position, and every
    array that existed before the call, the two inputs included, is as it
    was; in exact real arithmetic, subtracting the result from the original
    grid gives the deflection grid back. *)
Theorem trace_to_next_grid_round_trip (s : store) (grid deflection_grid : address)
  (g d : list Coord) :
  nth_error s grid = Some g ->
  nth_error s deflection_grid = Some d ->
  length d = length g ->
  exists s' traced,
    trace_to_next_grid_at s grid deflection_grid = Some (s', traced)
    /\ nth_error s' traced = Some (trace_to_next_grid g d)
    /\ traced <> grid /\ traced <> deflection_grid
    /\ (forall a, (a < length s)%nat -> nth_error s' a = nth_error s a)
    /\ nth_error s' grid = Some g
    /\ nth_error s' deflection_grid = Some d
    /\ length (trace_to_next_grid g d) = length g
    /\ (forall i, (i < length g)%nat ->
          nth i (trace_to_next_grid g d) czero
          = csub (nth i g czero) (nth i d czero))
    /\ grid_sub g (trace_to_next_grid g d) = d.
Proof.
  intros Hg Hd Hlen.
  assert (Lg : (grid < length s)%nat) by (apply nth_error_Some; congruence).
  assert (Ld : (deflection_grid < length s)%nat)
    by (apply nth_error_Some; congruence).
  exists (s ++ [trace_to_next_grid g d]), (length s).
  split; [unfold trace_to_next_grid_at; now rewrite Hg, Hd|].
  split; [rewrite nth_error_app2, Nat.sub_diag by lia; reflexivity|].
  split; [lia|]. split; [lia|].
  assert (Hold : forall a, (a < length s)%nat ->
            nth_error (s ++ [trace_to_next_grid g d]) a = nth_error s a)
    by (intros a Ha; now apply nth_error_app1).
  split; [exact Hold|].
  split; [now rewrite Hold|]. split; [now rewrite Hold|].
  split; [now apply map2_length|]. split.
  - intros i Hi. unfold trace_to_next_grid. now apply map2_nth.
  - now apply grid_sub_trace.
Qed.

Lemma trace_to_next_grid_round_trip_witness :
  exists s' traced,
    trace_to_next_grid_at
      [[(1, 1); (-1, -1)]; [(1/2, 1/2); (-1/2, -1/2)]]%R 0 1
    = Some (s', traced)
    /\ nth_error s' 0 = Some [(1, 1); (-1, -1)]%R
    /\ nth_error s' 1 = Some [(1/2, 1/2); (-1/2, -1/2)]%R
    /\ grid_sub [(1, 1); (-1, -1)]%R
         (trace_to_next_grid [(1, 1); (-1, -1)]%R [(1/2, 1/2); (-1/2, -1/2)]%R)
       = [(1/2, 1/2); (-1/2, -1/2)]%R.
Proof.
  destruct (@trace_to_next_grid_round_trip
              [[(1, 1); (-1, -1)]; [(1/2, 1/2); (-1/2, -1/2)]]%R 0 1
              [(1, 1); (-1, -1)]%R [(1/2, 1/2); (-1/2, -1/2)]%R
              eq_refl eq_refl eq_refl)
    as [s' [traced [E [_ [_ [_ [_ [Hg [Hd [_ [_ Hround]]]]]]]]]]].
  exists s', traced. auto.
Defined.

(** C2, the claim as stated fails in the arithmetic of the arrays: for the
    grid [[(1.0, 1.0)]] and the deflections [[(0.1, 0.1)]],
    [original - trace_to_next_grid(deflection) == deflection] is False,
    since 1.0 - (1.0 - 0.1) is 0.09999999999999998 in binary64. *)
Lemma round_trip_fails_in_binary64 :
  Binary64.grid_eqb
    (Binary64.grid_sub Binary64.grid_1_1
       (Binary64.trace_to_next_grid Binary64.grid_1_1
          [(Binary64.tenth, Binary64.tenth)]))
    [(Binary64.tenth, Binary64.tenth)]
  = false.
Proof. vm_compute. reflexivity. Qed.



End GridClaims.

(** ** The border *)

Section BorderClaims.

Import Grids Border.
Local Open Scope R_scope.




(** In the arithmetic of the arrays the second relocation can move the
    coordinate again: against the border of radius 1 around the origin,
    (3.0, 11.0) is relocated to a coordinate whose distance from the origin
    is 1.0000000000000002, which is relocated once more. *)
Lemma relocation_moves_twice_in_binary64 :
  Binary64.coord_eqb
    (Binary64.relocated_coordinate Binary64.czero Binary64.unit_border
       (Binary64.relocated_coordinate Binary64.czero Binary64.unit_border
          Binary64.coordinate_3_11))
    (Binary64.relocated_coordinate Binary64.czero Binary64.unit_border
       Binary64.coordinate_3_11)
  = false.
Proof. vm_compute. reflexivity. Qed.




End BorderClaims.

(** ** The reads of the neighbour test *)

Section LoopReach.

Variable S : Type.
Variable le : S -> S -> Prop.
Hypothesis le_refl : forall s, le s s.
Hypothesis le_trans : forall s t u, le s t -> le t u -> le s u.

Variable body : Z -> S -> result S.
Variable l : list Z.
Hypothesis body_grows : forall x t t', In x l -> body x t = Ok t' -> le t t'.

Lemma for_loop_grows_from (k : list Z) (s s' : S) :
  incl k l -> for_loop k body s = Ok s' -> le s s'.
Proof.
  revert s. induction k as [|y k IH]; intros s Hk E; cbn [for_loop] in E.
  - injection E as <-. apply le_refl.
  - destruct (body y s) as [s1|e] eqn:E1; cbn [bind] in E; [|discriminate].
    apply le_trans with s1.
    + eapply body_grows; [|exact E1]. apply Hk. now left.
    + apply IH; [|exact E]. intros z Hz. apply Hk. now right.
Qed.

(** In a loop that ran to its end every iteration was executed, and what it
    left is still there at the end. *)
Lemma for_loop_reach_from (k : list Z) (s s' : S) (x : Z) :
  incl k l -> for_loop k body s = Ok s' -> In x k ->
  exists t t', body x t = Ok t' /\ le t' s'.
Proof.
  revert s. induction k as [|y k IH]; intros s Hk E Hx; [destruct Hx|].
  cbn [for_loop] in E.
  destruct (body y s) as [s1|e] eqn:E1; cbn [bind] in E; [|discriminate].
  assert (Hk' : incl k l) by (intros z Hz; apply Hk; now right).
  destruct Hx as [->|Hx].
  - exists s, s1. split; [exact E1|]. now apply (@for_loop_grows_from k).
  - now apply (IH s1).
Qed.

End LoopReach.

Section BorderReads.

Import Image.
Local Open Scope Z_scope.

Variable mask : Mask.

Let grows (st st' : border_state) : Prop := incl (accesses st) (accesses st').

Lemma any_zero_log (idx log : list (Z * Z)) (r : list (Z * Z) * bool) :
  any_zero mask idx log = Ok r -> incl log (fst r).
Proof.
  revert log. induction idx as [|[a b] idx IH]; intros log E; cbn [any_zero] in E.
  - injection E as <-. apply incl_refl.
  - destruct (getitem mask a b) as [v|e]; cbn [bind] in E; [|discriminate].
    destruct v; cbn [negb] in E.
    + apply IH in E. intros p Hp. apply E. apply in_or_app. now left.
    + injection E as <-. cbn [fst]. intros p Hp. apply in_or_app. now left.
Qed.

(** A neighbour is read once all the neighbours tested before it were read
    as True. *)
Lemma any_zero_reads (pre rest log : list (Z * Z)) (p : Z * Z)
  (r : list (Z * Z) * bool) :
  Forall (reads_true mask) pre ->
  any_zero mask (pre ++ p :: rest) log = Ok r -> In p (fst r).
Proof.
  revert log. induction pre as [|[a b] pre IH]; intros log Hpre E.
  - destruct p as [a b]. cbn [app any_zero] in E.
    destruct (getitem mask a b) as [v|e]; cbn [bind] in E; [|discriminate].
    destruct v; cbn [negb] in E.
    + apply any_zero_log in E. apply E. apply in_or_app. right. now left.
    + injection E as <-. cbn [fst]. apply in_or_app. right. now left.
  - apply Forall_cons_iff in Hpre as [Hab Hpre]. unfold reads_true in Hab.
    cbn [fst snd] in Hab. cbn [app any_zero] in E. rewrite Hab in E.
    cbn [bind negb] in E. now apply (IH _ Hpre E).
Qed.

(** The test stops at the first neighbour read as False. *)
Lemma any_zero_stops (pre rest log : list (Z * Z)) (a b : Z) :
  Forall (reads_true mask) pre -> getitem mask a b = Ok false ->
  any_zero mask (pre ++ (a, b) :: rest) log = Ok (log ++ pre ++ [(a, b)], true).
Proof.
  revert log. induction pre as [|[c d] pre IH]; intros log Hpre Hab.
  - cbn [app any_zero]. rewrite Hab. reflexivity.
  - apply Forall_cons_iff in Hpre as [Hcd Hpre]. unfold reads_true in Hcd.
    cbn [fst snd] in Hcd. cbn [app any_zero]. rewrite Hcd. cbn [bind negb].
    rewrite (IH _ Hpre Hab). now rewrite <- app_assoc.
Qed.

Lemma border_pixel_stops (i j : Z) (st : border_state)
  (pre rest : list (Z * Z)) (a b : Z) :
  getitem mask i j = Ok true ->
  neighbours i j = pre ++ (a, b) :: rest ->
  Forall (reads_true mask) pre -> getitem mask a b = Ok false ->
  border_pixel mask i j st
  = Ok {| accesses := accesses st ++ (i, j) :: pre ++ [(a, b)];
          border := border st ++ [image_pixel_index st];
          image_pixel_index := image_pixel_index st + 1 |}.
Proof.
  intros Hij Hn Hpre Hab. unfold border_pixel. rewrite Hij. cbn [bind].
  rewrite Hn, (@any_zero_stops pre rest _ a b Hpre Hab). cbn [bind fst snd].
  now rewrite <- app_assoc.
Qed.

Lemma border_pixel_grows (i j : Z) (st st' : border_state) :
  border_pixel mask i j st = Ok st' -> grows st st'.
Proof.
  unfold border_pixel, grows. intros E.
  destruct (getitem mask i j) as [v|e]; cbn [bind] in E; [|discriminate].
  destruct v.
  - destruct (any_zero mask (neighbours i j) (accesses st ++ [(i, j)]))
      as [r|e] eqn:Er; cbn [bind] in E; [|discriminate].
    injection E as <-. cbn [accesses]. apply any_zero_log in Er.
    intros p Hp. apply Er. apply in_or_app. now left.
  - injection E as <-. cbn [accesses]. intros p Hp. apply in_or_app. now left.
Qed.

Lemma grows_refl (st : border_state) : grows st st.
Proof. apply incl_refl. Qed.

Lemma grows_trans (s t u : border_state) : grows s t -> grows t u -> grows s u.
Proof. apply incl_tran. Qed.

(** In a run that returns, the neighbour test of every included pixel was
    carried out, and each neighbour it reached is in the log of reads. *)
Lemma border_pixels_run_reads (st : border_state) (i j : Z)
  (pre rest : list (Z * Z)) (p : Z * Z) :
  border_pixels_run mask = Ok st ->
  included mask i j ->
  neighbours i j = pre ++ p :: rest ->
  Forall (reads_true mask) pre ->
  In p (accesses st).
Proof.
  intros Erun [Hi [Hj Hij]] Hn Hpre. unfold border_pixels_run in Erun.
  set (row := fun i : Z =>
                for_loop (range 0 (snd (shape mask)))
                  (fun j => border_pixel mask i j)) in *.
  assert (Hrow : forall x t t', row x t = Ok t' -> grows t t').
  { intros x t t' E. unfold row in E.
    apply (@for_loop_grows_from border_state grows grows_refl grows_trans
             (fun j => border_pixel mask x j) (range 0 (snd (shape mask)))
             (fun y u u' _ Eu => border_pixel_grows x y u Eu)
             (range 0 (snd (shape mask))) t t' (incl_refl _) E). }
  destruct (@for_loop_reach_from border_state grows grows_refl grows_trans
              row (range 0 (fst (shape mask)))
              (fun x t t' _ E => Hrow x t t' E)
              (range 0 (fst (shape mask))) border_start st i
              (incl_refl _) Erun) as [t [t' [Et Ht']]];
    [apply In_range; lia|].
  unfold row in Et.
  destruct (@for_loop_reach_from border_state grows grows_refl grows_trans
              (fun j => border_pixel mask i j) (range 0 (snd (shape mask)))
              (fun y u u' _ Eu => border_pixel_grows i y u Eu)
              (range 0 (snd (shape mask))) t t' j
              (incl_refl _) Et) as [u [u' [Eu Hu']]];
    [apply In_range; lia|].
  apply Ht', Hu'. unfold border_pixel in Eu. rewrite Hij in Eu. cbn [bind] in Eu.
  rewrite Hn in Eu.
  destruct (any_zero mask (pre ++ p :: rest) (accesses u ++ [(i, j)]))
    as [r|e] eqn:Er; cbn [bind] in Eu; [|discriminate].
  injection Eu as <-. cbn [accesses]. exact (@any_zero_reads pre rest _ p r Hpre Er).
Qed.

End BorderReads.

(** ** The mask *)

Section MaskClaims.

Import Image.
Local Open Scope Z_scope.

(** Scenario D: with a (3,3) kernel over the 3x3 mask whose only included
    pixel is the centre, the result is the 8 surrounding pixels. *)
Example blurring_region_scenario_D :
  blurring_region mask_centre_3x3 (3, 3)
  = Ok [[T; T; T];
        [T; F; T];
        [T; T; T]].
Proof. vm_compute. reflexivity. Qed.

(** C6: on the 4x4 mask whose only included pixel is (1, 2), with a (3,3)
    kernel, blurring_region marks the box around the transposed position
    (2, 1): pixel (0, 3), excluded and inside the box of (1, 2), is left
    unmarked, and pixel (3, 0), outside that box, is marked. *)
Theorem blurring_region_transposed :
  blurring_region mask_off_centre_4x4 (3, 3)
  = Ok [[F; F; F; F];
        [T; T; F; F];
        [T; T; T; F];
        [T; T; T; F]]
  /\ in_blurring_region mask_off_centre_4x4 (3, 3) 0 3
  /\ ~ in_blurring_region mask_off_centre_4x4 (3, 3) 3 0.
Proof.
  split; [vm_compute; reflexivity|]. split.
  - split; [reflexivity|]. split; [unfold in_bounds; cbn; lia|].
    exists 1, 2. split.
    + split; [cbn; lia|]. split; [cbn; lia|reflexivity].
    + unfold in_box, half. cbn. lia.
  - intros [_ [_ [i [j [[Hi [Hj Hget]] [Hbox _]]]]]].
    unfold in_box, half in Hbox. cbn [fst snd] in Hbox.
    change ((3 - 1) / 2) with 1 in Hbox.
    change (fst (shape mask_off_centre_4x4)) with 4 in Hi.
    change (snd (shape mask_off_centre_4x4)) with 4 in Hj.
    assert (Ei : i = 0 \/ i = 1 \/ i = 2 \/ i = 3) by lia.
    assert (Ej : j = 0 \/ j = 1 \/ j = 2 \/ j = 3) by lia.
    destruct Ei as [-> | [-> | [-> | ->]]]; destruct Ej as [-> | [-> | [-> | ->]]];
      vm_compute in Hget; try discriminate Hget; lia.
Qed.

(** C7 (as amended): blurring_region raises MaskException, before it looks at
    the mask, whenever a component of the kernel size is even; for a square
    mask and an odd kernel it raises MaskException whenever the box of some
    included pixel reaches outside the array; the two failures are of the one
    class MaskException and differ in their message; a raised exception
    carries no partial result. *)
Theorem blurring_region_errors (mask : Mask) (size : Z * Z) :
  (fst size mod 2 = 0 \/ snd size mod 2 = 0 ->
   blurring_region mask size = Raise (MaskException msg_odd))
  /\ (square mask -> fst size mod 2 = 1 -> snd size mod 2 = 1 ->
      (exists i j, included mask i j /\ box_outside mask size i j) ->
      blurring_region mask size = Raise (MaskException msg_pad))
  /\ class_of (MaskException msg_odd) = class_of (MaskException msg_pad)
  /\ msg_odd <> msg_pad.
Proof.
  split; [|split; [|split]].
  - intros H. unfold blurring_region.
    destruct H as [-> | ->]; cbn [Z.eqb orb]; [reflexivity|].
    now rewrite orb_true_r.
  - intros Hsq H0 H1 Hout. now apply blurring_region_outside.
  - reflexivity.
  - discriminate.
Qed.

Lemma blurring_region_errors_witness :
  (4 mod 2 = 0 \/ 3 mod 2 = 0)
  /\ blurring_region mask_centre_3x3 (4, 3) = Raise (MaskException msg_odd)
  /\ square [[T]]
  /\ (exists i j, included [[T]] i j /\ box_outside [[T]] (3, 3) i j)
  /\ blurring_region [[T]] (3, 3) = Raise (MaskException msg_pad).
Proof.
  assert (Hsq : square [[T]]) by (split; [repeat constructor|reflexivity]).
  assert (Hout : exists i j, included [[T]] i j /\ box_outside [[T]] (3, 3) i j).
  { exists 0, 0. split.
    - split; [cbn; lia|]. split; [cbn; lia|reflexivity].
    - exists 1, 0. split.
      + unfold in_box, half. cbn. lia.
      + unfold in_bounds. cbn. lia. }
  split; [left; reflexivity|].
  split; [apply (blurring_region_errors mask_centre_3x3 (4, 3)); left; reflexivity|].
  split; [exact Hsq|]. split; [exact Hout|].
  apply (blurring_region_errors [[T]] (3, 3)); [exact Hsq|reflexivity|reflexivity|exact Hout].
Defined.

(** C7, the claim as stated fails: the exception raised for an even kernel
    and the one raised for a box that leaves the array are of the same
    class. *)
Lemma blurring_region_errors_share_class :
  exists e1 e2,
    blurring_region mask_centre_3x3 (4, 3) = Raise e1
    /\ blurring_region [[T]] (3, 3) = Raise e2
    /\ class_of e1 = class_of e2.
Proof. do 2 eexists. repeat split; vm_compute; reflexivity. Qed.

(** C10 (as amended): on a rectangular mask, border_pixels performs only
    in-bounds reads whenever no included pixel lies in the first or last row
    or column; an included pixel in the last row always makes it read past
    the end of the array (IndexError); an included pixel in the last column
    does so when its neighbours below and above are both included.  The
    neighbour test of an included pixel stops at the first neighbour it reads
    as False: it performs the reads up to that one and no other, and counts
    the pixel as a border pixel.  In a run that returns, an included pixel of
    row 0 whose neighbour below is included has had the read at row -1
    performed, and an included pixel of column 0 whose three neighbours
    tested first are included the read at column -1; such a read does not
    fail but gives the pixel on the opposite edge of the array. *)
Theorem border_pixels_accesses (mask : Mask) :
  rectangular mask ->
  (no_included_on_edge mask -> in_bounds_only mask)
  /\ ((exists i j, included mask i j /\ i = fst (shape mask) - 1) ->
      border_pixels mask = Raise IndexError)
  /\ ((exists i j, included mask i j /\ j = snd (shape mask) - 1
                   /\ getitem mask (i + 1) j = Ok true
                   /\ getitem mask (i - 1) j = Ok true) ->
      border_pixels mask = Raise IndexError)
  /\ (forall i j st pre a b rest,
        included mask i j ->
        neighbours i j = pre ++ (a, b) :: rest ->
        Forall (reads_true mask) pre ->
        getitem mask a b = Ok false ->
        border_pixel mask i j st
        = Ok {| accesses := accesses st ++ (i, j) :: pre ++ [(a, b)];
                border := border st ++ [image_pixel_index st];
                image_pixel_index := image_pixel_index st + 1 |})
  /\ (forall st, border_pixels_run mask = Ok st ->
        (forall j, included mask 0 j -> getitem mask 1 j = Ok true ->
           In (-1, j) (accesses st)
           /\ ~ in_bounds mask (-1, j)
           /\ exists v, getitem mask (-1) j = Ok v
                        /\ getitem mask (fst (shape mask) - 1) j = Ok v)
        /\ (forall i, included mask i 0 ->
              getitem mask (i + 1) 0 = Ok true ->
              getitem mask (i - 1) 0 = Ok true ->
              getitem mask i 1 = Ok true ->
              In (i, -1) (accesses st)
              /\ ~ in_bounds mask (i, -1)
              /\ exists v, getitem mask i (-1) = Ok v
                           /\ getitem mask i (snd (shape mask) - 1) = Ok v))
  /\ (forall j, 0 < fst (shape mask) ->
        getitem mask (-1) j = getitem mask (fst (shape mask) - 1) j)
  /\ (forall i, 0 < snd (shape mask) ->
        getitem mask i (-1) = getitem mask i (snd (shape mask) - 1)).
Proof.
  intros Hrect. split; [|split; [|split; [|split; [|split; [|split]]]]].
  - now apply border_pixels_in_bounds.
  - apply border_pixels_last_row.
  - apply border_pixels_last_column.
  - intros i j st pre a b rest [_ [_ Hij]] Hn Hpre Hab.
    exact (@border_pixel_stops mask i j st pre rest a b Hij Hn Hpre Hab).
  - intros st Erun. split.
    + intros j Hin Hbelow. split; [|split].
      * apply (@border_pixels_run_reads mask st 0 j [(0 + 1, j)]
                 [(0, j + 1); (0, j - 1); (0 + 1, j + 1); (0 + 1, j - 1);
                  (0 - 1, j + 1); (0 - 1, j - 1)] (0 - 1, j) Erun Hin eq_refl).
        constructor; [exact Hbelow|constructor].
      * unfold in_bounds. cbn [fst snd]. lia.
      * destruct Hin as [Hi [Hj _]].
        destruct (@getitem_in_bounds bool mask (fst (shape mask) - 1) j Hrect)
          as [v Ev]; [lia|lia|].
        exists v. rewrite getitem_wrap_row by lia. auto.
    + intros i Hin Hbelow Habove Hright. split; [|split].
      * apply (@border_pixels_run_reads mask st i 0
                 [(i + 1, 0); (i - 1, 0); (i, 0 + 1)]
                 [(i + 1, 0 + 1); (i + 1, 0 - 1); (i - 1, 0 + 1); (i - 1, 0 - 1)]
                 (i, 0 - 1) Erun Hin eq_refl).
        repeat (constructor; [assumption|]). constructor.
      * unfold in_bounds. cbn [fst snd]. lia.
      * destruct Hin as [Hi [Hj _]].
        destruct (@getitem_in_bounds bool mask i (snd (shape mask) - 1) Hrect)
          as [v Ev]; [lia|lia|].
        exists v. rewrite getitem_wrap_column by lia. auto.
  - intros j. apply getitem_wrap_row.
  - intros i. apply getitem_wrap_column.
Qed.

Lemma border_pixels_accesses_witness :
  in_bounds_only mask_block_4x4
  /\ border_pixels mask_last_row_3x3 = Raise IndexError
  /\ border_pixel mask_last_column_3x3 1 2 border_start
     = Ok {| accesses := [(1, 2); (2, 2)]; border := [0];
             image_pixel_index := 1 |}
  /\ exists st,
       border_pixels_run mask_first_row_3x3 = Ok st
       /\ In (-1, 1) (accesses st)
       /\ ~ in_bounds mask_first_row_3x3 (-1, 1).
Proof.
  assert (Hblock : rectangular mask_block_4x4) by (repeat constructor).
  assert (Hrow : rectangular mask_last_row_3x3) by (repeat constructor).
  assert (Hcol : rectangular mask_last_column_3x3) by (repeat constructor).
  assert (Hfirst : rectangular mask_first_row_3x3) by (repeat constructor).
  assert (Hedge : no_included_on_edge mask_block_4x4).
  { intros i j [Hi [Hj Hget]] Hon. unfold on_edge in Hon.
    change (fst (shape mask_block_4x4)) with 4 in Hi, Hon.
    change (snd (shape mask_block_4x4)) with 4 in Hj, Hon.
    assert (Ei : i = 0 \/ i = 1 \/ i = 2 \/ i = 3) by lia.
    assert (Ej : j = 0 \/ j = 1 \/ j = 2 \/ j = 3) by lia.
    destruct Ei as [-> | [-> | [-> | ->]]]; destruct Ej as [-> | [-> | [-> | ->]]];
      vm_compute in Hget; try discriminate Hget; lia. }
  split; [exact (proj1 (border_pixels_accesses Hblock) Hedge)|].
  split.
  { apply (proj1 (proj2 (border_pixels_accesses Hrow))).
    exists 2, 1. split; [|reflexivity].
    split; [cbn; lia|]. split; [cbn; lia|reflexivity]. }
  split.
  { apply (proj1 (proj2 (proj2 (proj2 (border_pixels_accesses Hcol))))
             1 2 border_start [] 2 2
             [(1 - 1, 2); (1, 2 + 1); (1, 2 - 1); (1 + 1, 2 + 1); (1 + 1, 2 - 1);
              (1 - 1, 2 + 1); (1 - 1, 2 - 1)]).
    - split; [cbn; lia|]. split; [cbn; lia|reflexivity].
    - reflexivity.
    - constructor.
    - reflexivity. }
  eexists. split; [vm_compute; reflexivity|].
  refine ((fun H => conj (proj1 H) (proj1 (proj2 H))) _).
  apply (proj1 (proj1 (proj2 (proj2 (proj2 (proj2
           (border_pixels_accesses Hfirst))))) _ eq_refl) 1).
  - split; [cbn; lia|]. split; [cbn; lia|reflexivity].
  - reflexivity.
Defined.

(** C10, the claim as stated fails: in the 3x3 mask whose only included pixel
    is (1, 2), in the last column, the neighbour test stops at the excluded
    pixel (2, 2) read first, and every read is in bounds. *)
Lemma border_pixels_short_circuit :
  rectangular mask_last_column_3x3
  /\ ~ (in_bounds_only mask_last_column_3x3
        <-> no_included_on_edge mask_last_column_3x3).
Proof.
  split; [repeat constructor|].
  intros [Hto _].
  assert (Hsafe : in_bounds_only mask_last_column_3x3).
  { eexists. split; [vm_compute; reflexivity|].
    repeat (apply Forall_cons; [unfold in_bounds; cbn; lia|]).
    apply Forall_nil. }
  apply (Hto Hsafe 1 2).
  - split; [cbn; lia|]. split; [cbn; lia|reflexivity].
  - unfold on_edge. cbn. lia.
Qed.

End MaskClaims.

(** * Further properties of the code *)

(** ** trim and pad *)

Section Slices.

Import ImageArrays.
Local Open Scope Z_scope.

Variable A : Type.

Lemma slice_inner (l : list A) (a b : Z) :
  0 <= a <= b -> b <= Z.of_nat (length l) ->
  slice l a b = firstn (Z.to_nat (b - a)) (skipn (Z.to_nat a) l).
Proof.
  intros Hab Hb. unfold slice, slice_index.
  replace (a <? 0) with false by (symmetry; apply Z.ltb_ge; lia).
  replace (b <? 0) with false by (symmetry; apply Z.ltb_ge; lia).
  rewrite !Z.min_l by lia. reflexivity.
Qed.

Lemma slice_all (l : list A) : slice l 0 (Z.of_nat (length l)) = l.
Proof.
  rewrite slice_inner by lia. cbn [Z.to_nat skipn].
  rewrite Z.sub_0_r, Nat2Z.id. apply firstn_all.
Qed.

Lemma slice_length (l : list A) (a b : Z) :
  0 <= a <= b -> b <= Z.of_nat (length l) ->
  Z.of_nat (length (slice l a b)) = b - a.
Proof.
  intros Hab Hb. rewrite slice_inner by assumption.
  rewrite length_firstn, length_skipn. lia.
Qed.

Lemma slice_nth_error (l : list A) (a b : Z) (i : nat) :
  0 <= a <= b -> b <= Z.of_nat (length l) ->
  Z.of_nat i < b - a ->
  nth_error (slice l a b) i = nth_error l (i + Z.to_nat a).
Proof.
  intros Hab Hb Hi. rewrite slice_inner by assumption.
  rewrite nth_error_firstn.
  replace (i <? Z.to_nat (b - a))%nat with true
    by (symmetry; apply Nat.ltb_lt; lia).
  rewrite nth_error_skipn. f_equal. lia.
Qed.

Lemma In_slice (l : list A) (a b : Z) (x : A) : In x (slice l a b) -> In x l.
Proof.
  unfold slice. intros H.
  set (n := Z.to_nat (slice_index (Z.of_nat (length l)) a)) in *.
  set (m := Z.to_nat _) in H.
  rewrite <- (firstn_skipn n l). apply in_or_app. right.
  rewrite <- (firstn_skipn m (skipn n l)). apply in_or_app. now left.
Qed.

(** Taking the middle out of [before ++ l ++ after]. *)
Lemma slice_middle (before l after : list A) :
  slice (before ++ l ++ after) (Z.of_nat (length before))
        (Z.of_nat (length before) + Z.of_nat (length l))
  = l.
Proof.
  rewrite slice_inner by (rewrite ?length_app; lia).
  rewrite Nat2Z.id.
  rewrite skipn_app, skipn_all, Nat.sub_diag. cbn [app skipn].
  replace (Z.to_nat (Z.of_nat (length before) + Z.of_nat (length l)
                     - Z.of_nat (length before)))
    with (length l + 0)%nat by lia.
  rewrite firstn_app_2. cbn [firstn]. apply app_nil_r.
Qed.

Lemma slice_middle_at (before l after : list A) (a b : Z) :
  a = Z.of_nat (length before) -> b = a + Z.of_nat (length l) ->
  slice (before ++ l ++ after) a b = l.
Proof. intros -> ->. apply slice_middle. Qed.

End Slices.

Section TrimPad.

Import ImageArrays.
Local Open Scope Z_scope.

Variable A : Type.

Lemma rectangular_rows (array : ndarray2 A) :
  rectangular array ->
  Forall (fun row => Z.of_nat (length row) = snd (shape array)) array.
Proof.
  unfold rectangular, shape. cbn [snd]. intros H.
  eapply Forall_impl; [|exact H]. cbn. intros row ->. reflexivity.
Qed.

Lemma shape_of (a : ndarray2 A) (n0 n1 : Z) :
  has_shape a n0 n1 -> 0 < n0 -> shape a = (n0, n1) /\ rectangular a.
Proof.
  intros [Hlen Hrows] Hpos. destruct a as [|row a]; [cbn in Hlen; lia|].
  apply Forall_cons_iff in Hrows as [Hrow Hrest]. split.
  - unfold shape. cbn [hd]. f_equal; assumption.
  - unfold rectangular. cbn [hd]. constructor; [reflexivity|].
    eapply Forall_impl; [|exact Hrest]. cbn. intros r Hr. lia.
Qed.

Section Trim.

Variable array : ndarray2 A.
Hypothesis array_rect : rectangular array.
Variables p0 p1 : Z.

Let s0 := fst (shape array).
Let s1 := snd (shape array).
Let x_trim := (s0 - p0) / 2.
Let y_trim := (s1 - p1) / 2.

Hypothesis p0_range : 0 <= p0 <= s0.
Hypothesis p1_range : 0 <= p1 <= s1.

Lemma trim_bounds :
  0 <= x_trim /\ 2 * x_trim <= s0 - p0 /\ s0 - 2 * x_trim = p0 + (s0 - p0) mod 2
  /\ 0 <= y_trim /\ 2 * y_trim <= s1 - p1 /\ s1 - 2 * y_trim = p1 + (s1 - p1) mod 2.
Proof.
  unfold x_trim, y_trim.
  pose proof (Z.div_mod (s0 - p0) 2 ltac:(lia)) as E0.
  pose proof (Z.div_mod (s1 - p1) 2 ltac:(lia)) as E1.
  pose proof (Z.mod_pos_bound (s0 - p0) 2 ltac:(lia)) as B0.
  pose proof (Z.mod_pos_bound (s1 - p1) 2 ltac:(lia)) as B1.
  pose proof (Z.div_pos (s0 - p0) 2 ltac:(lia) ltac:(lia)) as D0.
  pose proof (Z.div_pos (s1 - p1) 2 ltac:(lia) ltac:(lia)) as D1.
  lia.
Qed.

Lemma trim_returns :
  trim array (p0, p1)
  = Ok (slice2 array x_trim (s0 - x_trim) y_trim (s1 - y_trim)).
Proof.
  unfold trim. cbn [fst snd]. fold s0 s1.
  rewrite !Z.gtb_ltb.
  replace (s0 <? p0) with false by (symmetry; apply Z.ltb_ge; lia).
  replace (s1 <? p1) with false by (symmetry; apply Z.ltb_ge; lia).
  reflexivity.
Qed.

Lemma trim_shape :
  has_shape (slice2 array x_trim (s0 - x_trim) y_trim (s1 - y_trim))
    (s0 - 2 * x_trim) (s1 - 2 * y_trim).
Proof.
  destruct trim_bounds as [H0 [H1 [_ [H2 [H3 _]]]]].
  unfold has_shape, slice2. rewrite length_map. split.
  - rewrite slice_length; [lia|lia|unfold s0, shape; cbn [fst]; lia].
  - apply Forall_map. apply Forall_forall. intros row Hrow.
    assert (Hin : In row array) by (eapply In_slice; exact Hrow).
    pose proof (rectangular_rows array_rect) as Hrows.
    rewrite Forall_forall in Hrows. specialize (Hrows row Hin). fold s1 in Hrows.
    rewrite slice_length; lia.
Qed.

Lemma trim_entry (i j : nat) :
  Z.of_nat i < s0 - 2 * x_trim -> Z.of_nat j < s1 - 2 * y_trim ->
  entry (slice2 array x_trim (s0 - x_trim) y_trim (s1 - y_trim)) i j
  = entry array (i + Z.to_nat x_trim) (j + Z.to_nat y_trim).
Proof.
  intros Hi Hj. destruct trim_bounds as [H0 [H1 [_ [H2 [H3 _]]]]].
  unfold entry, slice2. rewrite nth_error_map.
  rewrite slice_nth_error; [|lia|unfold s0, shape; cbn [fst]; lia|lia].
  destruct (nth_error array (i + Z.to_nat x_trim)) as [row|] eqn:Erow;
    [|reflexivity].
  cbn [option_map].
  pose proof (rectangular_row _ array_rect Erow) as Hlen. fold s1 in Hlen.
  apply slice_nth_error; lia.
Qed.

End Trim.

Lemma slice2_all (a : ndarray2 A) :
  rectangular a -> slice2 a 0 (fst (shape a)) 0 (snd (shape a)) = a.
Proof.
  intros Hrect. unfold slice2.
  change (fst (shape a)) with (Z.of_nat (length a)). rewrite slice_all.
  pose proof (rectangular_rows Hrect) as Hrows. rewrite Forall_forall in Hrows.
  transitivity (map (fun row : list A => row) a); [|apply map_id].
  apply map_ext_in. intros row Hrow.
  rewrite <- (Hrows row Hrow). apply slice_all.
Qed.

(** Trimming to the array's own dimensions returns the array. *)
Lemma trim_own_shape (a : ndarray2 A) : rectangular a -> trim a (shape a) = Ok a.
Proof.
  intros Hrect. destruct (shape a) as [s0 s1] eqn:Es.
  assert (H0 : 0 <= s0) by (unfold shape in Es; inversion Es; lia).
  assert (H1 : 0 <= s1) by (unfold shape in Es; inversion Es; lia).
  rewrite trim_returns by (rewrite ?Es; cbn [fst snd]; auto; lia).
  rewrite Es. cbn [fst snd]. rewrite !Z.sub_diag. cbn [Z.div].
  change (0 / 2) with 0. rewrite !Z.sub_0_r.
  replace s0 with (fst (shape a)) by now rewrite Es.
  replace s1 with (snd (shape a)) by now rewrite Es.
  f_equal. now apply slice2_all.
Qed.

Section Pad.

Variable zero : A.
Variable array : ndarray2 A.
Hypothesis array_rect : rectangular array.
Variables p0 p1 : Z.

Let s0 := fst (shape array).
Let s1 := snd (shape array).
Let x_pad := (p0 - s0 + 1) / 2.
Let y_pad := (p1 - s1 + 1) / 2.

Hypothesis p0_range : s0 <= p0.
Hypothesis p1_range : s1 <= p1.

Let zero_row := repeat zero (Z.to_nat (s1 + x_pad + y_pad)).
Let pad_row (row : list A) :=
  repeat zero (Z.to_nat x_pad) ++ row ++ repeat zero (Z.to_nat y_pad).
Let padded :=
  repeat zero_row (Z.to_nat x_pad) ++ map pad_row array
  ++ repeat zero_row (Z.to_nat y_pad).

Lemma pad_bounds : 0 <= x_pad /\ 0 <= y_pad /\ 0 <= s0 /\ 0 <= s1.
Proof.
  unfold x_pad, y_pad. repeat split;
    try (apply Z.div_pos; lia); unfold s0, s1, shape; cbn [fst snd]; lia.
Qed.

Lemma pad_returns : pad zero array (p0, p1) = Ok padded.
Proof.
  destruct pad_bounds as [Hx [Hy _]].
  unfold pad, np_pad. cbn [fst snd]. fold s0 s1. fold x_pad y_pad.
  replace (p0 <? s0) with false by (symmetry; apply Z.ltb_ge; lia).
  replace (p1 <? s1) with false by (symmetry; apply Z.ltb_ge; lia).
  replace (x_pad <? 0) with false by (symmetry; apply Z.ltb_ge; lia).
  replace (y_pad <? 0) with false by (symmetry; apply Z.ltb_ge; lia).
  reflexivity.
Qed.

Lemma pad_row_length (row : list A) :
  In row array -> Z.of_nat (length (pad_row row)) = s1 + x_pad + y_pad.
Proof.
  intros Hin. destruct pad_bounds as [Hx [Hy _]].
  pose proof (rectangular_rows array_rect) as Hrows.
  rewrite Forall_forall in Hrows. specialize (Hrows row Hin). fold s1 in Hrows.
  unfold pad_row. rewrite !length_app, !repeat_length. lia.
Qed.

Lemma pad_shape : has_shape padded (s0 + x_pad + y_pad) (s1 + x_pad + y_pad).
Proof.
  destruct pad_bounds as [Hx [Hy [H0 H1]]]. unfold has_shape, padded. split.
  - rewrite !length_app, !repeat_length, length_map.
    unfold s0, shape. cbn [fst]. lia.
  - assert (Hz : Z.of_nat (length zero_row) = s1 + x_pad + y_pad)
      by (unfold zero_row; rewrite repeat_length; lia).
    repeat (apply Forall_app; split).
    + apply Forall_forall. intros r Hr. apply repeat_spec in Hr. now subst.
    + apply Forall_map, Forall_forall. intros r Hr. now apply pad_row_length.
    + apply Forall_forall. intros r Hr. apply repeat_spec in Hr. now subst.
Qed.

(** The entries of the argument sit [x_pad] rows down and [x_pad] columns
    to the right. *)
Lemma pad_entry_inside (i j : nat) :
  Z.of_nat i < s0 -> Z.of_nat j < s1 ->
  entry padded (i + Z.to_nat x_pad) (j + Z.to_nat x_pad) = entry array i j.
Proof.
  intros Hi Hj. destruct pad_bounds as [Hx [Hy [H0 H1]]].
  unfold entry, padded.
  rewrite nth_error_app2 by (rewrite repeat_length; lia).
  rewrite repeat_length.
  replace (i + Z.to_nat x_pad - Z.to_nat x_pad)%nat with i by lia.
  rewrite nth_error_app1
    by (rewrite length_map; unfold s0, shape in Hi; cbn [fst] in Hi; lia).
  rewrite nth_error_map.
  destruct (nth_error array i) as [row|] eqn:Erow; [|reflexivity].
  cbn [option_map]. unfold pad_row.
  rewrite nth_error_app2 by (rewrite repeat_length; lia).
  rewrite repeat_length.
  replace (j + Z.to_nat x_pad - Z.to_nat x_pad)%nat with j by lia.
  pose proof (rectangular_row _ array_rect Erow) as Hlen. fold s1 in Hlen.
  apply nth_error_app1. lia.
Qed.

(** Everything else is zero. *)
Lemma pad_entry_outside (i j : nat) :
  Z.of_nat i < s0 + x_pad + y_pad -> Z.of_nat j < s1 + x_pad + y_pad ->
  ~ (x_pad <= Z.of_nat i < x_pad + s0 /\ x_pad <= Z.of_nat j < x_pad + s1) ->
  entry padded i j = Some zero.
Proof.
  intros Hi Hj Hout. destruct pad_bounds as [Hx [Hy [H0 H1]]].
  assert (Hzero : nth_error zero_row j = Some zero).
  { unfold zero_row. rewrite nth_error_repeat; [reflexivity|lia]. }
  unfold entry, padded.
  destruct (Z_lt_le_dec (Z.of_nat i) x_pad) as [Htop|Htop].
  - rewrite nth_error_app1 by (rewrite repeat_length; lia).
    rewrite nth_error_repeat by lia. exact Hzero.
  - rewrite nth_error_app2 by (rewrite repeat_length; lia).
    rewrite repeat_length.
    destruct (Z_lt_le_dec (Z.of_nat i) (x_pad + s0)) as [Hmid|Hmid].
    + rewrite nth_error_app1
        by (rewrite length_map; unfold s0, shape in Hmid; cbn [fst] in Hmid; lia).
      rewrite nth_error_map.
      destruct (nth_error array (i - Z.to_nat x_pad)) as [row|] eqn:Erow.
      * cbn [option_map]. unfold pad_row.
        pose proof (rectangular_row _ array_rect Erow) as Hlen. fold s1 in Hlen.
        destruct (Z_lt_le_dec (Z.of_nat j) x_pad) as [Hl|Hl].
        -- rewrite nth_error_app1 by (rewrite repeat_length; lia).
           apply nth_error_repeat. lia.
        -- rewrite nth_error_app2 by (rewrite repeat_length; lia).
           rewrite repeat_length.
           rewrite nth_error_app2 by lia.
           apply nth_error_repeat. lia.
      * apply nth_error_None in Erow.
        unfold s0, shape in Hmid. cbn [fst] in Hmid. lia.
    + rewrite nth_error_app2
        by (rewrite length_map; unfold s0, shape in Hmid; cbn [fst] in Hmid; lia).
      rewrite length_map. rewrite nth_error_repeat; [exact Hzero|].
      unfold s0, shape in *. cbn [fst] in *. lia.
Qed.

(** When both axes grow by the same amount the trim undoes the pad. *)
Lemma pad_trim : x_pad = y_pad -> trim padded (s0, s1) = Ok array.
Proof.
  intros Exy. destruct pad_bounds as [Hx [Hy [H0 H1]]].
  assert (Hlen : Z.of_nat (length padded) = s0 + 2 * x_pad).
  { destruct pad_shape as [-> _]. lia. }
  assert (Hwidth : snd (shape padded) = s1 + 2 * x_pad).
  { destruct (Z.eq_dec (s0 + 2 * x_pad) 0) as [E0|E0].
    - assert (Enil : array = []).
      { destruct array; [reflexivity|].
        unfold s0, shape in E0. cbn [fst length] in E0. lia. }
      unfold padded, s1. rewrite Enil.
      replace x_pad with 0 by lia. replace y_pad with 0 by lia. reflexivity.
    - pose proof pad_shape as Hsh. rewrite <- Exy in Hsh.
      destruct (shape_of Hsh) as [Es _]; [lia|]. rewrite Es. cbn [snd]. lia. }
  assert (Eshape : shape padded = (s0 + 2 * x_pad, s1 + 2 * x_pad)).
  { unfold shape in *. cbn [snd] in Hwidth. now rewrite Hlen, Hwidth. }
  unfold trim. rewrite Eshape. cbn [fst snd]. rewrite !Z.gtb_ltb.
  replace (s0 + 2 * x_pad <? s0) with false by (symmetry; apply Z.ltb_ge; lia).
  replace (s1 + 2 * x_pad <? s1) with false by (symmetry; apply Z.ltb_ge; lia).
  replace ((s0 + 2 * x_pad - s0) / 2) with x_pad
    by (replace (s0 + 2 * x_pad - s0) with (x_pad * 2) by lia;
        now rewrite Z.div_mul by lia).
  replace ((s1 + 2 * x_pad - s1) / 2) with x_pad
    by (replace (s1 + 2 * x_pad - s1) with (x_pad * 2) by lia;
        now rewrite Z.div_mul by lia).
  f_equal. unfold slice2.
  assert (Hrows : slice padded x_pad (s0 + 2 * x_pad - x_pad) = map pad_row array).
  { unfold padded. apply slice_middle_at.
    - rewrite repeat_length. lia.
    - rewrite length_map. unfold s0, shape. cbn [fst]. lia. }
  rewrite Hrows, map_map. rewrite <- (map_id array) at 2.
  apply map_ext_in. intros row Hrow.
  pose proof (rectangular_rows array_rect) as Hall.
  rewrite Forall_forall in Hall. specialize (Hall row Hrow). fold s1 in Hall.
  unfold pad_row. apply slice_middle_at.
  - rewrite repeat_length. lia.
  - lia.
Qed.

End Pad.

End TrimPad.

Section TrimPadProperties.

Import ImageArrays.
Local Open Scope Z_scope.

Variable A : Type.

(** X1: for a rectangular array and requested dimensions between 0 and the
    array's, trim returns the middle of the array: on each axis
    [(s - p) / 2] entries are cut from both ends, so the result has [p]
    entries when [s - p] is even and [p + 1] when it is odd. *)
Theorem trim_keeps_centre (array : ndarray2 A) (p0 p1 : Z) :
  rectangular array ->
  0 <= p0 <= fst (shape array) -> 0 <= p1 <= snd (shape array) ->
  exists out,
    trim array (p0, p1) = Ok out
    /\ has_shape out (p0 + (fst (shape array) - p0) mod 2)
                     (p1 + (snd (shape array) - p1) mod 2)
    /\ forall i j : nat,
         Z.of_nat i < p0 + (fst (shape array) - p0) mod 2 ->
         Z.of_nat j < p1 + (snd (shape array) - p1) mod 2 ->
         entry out i j
         = entry array (i + Z.to_nat ((fst (shape array) - p0) / 2))
                       (j + Z.to_nat ((snd (shape array) - p1) / 2)).
Proof.
  intros Hrect H0 H1.
  destruct (trim_bounds array H0 H1) as [_ [_ [E0 [_ [_ E1]]]]].
  eexists. split; [apply trim_returns; assumption|].
  rewrite <- E0, <- E1. split.
  - now apply trim_shape.
  - intros i j Hi Hj. now apply trim_entry.
Qed.

(** X2: trimming the result of a trim to the same dimensions (at least 1 on
    each axis) changes nothing. *)
Theorem trim_idempotent (array out : ndarray2 A) (p0 p1 : Z) :
  rectangular array -> 1 <= p0 -> 1 <= p1 ->
  trim array (p0, p1) = Ok out ->
  trim out (p0, p1) = Ok out.
Proof.
  intros Hrect H0 H1 Htrim.
  assert (R0 : 0 <= p0 <= fst (shape array)).
  { unfold trim in Htrim. cbn [fst snd] in Htrim.
    destruct (p0 >? fst (shape array)) eqn:E; [discriminate|].
    rewrite Z.gtb_ltb in E. apply Z.ltb_ge in E. lia. }
  assert (R1 : 0 <= p1 <= snd (shape array)).
  { unfold trim in Htrim. cbn [fst snd] in Htrim.
    destruct (p0 >? fst (shape array)); [discriminate|].
    destruct (p1 >? snd (shape array)) eqn:E; [discriminate|].
    rewrite Z.gtb_ltb in E. apply Z.ltb_ge in E. lia. }
  destruct (trim_bounds array R0 R1) as [_ [_ [E0 [_ [_ E1]]]]].
  pose proof (trim_shape Hrect R0 R1) as Hshape.
  rewrite E0, E1 in Hshape.
  pose proof (trim_returns array R0 R1) as Eret.
  set (o := slice2 array _ _ _ _) in Hshape, Eret.
  assert (Eo : out = o) by congruence.
  rewrite <- Eo in Hshape. clear Eret Eo o.
  pose proof (Z.mod_pos_bound (fst (shape array) - p0) 2 ltac:(lia)) as B0.
  pose proof (Z.mod_pos_bound (snd (shape array) - p1) 2 ltac:(lia)) as B1.
  destruct (shape_of Hshape) as [Es Hrect']; [lia|].
  rewrite trim_returns;
    [|rewrite Es; cbn [fst]; lia|rewrite Es; cbn [snd]; lia].
  f_equal. rewrite Es. cbn [fst snd].
  replace ((p0 + (fst (shape array) - p0) mod 2 - p0) / 2) with 0
    by (symmetry; apply Z.div_small; lia).
  replace ((p1 + (snd (shape array) - p1) mod 2 - p1) / 2) with 0
    by (symmetry; apply Z.div_small; lia).
  rewrite !Z.sub_0_r.
  replace (p0 + (fst (shape array) - p0) mod 2) with (fst (shape out))
    by now rewrite Es.
  replace (p1 + (snd (shape array) - p1) mod 2) with (snd (shape out))
    by now rewrite Es.
  now apply slice2_all.
Qed.

Variable zero : A.

(** X3: for a rectangular array and requested dimensions at least the
    array's, pad puts [x_pad = (p0 - s0 + 1) / 2] zeros before and
    [y_pad = (p1 - s1 + 1) / 2] zeros after the array on BOTH axes: the
    result has [s0 + x_pad + y_pad] rows and [s1 + x_pad + y_pad] columns,
    the argument sits at offset [(x_pad, x_pad)], and every other entry is
    zero. *)
Theorem pad_uses_both_pads_on_each_axis (array : ndarray2 A) (p0 p1 : Z) :
  rectangular array ->
  fst (shape array) <= p0 -> snd (shape array) <= p1 ->
  let x_pad := (p0 - fst (shape array) + 1) / 2 in
  let y_pad := (p1 - snd (shape array) + 1) / 2 in
  exists out,
    pad zero array (p0, p1) = Ok out
    /\ has_shape out (fst (shape array) + x_pad + y_pad)
                     (snd (shape array) + x_pad + y_pad)
    /\ (forall i j : nat,
          Z.of_nat i < fst (shape array) -> Z.of_nat j < snd (shape array) ->
          entry out (i + Z.to_nat x_pad) (j + Z.to_nat x_pad) = entry array i j)
    /\ (forall i j : nat,
          Z.of_nat i < fst (shape array) + x_pad + y_pad ->
          Z.of_nat j < snd (shape array) + x_pad + y_pad ->
          ~ (x_pad <= Z.of_nat i < x_pad + fst (shape array)
             /\ x_pad <= Z.of_nat j < x_pad + snd (shape array)) ->
          entry out i j = Some zero).
Proof.
  intros Hrect H0 H1 x_pad y_pad.
  eexists. split; [apply pad_returns; assumption|]. split; [|split].
  - now apply pad_shape.
  - intros i j. now apply pad_entry_inside.
  - intros i j. now apply pad_entry_outside.
Qed.

(** X4: when the two axes are padded by the same amount
    ([(p0 - s0 + 1) / 2 = (p1 - s1 + 1) / 2]), trimming the padded array back
    to the original dimensions returns the original array. *)
Theorem pad_then_trim (array out : ndarray2 A) (p0 p1 : Z) :
  rectangular array ->
  (p0 - fst (shape array) + 1) / 2 = (p1 - snd (shape array) + 1) / 2 ->
  pad zero array (p0, p1) = Ok out ->
  trim out (shape array) = Ok array.
Proof.
  intros Hrect Exy Hpad.
  assert (R0 : fst (shape array) <= p0).
  { unfold pad in Hpad. cbn [fst snd] in Hpad.
    destruct (p0 <? fst (shape array)) eqn:E; [discriminate|].
    now apply Z.ltb_ge in E. }
  assert (R1 : snd (shape array) <= p1).
  { unfold pad in Hpad. cbn [fst snd] in Hpad.
    destruct (p0 <? fst (shape array)); [discriminate|].
    destruct (p1 <? snd (shape array)) eqn:E; [discriminate|].
    now apply Z.ltb_ge in E. }
  rewrite (pad_returns zero array R0 R1) in Hpad. injection Hpad as <-.
  rewrite (surjective_pairing (shape array)).
  now apply pad_trim.
Qed.

End TrimPadProperties.

Lemma trim_keeps_centre_witness :
  rectangular [[1; 2; 3]; [4; 5; 6]; [7; 8; 9]]%Z
  /\ exists out,
       ImageArrays.trim [[1; 2; 3]; [4; 5; 6]; [7; 8; 9]]%Z (1, 1)%Z = Ok out
       /\ ImageArrays.entry out 0 0 = Some 5%Z.
Proof.
  assert (Hrect : rectangular [[1; 2; 3]; [4; 5; 6]; [7; 8; 9]]%Z)
    by (repeat constructor).
  split; [exact Hrect|].
  destruct (@trim_keeps_centre Z [[1; 2; 3]; [4; 5; 6]; [7; 8; 9]]%Z 1 1 Hrect)
    as [out [Hout [_ Hentry]]]; [cbn; lia|cbn; lia|].
  exists out. split; [exact Hout|].
  rewrite (Hentry 0%nat 0%nat); [reflexivity|cbn; lia|cbn; lia].
Defined.

Lemma trim_idempotent_witness :
  ImageArrays.trim [[1; 2; 3; 4]; [5; 6; 7; 8]; [9; 10; 11; 12]]%Z (2, 2)%Z
  = Ok [[2; 3]; [6; 7]; [10; 11]]%Z
  /\ ImageArrays.trim [[2; 3]; [6; 7]; [10; 11]]%Z (2, 2)%Z
     = Ok [[2; 3]; [6; 7]; [10; 11]]%Z.
Proof.
  assert (H : ImageArrays.trim [[1; 2; 3; 4]; [5; 6; 7; 8]; [9; 10; 11; 12]]%Z
                (2, 2)%Z
              = Ok [[2; 3]; [6; 7]; [10; 11]]%Z) by (vm_compute; reflexivity).
  split; [exact H|].
  apply (@trim_idempotent Z [[1; 2; 3; 4]; [5; 6; 7; 8]; [9; 10; 11; 12]]%Z
           _ 2%Z 2%Z); [repeat constructor|lia|lia|exact H].
Defined.

Lemma pad_uses_both_pads_on_each_axis_witness :
  rectangular [[1; 2]]%Z
  /\ exists out,
       ImageArrays.pad 0%Z [[1; 2]]%Z (1, 4)%Z = Ok out
       /\ ImageArrays.has_shape out 2 3.
Proof.
  assert (Hrect : rectangular [[1; 2]]%Z) by (repeat constructor).
  split; [exact Hrect|].
  destruct (@pad_uses_both_pads_on_each_axis Z 0%Z [[1; 2]]%Z 1 4 Hrect)
    as [out [Hout [Hshape _]]]; [cbn; lia|cbn; lia|].
  exists out. split; [exact Hout|exact Hshape].
Defined.

Lemma pad_then_trim_witness :
  ImageArrays.pad 0%Z [[1; 2]; [3; 4]]%Z (4, 4)%Z
  = Ok [[0; 0; 0; 0]; [0; 1; 2; 0]; [0; 3; 4; 0]; [0; 0; 0; 0]]%Z
  /\ ImageArrays.trim [[0; 0; 0; 0]; [0; 1; 2; 0]; [0; 3; 4; 0]; [0; 0; 0; 0]]%Z
       (shape [[1; 2]; [3; 4]]%Z)
     = Ok [[1; 2]; [3; 4]]%Z.
Proof.
  assert (H : ImageArrays.pad 0%Z [[1; 2]; [3; 4]]%Z (4, 4)%Z
              = Ok [[0; 0; 0; 0]; [0; 1; 2; 0]; [0; 3; 4; 0]; [0; 0; 0; 0]]%Z)
    by (vm_compute; reflexivity).
  split; [exact H|].
  apply (@pad_then_trim Z 0%Z [[1; 2]; [3; 4]]%Z _ 4%Z 4%Z);
    [repeat constructor|reflexivity|exact H].
Defined.

(** ** Image pixel indices: border_pixels and sparse_clustering_pixels *)

Section Select.

Import MaskIndexing.
Local Open Scope Z_scope.

Variable A : Type.
Variable keep : A -> bool.

Lemma select_cons (k : Z) (a : A) (l : list A) :
  select keep k (a :: l)
  = (if keep a then [k] else []) ++ select keep (k + 1) l.
Proof. unfold select. cbn. now destruct (keep a). Qed.

Lemma select_app (k : Z) (l l' : list A) :
  select keep k (l ++ l')
  = select keep k l ++ select keep (k + Z.of_nat (length l)) l'.
Proof.
  revert k. induction l as [|a l IH]; intros k.
  - cbn [app length Z.of_nat]. now rewrite Z.add_0_r.
  - cbn [app]. rewrite !select_cons, IH, <- app_assoc.
    do 3 f_equal. cbn [length]. lia.
Qed.

(** The selected indices are those of the elements that satisfy [keep]. *)
Lemma select_In (k n : Z) (l : list A) :
  In n (select keep k l)
  <-> exists a, k <= n /\ nth_error l (Z.to_nat (n - k)) = Some a
                /\ keep a = true.
Proof.
  revert k. induction l as [|a l IH]; intros k.
  - cbn. split; [tauto|]. intros [a [_ [H _]]].
    now destruct (Z.to_nat (n - k)).
  - rewrite select_cons, in_app_iff, IH. split.
    + intros [H|[b [Hk [Hnth Hb]]]].
      * destruct (keep a) eqn:Ea; [|destruct H].
        destruct H as [<-|[]]. exists a.
        rewrite Z.sub_diag. cbn. repeat split; [lia|assumption].
      * exists b. split; [lia|]. split; [|assumption].
        replace (Z.to_nat (n - k)) with (S (Z.to_nat (n - (k + 1)))) by lia.
        exact Hnth.
    + intros [b [Hk [Hnth Hb]]].
      destruct (Z.eq_dec n k) as [->|Hne].
      * left. rewrite Z.sub_diag in Hnth. cbn in Hnth.
        injection Hnth as ->. rewrite Hb. now left.
      * right. exists b. split; [lia|]. split; [|assumption].
        replace (Z.to_nat (n - k)) with (S (Z.to_nat (n - (k + 1)))) in Hnth
          by lia.
        exact Hnth.
Qed.

Lemma select_lower_bound (k n : Z) (l : list A) :
  In n (select keep k l) -> k <= n.
Proof. intros H. apply select_In in H. destruct H as [a [H _]]. exact H. Qed.

(** ... in increasing order. *)
Lemma select_sorted (k : Z) (l : list A) :
  StronglySorted Z.lt (select keep k l).
Proof.
  revert k. induction l as [|a l IH]; intros k.
  - constructor.
  - rewrite select_cons. destruct (keep a); cbn [app]; [|apply IH].
    constructor; [apply IH|].
    apply Forall_forall. intros n Hn. apply select_lower_bound in Hn. lia.
Qed.

Lemma select_all (k : Z) (l : list A) :
  (forall a, In a l -> keep a = true) ->
  select keep k l = map (fun i => k + Z.of_nat i) (seq 0 (length l)).
Proof.
  revert k. induction l as [|a l IH]; intros k Hall.
  - reflexivity.
  - rewrite select_cons, (Hall a (or_introl eq_refl)), IH
      by (intros b Hb; apply Hall; now right).
    cbn [length seq map app]. f_equal; [lia|].
    rewrite <- seq_shift, map_map. apply map_ext. intros i. lia.
Qed.

End Select.

Section BorderScan.

Import Image MaskIndexing.
Local Open Scope Z_scope.

Variable mask : Mask.
Hypothesis mask_rect : rectangular mask.

Lemma mask_at_getitem (i j : Z) (v : bool) :
  getitem mask i j = Ok v -> mask_at mask (i, j) = v.
Proof. unfold mask_at. cbn [fst snd]. intros ->. now destruct v. Qed.

Lemma mask_at_included (i j : Z) :
  0 <= i < fst (shape mask) -> 0 <= j < snd (shape mask) ->
  mask_at mask (i, j) = true -> included mask i j.
Proof.
  intros Hi Hj H. split; [assumption|]. split; [assumption|].
  unfold mask_at in H. cbn [fst snd] in H.
  destruct (getitem mask i j) as [[|]|]; try discriminate. reflexivity.
Qed.

(** With every neighbour in range, the [or] chain returns whether one of
    them is excluded. *)
Lemma any_zero_value (idx log : list (Z * Z)) :
  Forall (in_bounds mask) idx ->
  exists log',
    any_zero mask idx log
    = Ok (log', existsb (fun q => negb (mask_at mask q)) idx).
Proof.
  revert log. induction idx as [|[a b] idx IH]; intros log Hidx.
  - cbn. eauto.
  - apply Forall_cons_iff in Hidx as [[Ha Hb] Hrest]. cbn [fst snd] in Ha, Hb.
    destruct (getitem_in_bounds mask_rect Ha Hb) as [v Ev].
    cbn [any_zero existsb]. rewrite Ev, (@mask_at_getitem a b v Ev). cbn [bind].
    destruct v; cbn [negb orb]; [apply IH; assumption|eauto].
Qed.

(** The effect of scanning the positions [ps] on the border list and on the
    image pixel index. *)
Let scanned (ps : list (Z * Z)) (st st' : border_state) : Prop :=
  border st'
  = border st ++ select (has_excluded_neighbour mask) (image_pixel_index st)
                   (filter (mask_at mask) ps)
  /\ image_pixel_index st'
     = image_pixel_index st + Z.of_nat (length (filter (mask_at mask) ps)).

Lemma scanned_app (ps qs : list (Z * Z)) (st st1 st2 : border_state) :
  scanned ps st st1 -> scanned qs st1 st2 -> scanned (ps ++ qs) st st2.
Proof.
  intros [B1 I1] [B2 I2]. unfold scanned.
  rewrite filter_app, select_app, length_app, B2, B1, I2, I1, app_assoc.
  split; [reflexivity|lia].
Qed.

Lemma scan_loop (f : Z -> list (Z * Z)) (body : Z -> border_state -> result border_state)
  (l : list Z) :
  (forall x, In x l -> forall st,
     exists st', body x st = Ok st' /\ scanned (f x) st st') ->
  forall st, exists st', for_loop l body st = Ok st' /\ scanned (flat_map f l) st st'.
Proof.
  induction l as [|x l IH]; intros Hbody st.
  - exists st. split; [reflexivity|]. unfold scanned. cbn.
    rewrite app_nil_r. split; [reflexivity|lia].
  - destruct (Hbody x (or_introl eq_refl) st) as [st1 [E1 S1]].
    destruct (IH (fun y Hy => Hbody y (or_intror Hy)) st1) as [st2 [E2 S2]].
    exists st2. cbn [for_loop flat_map]. rewrite E1. cbn [bind].
    split; [exact E2|]. eapply scanned_app; eassumption.
Qed.

Hypothesis mask_edge : no_included_on_edge mask.

Lemma border_pixel_scanned (i j : Z) (st : border_state) :
  0 <= i < fst (shape mask) -> 0 <= j < snd (shape mask) ->
  exists st', border_pixel mask i j st = Ok st' /\ scanned [(i, j)] st st'.
Proof.
  intros Hi Hj. unfold border_pixel.
  destruct (getitem_in_bounds mask_rect Hi Hj) as [v Ev].
  rewrite Ev. cbn [bind]. unfold scanned. cbn [filter].
  rewrite (@mask_at_getitem i j v Ev). destruct v.
  - assert (Hin : included mask i j) by (split; [|split]; assumption).
    pose proof (mask_edge Hin) as Hne. unfold on_edge in Hne.
    destruct (any_zero_value (accesses st ++ [(i, j)])
                (neighbours_in_bounds mask (i := i) (j := j)
                   ltac:(lia) ltac:(lia)))
      as [log' Eany].
    rewrite Eany. cbn [bind fst snd].
    change (existsb (fun q => negb (mask_at mask q)) (neighbours i j))
      with (has_excluded_neighbour mask (i, j)).
    eexists. split; [reflexivity|].
    cbn [border image_pixel_index length]. rewrite select_cons.
    change (select (has_excluded_neighbour mask) (image_pixel_index st + 1) [])
      with (@nil Z).
    split; [|lia].
    destruct (has_excluded_neighbour mask (i, j));
      [reflexivity|now rewrite !app_nil_r].
  - eexists. split; [reflexivity|]. cbn.
    rewrite app_nil_r. split; [reflexivity|lia].
Qed.

Lemma flat_map_singleton (i : Z) (js : list Z) :
  flat_map (fun j => [(i, j)]) js = map (pair i) js.
Proof. induction js as [|j js IH]; cbn; [reflexivity|now rewrite IH]. Qed.

Lemma border_pixels_run_scanned :
  exists st,
    border_pixels_run mask = Ok st
    /\ border st = indices_where mask (has_excluded_neighbour mask)
    /\ image_pixel_index st = Z.of_nat (length (included_pixels mask)).
Proof.
  unfold border_pixels_run.
  destruct (@scan_loop (fun i => map (pair i) (range 0 (snd (shape mask))))
              (fun i => for_loop (range 0 (snd (shape mask)))
                          (fun j => border_pixel mask i j))
              (range 0 (fst (shape mask))))
    with (st := {| accesses := []; border := []; image_pixel_index := 0 |})
    as [st [E [B I]]].
  - intros i Hi st. apply In_range in Hi.
    rewrite <- flat_map_singleton. apply scan_loop.
    intros j Hj st'. apply In_range in Hj. now apply border_pixel_scanned.
  - exists st. split; [exact E|]. cbn in B, I. split; assumption.
Qed.

End BorderScan.

Lemma existsb_map_pair (f : Z * Z -> bool) (i : Z) (js : list Z) :
  existsb f (map (pair i) js) = existsb (fun j => f (i, j)) js.
Proof. induction js as [|j js IH]; cbn; [reflexivity|now rewrite IH]. Qed.

Lemma existsb_flat_map_rows (f : Z * Z -> bool) (g : Z -> list (Z * Z))
  (l : list Z) :
  existsb (fun i => existsb f (g i)) l = existsb f (flat_map g l).
Proof.
  induction l as [|i l IH]; cbn; [reflexivity|].
  now rewrite existsb_app, IH.
Qed.

Section SparseScan.

Import Image Python MaskIndexing.
Local Open Scope Z_scope.

Variable mask : Mask.
Hypothesis mask_rect : rectangular mask.
Variable size : Z.

Let scanned (ps : list (Z * Z)) (st st' : sparse_state) : Prop :=
  sparse st'
  = sparse st ++ select (multiple_of size) (sparse_index st)
                   (filter (mask_at mask) ps)
  /\ sparse_index st'
     = sparse_index st + Z.of_nat (length (filter (mask_at mask) ps)).

Lemma sparse_scanned_app (ps qs : list (Z * Z)) (st st1 st2 : sparse_state) :
  scanned ps st st1 -> scanned qs st1 st2 -> scanned (ps ++ qs) st st2.
Proof.
  intros [B1 I1] [B2 I2]. unfold scanned.
  rewrite filter_app, select_app, length_app, B2, B1, I2, I1, app_assoc.
  split; [reflexivity|lia].
Qed.

Lemma sparse_scan_loop (f : Z -> list (Z * Z))
  (body : Z -> sparse_state -> outcome sparse_state) (l : list Z) :
  (forall x, In x l -> forall st,
     exists st', body x st = Returns st' /\ scanned (f x) st st') ->
  forall st,
    exists st', for_each l body st = Returns st' /\ scanned (flat_map f l) st st'.
Proof.
  induction l as [|x l IH]; intros Hbody st.
  - exists st. split; [reflexivity|]. unfold scanned. cbn.
    rewrite app_nil_r. split; [reflexivity|lia].
  - destruct (Hbody x (or_introl eq_refl) st) as [st1 [E1 S1]].
    destruct (IH (fun y Hy => Hbody y (or_intror Hy)) st1) as [st2 [E2 S2]].
    exists st2. cbn [for_each flat_map]. rewrite E1. cbn [and_then].
    split; [exact E2|]. eapply sparse_scanned_app; eassumption.
Qed.

Lemma on_sparse_grid_value (i j : Z) :
  size <> 0 -> on_sparse_grid i j size = Returns (multiple_of size (i, j)).
Proof.
  intros Hs. unfold on_sparse_grid, py_mod, multiple_of.
  replace (size =? 0) with false by (symmetry; now apply Z.eqb_neq).
  cbn [and_then fst snd]. now destruct (i mod size =? 0).
Qed.

Lemma sparse_pixel_scanned (i j : Z) (st : sparse_state) :
  size <> 0 ->
  0 <= i < fst (shape mask) -> 0 <= j < snd (shape mask) ->
  exists st', sparse_pixel mask size i j st = Returns st'
              /\ scanned [(i, j)] st st'.
Proof.
  intros Hs Hi Hj. unfold sparse_pixel.
  destruct (getitem_in_bounds mask_rect Hi Hj) as [v Ev].
  rewrite Ev. cbn [lift and_then]. unfold scanned. cbn [filter].
  rewrite (@mask_at_getitem mask i j v Ev). destruct v.
  - rewrite (on_sparse_grid_value i j Hs). cbn [and_then].
    eexists. split; [reflexivity|].
    cbn [sparse sparse_index length]. rewrite select_cons.
    change (select (multiple_of size) (sparse_index st + 1) []) with (@nil Z).
    split; [|lia].
    destruct (multiple_of size (i, j)); [reflexivity|now rewrite !app_nil_r].
  - eexists. split; [reflexivity|]. cbn.
    rewrite app_nil_r. split; [reflexivity|lia].
Qed.

Lemma sparse_clustering_pixels_scanned :
  size <> 0 ->
  sparse_clustering_pixels mask size
  = Returns (indices_where mask (multiple_of size)).
Proof.
  intros Hs. unfold sparse_clustering_pixels.
  destruct (@sparse_scan_loop
              (fun i => map (pair i) (range 0 (snd (shape mask))))
              (fun i => for_each (range 0 (snd (shape mask)))
                          (fun j => sparse_pixel mask size i j))
              (range 0 (fst (shape mask))))
    with (st := {| sparse := []; sparse_index := 0 |})
    as [st [E [B I]]].
  - intros i Hi st. apply In_range in Hi.
    rewrite <- flat_map_singleton. apply sparse_scan_loop.
    intros j Hj st'. apply In_range in Hj. now apply sparse_pixel_scanned.
  - rewrite E. cbn [and_then]. f_equal. exact B.
Qed.

(** With a grid size of zero the first included pixel stops the scan. *)
Lemma for_each_raise_or_skip (S : Type) (e : raised) (stops : Z -> bool)
  (body : Z -> S -> outcome S) (l : list Z) (s : S) :
  (forall x, In x l -> stops x = true -> body x s = Raises e) ->
  (forall x, In x l -> stops x = false -> body x s = Returns s) ->
  for_each l body s = if existsb stops l then Raises e else Returns s.
Proof.
  induction l as [|x l IH]; intros Hstop Hskip; [reflexivity|].
  cbn [for_each existsb]. destruct (stops x) eqn:Ex.
  - now rewrite (Hstop x (or_introl eq_refl) Ex).
  - rewrite (Hskip x (or_introl eq_refl) Ex). cbn [and_then orb].
    apply IH; intros y Hy; [apply Hstop|apply Hskip]; now right.
Qed.

Lemma sparse_clustering_pixels_zero :
  sparse_clustering_pixels mask 0
  = if existsb (mask_at mask) (pixels mask) then Raises ZeroDivisionError
    else Returns [].
Proof.
  unfold sparse_clustering_pixels, pixels.
  rewrite (@for_each_raise_or_skip _ ZeroDivisionError
             (fun i => existsb (mask_at mask)
                         (map (pair i) (range 0 (snd (shape mask)))))).
  - rewrite existsb_flat_map_rows. now destruct (existsb _ _).
  - intros i Hi Hstop.
    rewrite (@for_each_raise_or_skip _ ZeroDivisionError
               (fun j => mask_at mask (i, j))).
    + rewrite existsb_map_pair in Hstop. now rewrite Hstop.
    + intros j Hj Hv. apply In_range in Hi, Hj. unfold sparse_pixel.
      destruct (getitem_in_bounds mask_rect Hi Hj) as [v Ev].
      rewrite (@mask_at_getitem mask i j v Ev) in Hv. subst v.
      rewrite Ev. reflexivity.
    + intros j Hj Hv. apply In_range in Hi, Hj. unfold sparse_pixel.
      destruct (getitem_in_bounds mask_rect Hi Hj) as [v Ev].
      rewrite (@mask_at_getitem mask i j v Ev) in Hv. subst v.
      rewrite Ev. reflexivity.
  - intros i Hi Hstop.
    rewrite (@for_each_raise_or_skip _ ZeroDivisionError
               (fun j => mask_at mask (i, j))).
    + rewrite existsb_map_pair in Hstop. now rewrite Hstop.
    + intros j Hj Hv. apply In_range in Hi, Hj. unfold sparse_pixel.
      destruct (getitem_in_bounds mask_rect Hi Hj) as [v Ev].
      rewrite (@mask_at_getitem mask i j v Ev) in Hv. subst v.
      rewrite Ev. reflexivity.
    + intros j Hj Hv. apply In_range in Hi, Hj. unfold sparse_pixel.
      destruct (getitem_in_bounds mask_rect Hi Hj) as [v Ev].
      rewrite (@mask_at_getitem mask i j v Ev) in Hv. subst v.
      rewrite Ev. reflexivity.
Qed.

End SparseScan.

Section IndexProperties.

Import Image Python MaskIndexing.
Local Open Scope Z_scope.

Lemma filter_nil_existsb (A : Type) (f : A -> bool) (l : list A) :
  filter f l = [] <-> existsb f l = false.
Proof.
  induction l as [|a l IH]; cbn; [tauto|].
  destruct (f a); cbn; [split; discriminate|exact IH].
Qed.

(** X5: on a rectangular mask with no included pixel in the first or last
    row or column, border_pixels returns, in increasing order, exactly the
    image pixel indices [k] whose pixel (the [k]-th included pixel of the
    row-major scan) has an excluded pixel among its eight neighbours. *)
Theorem border_pixels_index_the_edge_pixels (mask : Mask) :
  rectangular mask -> no_included_on_edge mask ->
  exists bp,
    border_pixels mask = Ok bp
    /\ StronglySorted Z.lt bp
    /\ forall k,
         In k bp
         <-> exists p,
               0 <= k
               /\ nth_error (included_pixels mask) (Z.to_nat k) = Some p
               /\ has_excluded_neighbour mask p = true.
Proof.
  intros Hrect Hedge.
  destruct (border_pixels_run_scanned Hrect Hedge) as [st [E [B _]]].
  exists (border st). unfold border_pixels. rewrite E. cbn [bind].
  split; [reflexivity|]. rewrite B. unfold indices_where. split.
  - apply select_sorted.
  - intros k. rewrite select_In. rewrite Z.sub_0_r. reflexivity.
Qed.

Lemma border_pixels_index_the_edge_pixels_witness :
  rectangular mask_block_4x4 /\ no_included_on_edge mask_block_4x4
  /\ exists bp,
       border_pixels mask_block_4x4 = Ok bp
       /\ StronglySorted Z.lt bp
       /\ forall k,
            In k bp
            <-> exists p,
                  0 <= k
                  /\ nth_error (included_pixels mask_block_4x4) (Z.to_nat k)
                     = Some p
                  /\ has_excluded_neighbour mask_block_4x4 p = true.
Proof.
  assert (Hrect : rectangular mask_block_4x4) by (repeat constructor).
  assert (Hedge : no_included_on_edge mask_block_4x4).
  { intros i j [Hi [Hj Hget]] Hon. unfold on_edge in Hon.
    change (fst (shape mask_block_4x4)) with 4 in Hi, Hon.
    change (snd (shape mask_block_4x4)) with 4 in Hj, Hon.
    assert (Ei : i = 0 \/ i = 1 \/ i = 2 \/ i = 3) by lia.
    assert (Ej : j = 0 \/ j = 1 \/ j = 2 \/ j = 3) by lia.
    destruct Ei as [-> | [-> | [-> | ->]]]; destruct Ej as [-> | [-> | [-> | ->]]];
      vm_compute in Hget; try discriminate Hget; lia. }
  split; [exact Hrect|]. split; [exact Hedge|].
  exact (border_pixels_index_the_edge_pixels Hrect Hedge).
Defined.

(** X6: on a rectangular mask and for a grid size other than zero,
    sparse_clustering_pixels returns, in increasing order, exactly the image
    pixel indices whose pixel has a row and a column that are both multiples
    of the grid size. *)
Theorem sparse_clustering_pixels_index_the_grid_pixels (mask : Mask) (size : Z) :
  rectangular mask -> size <> 0 ->
  exists sp,
    sparse_clustering_pixels mask size = Returns sp
    /\ StronglySorted Z.lt sp
    /\ forall k,
         In k sp
         <-> exists p,
               0 <= k
               /\ nth_error (included_pixels mask) (Z.to_nat k) = Some p
               /\ fst p mod size = 0 /\ snd p mod size = 0.
Proof.
  intros Hrect Hs. eexists.
  split; [now apply sparse_clustering_pixels_scanned|].
  unfold indices_where. split; [apply select_sorted|].
  intros k. rewrite select_In. rewrite Z.sub_0_r.
  split; intros [p [Hk [Hnth Hp]]]; exists p; (split; [exact Hk|]);
    (split; [exact Hnth|]).
  - unfold multiple_of in Hp. apply andb_true_iff in Hp as [H0 H1].
    now apply Z.eqb_eq in H0, H1.
  - unfold multiple_of. destruct Hp as [H0 H1].
    apply andb_true_iff. now rewrite !Z.eqb_eq.
Qed.

Lemma sparse_clustering_pixels_index_the_grid_pixels_witness :
  rectangular mask_block_4x4 /\ 2 <> 0
  /\ exists sp,
       sparse_clustering_pixels mask_block_4x4 2 = Returns sp
       /\ StronglySorted Z.lt sp
       /\ forall k,
            In k sp
            <-> exists p,
                  0 <= k
                  /\ nth_error (included_pixels mask_block_4x4) (Z.to_nat k)
                     = Some p
                  /\ fst p mod 2 = 0 /\ snd p mod 2 = 0.
Proof.
  assert (Hrect : rectangular mask_block_4x4) by (repeat constructor).
  split; [exact Hrect|]. split; [lia|].
  apply (sparse_clustering_pixels_index_the_grid_pixels Hrect). lia.
Defined.

(** X7: with a grid size of 1 every included pixel is a sparse pixel:
    sparse_clustering_pixels returns all the image pixel indices
    [0, 1, ..., n - 1], [n] being the number of included pixels. *)
Theorem sparse_clustering_pixels_size_one (mask : Mask) :
  rectangular mask ->
  sparse_clustering_pixels mask 1
  = Returns (map Z.of_nat (seq 0 (length (included_pixels mask)))).
Proof.
  intros Hrect. rewrite sparse_clustering_pixels_scanned by (assumption || lia).
  f_equal. unfold indices_where. rewrite select_all.
  - apply map_ext. intros i. lia.
  - intros p _. unfold multiple_of. now rewrite !Z.mod_1_r.
Qed.

Lemma sparse_clustering_pixels_size_one_witness :
  rectangular mask_block_4x4
  /\ sparse_clustering_pixels mask_block_4x4 1
     = Returns (map Z.of_nat (seq 0 (length (included_pixels mask_block_4x4)))).
Proof.
  assert (Hrect : rectangular mask_block_4x4) by (repeat constructor).
  split; [exact Hrect|]. exact (sparse_clustering_pixels_size_one Hrect).
Defined.

(** X8: with a grid size of 0, sparse_clustering_pixels raises
    ZeroDivisionError as soon as the mask has an included pixel, and returns
    the empty list when it has none. *)
Theorem sparse_clustering_pixels_size_zero (mask : Mask) :
  rectangular mask ->
  (included_pixels mask = [] -> sparse_clustering_pixels mask 0 = Returns [])
  /\ (included_pixels mask <> [] ->
      sparse_clustering_pixels mask 0 = Raises ZeroDivisionError).
Proof.
  intros Hrect. rewrite (sparse_clustering_pixels_zero Hrect).
  unfold included_pixels. split; intros H.
  - apply filter_nil_existsb in H. now rewrite H.
  - destruct (existsb (mask_at mask) (pixels mask)) eqn:E; [reflexivity|].
    apply filter_nil_existsb in E. contradiction.
Qed.

Lemma sparse_clustering_pixels_size_zero_witness :
  rectangular mask_block_4x4
  /\ included_pixels mask_block_4x4 <> []
  /\ sparse_clustering_pixels mask_block_4x4 0 = Raises ZeroDivisionError.
Proof.
  assert (Hrect : rectangular mask_block_4x4) by (repeat constructor).
  assert (Hne : included_pixels mask_block_4x4 <> [])
    by (vm_compute; discriminate).
  split; [exact Hrect|]. split; [exact Hne|].
  apply (sparse_clustering_pixels_size_zero Hrect). exact Hne.
Defined.

End IndexProperties.

(** ** Mask.blurring_region: what the result marks *)

Section SetItem.

Import Image.
Local Open Scope Z_scope.

Variable A : Type.

Lemma nth_error_set_nth (l : list A) (n m : nat) (v : A) :
  nth_error (set_nth l n v) m
  = if (n =? m)%nat then option_map (fun _ => v) (nth_error l n)
    else nth_error l m.
Proof.
  revert n m. induction l as [|h t IH]; intros [|n] [|m]; cbn; try reflexivity.
  - now destruct (n =? m)%nat.
  - apply IH.
Qed.

End SetItem.

Section BlurringMarks.

Import Image.
Local Open Scope Z_scope.

Variable mask : Mask.
Hypothesis mask_square : square mask.

Let mask_rect : rectangular mask := proj1 mask_square.

(** Reading back after [br[a, b] = v]. *)
Lemma getitem_setitem (br br' : ndarray2 bool) (a b a' b' : Z) (v : bool) :
  same_shape mask br ->
  in_bounds mask (a, b) -> in_bounds mask (a', b') ->
  setitem br a b v = Ok br' ->
  getitem br' a' b' = if (a =? a') && (b =? b') then Ok v else getitem br a' b'.
Proof.
  intros Hbr [Ha Hb] [Ha' Hb'] Hset. cbn [fst snd] in *.
  pose proof (same_shape_shape mask_square Hbr) as Hsh.
  destruct (setitem_same_shape mask_square v Hbr Ha Hb) as [br2 [E2 Hbr2]].
  rewrite Hset in E2. injection E2 as <-.
  pose proof (same_shape_shape mask_square Hbr2) as Hsh2.
  unfold setitem in Hset. rewrite Hsh in Hset.
  rewrite (norm_index_in Ha), (norm_index_in Hb) in Hset.
  destruct (nth_error br (Z.to_nat a)) as [row|] eqn:Erow; [|discriminate].
  destruct (Z.to_nat b <? length row)%nat eqn:Eb; [|discriminate].
  injection Hset as <-. apply Nat.ltb_lt in Eb.
  unfold getitem. rewrite Hsh2, Hsh.
  rewrite (norm_index_in Ha'), (norm_index_in Hb').
  rewrite nth_error_set_nth, Erow. cbn [option_map].
  destruct (Z.eqb_spec a a') as [<-|Hne].
  - rewrite Nat.eqb_refl. cbn [andb].
    rewrite nth_error_set_nth.
    destruct (Z.eqb_spec b b') as [<-|Hne'].
    + rewrite Nat.eqb_refl.
      destruct (nth_error row (Z.to_nat b)) eqn:E; [reflexivity|].
      apply nth_error_None in E. lia.
    + replace (Z.to_nat b =? Z.to_nat b')%nat with false
        by (symmetry; apply Nat.eqb_neq; lia).
      now rewrite Erow.
  - replace (Z.to_nat a =? Z.to_nat a')%nat with false
      by (symmetry; apply Nat.eqb_neq; lia).
    reflexivity.
Qed.

Lemma getitem_zeros (a b : Z) :
  in_bounds mask (a, b) -> getitem (zeros (shape mask)) a b = Ok false.
Proof.
  intros [Ha Hb]. cbn [fst snd] in *.
  pose proof (same_shape_shape mask_square (same_shape_zeros mask)) as Hsh.
  unfold getitem. rewrite Hsh, (norm_index_in Ha), (norm_index_in Hb).
  unfold zeros. rewrite nth_error_repeat by lia.
  rewrite nth_error_repeat by lia.
  reflexivity.
Qed.

(** A set of loop positions [(i, j, i1, j1)]. *)
Let cells : Type := Z -> Z -> Z -> Z -> Prop.

Let cup (c c' : cells) : cells := fun i j i1 j1 => c i j i1 j1 \/ c' i j i1 j1.

Let big (l : list Z) (unit : Z -> cells) : cells :=
  fun i j i1 j1 => exists x, In x l /\ unit x i j i1 j1.

(** [br] has the shape of the mask and is True exactly at the excluded
    positions [[j + j1, i + i1]] of the loop positions in [c]. *)
Let marks (c : cells) (br : ndarray2 bool) : Prop :=
  same_shape mask br
  /\ forall a b, in_bounds mask (a, b) ->
       (getitem br a b = Ok true
        <-> exists i j i1 j1,
              c i j i1 j1 /\ a = j + j1 /\ b = i + i1
              /\ getitem mask a b = Ok false).

Lemma marks_ext (c c' : cells) (br : ndarray2 bool) :
  (forall i j i1 j1, c i j i1 j1 <-> c' i j i1 j1) -> marks c br -> marks c' br.
Proof.
  intros Hext [Hshape Hm]. split; [exact Hshape|].
  intros a b Hab. rewrite (Hm a b Hab).
  split; intros [i [j [i1 [j1 [Hc H]]]]]; exists i, j, i1, j1;
    (split; [now apply Hext|exact H]).
Qed.

Lemma loop_marks (unit : Z -> cells)
  (body : Z -> ndarray2 bool -> result (ndarray2 bool)) (l : list Z) :
  (forall x, In x l -> forall c br, marks c br ->
     exists br', body x br = Ok br' /\ marks (cup c (unit x)) br') ->
  forall c br, marks c br ->
    exists br', for_loop l body br = Ok br' /\ marks (cup c (big l unit)) br'.
Proof.
  induction l as [|x l IH]; intros Hbody c br Hm.
  - exists br. split; [reflexivity|]. eapply marks_ext; [|exact Hm].
    intros i j i1 j1. unfold cup, big. split; [now left|].
    intros [H|[y [[] _]]]. exact H.
  - destruct (Hbody x (or_introl eq_refl) c br Hm) as [br1 [E1 M1]].
    destruct (IH (fun y Hy => Hbody y (or_intror Hy)) _ br1 M1) as [br2 [E2 M2]].
    exists br2. cbn [for_loop]. rewrite E1. cbn [bind].
    split; [exact E2|]. eapply marks_ext; [|exact M2].
    intros i j i1 j1. unfold cup, big. cbn [In]. split.
    + intros [[H|H]|[y [Hy H]]]; [now left|right; exists x; auto|].
      right. exists y. auto.
    + intros [H|[y [[<-|Hy] H]]]; [now left; left|now left; right|].
      right. exists y. auto.
Qed.

Lemma cell_marks (i j i1 j1 : Z) (c : cells) (br : ndarray2 bool) :
  marks c br -> in_bounds mask (i + i1, j + j1) ->
  exists br',
    blurring_cell mask (shape mask) i j i1 j1 br = Ok br'
    /\ marks (cup c (fun i' j' i1' j1' => i' = i /\ j' = j /\ i1' = i1 /\ j1' = j1))
             br'.
Proof.
  intros [Hshape Hm] [Hi Hj]. cbn [fst snd] in Hi, Hj.
  pose proof (square_shape mask_square) as Hsq.
  assert (Hpos : in_bounds mask (j + j1, i + i1))
    by (unfold in_bounds; cbn [fst snd]; lia).
  unfold blurring_cell.
  replace ((0 <=? i + i1) && (i + i1 <=? fst (shape mask) - 1)
           && (0 <=? j + j1) && (j + j1 <=? fst (shape mask) - 1))
    with true
    by (symmetry; rewrite !andb_true_iff, !Z.leb_le; lia).
  destruct Hpos as [Ha Hb]. cbn [fst snd] in Ha, Hb.
  destruct (getitem_in_bounds mask_rect Ha Hb) as [v Ev].
  rewrite Ev. cbn [bind]. destruct v; cbn [negb].
  - exists br. split; [reflexivity|]. split; [exact Hshape|].
    intros a b Hab. rewrite (Hm a b Hab). unfold cup. split.
    + intros [i' [j' [i1' [j1' [Hc H]]]]]. exists i', j', i1', j1'. auto.
    + intros [i' [j' [i1' [j1' [[Hc|[-> [-> [-> ->]]]] [Ea [Eb Hf]]]]]]].
      * exists i', j', i1', j1'. auto.
      * subst a b. rewrite Ev in Hf. discriminate.
  - destruct (setitem_same_shape mask_square true Hshape Ha Hb) as [br' [Eset Hshape']].
    exists br'. split; [exact Eset|]. split; [exact Hshape'|].
    intros a b Hab.
    rewrite (@getitem_setitem br br' (j + j1) (i + i1) a b true Hshape
               (conj Ha Hb) Hab Eset).
    unfold cup. destruct (Z.eqb_spec (j + j1) a) as [Eja|Nja];
      [destruct (Z.eqb_spec (i + i1) b) as [Eib|Nib]|]; cbn [andb].
    + split; [intros _|reflexivity].
      exists i, j, i1, j1. subst a b. auto 10.
    + rewrite (Hm a b Hab). split.
      * intros [i' [j' [i1' [j1' [Hc H]]]]]. exists i', j', i1', j1'. auto.
      * intros [i' [j' [i1' [j1' [[Hc|[-> [-> [-> ->]]]] [Ea' [Eb' Hf]]]]]]];
          [exists i', j', i1', j1'; auto|lia].
    + rewrite (Hm a b Hab). split.
      * intros [i' [j' [i1' [j1' [Hc H]]]]]. exists i', j', i1', j1'. auto.
      * intros [i' [j' [i1' [j1' [[Hc|[-> [-> [-> ->]]]] [Ea' [Eb' Hf]]]]]]];
          [exists i', j', i1', j1'; auto|lia].
Qed.

Variable size : Z * Z.
Hypothesis size_odd_0 : fst size mod 2 = 1.
Hypothesis size_odd_1 : snd size mod 2 = 1.
Hypothesis no_outside : forall i j, included mask i j -> ~ box_outside mask size i j.

Let l0 := range ((- fst size + 1) / 2) ((fst size + 1) / 2).
Let l1 := range ((- snd size + 1) / 2) ((snd size + 1) / 2).

Lemma In_offsets (i1 j1 : Z) :
  (In i1 l0 <-> - half (fst size) <= i1 <= half (fst size))
  /\ (In j1 l1 <-> - half (snd size) <= j1 <= half (snd size)).
Proof.
  destruct (odd_range (fst size) size_odd_0) as [Elo0 Ehi0].
  destruct (odd_range (snd size) size_odd_1) as [Elo1 Ehi1].
  unfold l0, l1. rewrite !In_range. lia.
Qed.

Lemma box_in_bounds (i j i1 j1 : Z) :
  included mask i j -> In i1 l0 -> In j1 l1 ->
  in_bounds mask (i + i1, j + j1).
Proof.
  intros Hin H0 H1. destruct (In_offsets i1 j1) as [O0 O1].
  apply O0 in H0. apply O1 in H1.
  assert (Hdec : in_bounds mask (i + i1, j + j1)
                 \/ ~ in_bounds mask (i + i1, j + j1))
    by (unfold in_bounds; cbn [fst snd]; lia).
  destruct Hdec as [H|H]; [exact H|].
  exfalso. apply (no_outside Hin). exists (i + i1), (j + j1).
  split; [|exact H]. unfold in_box. lia.
Qed.

(** The positions visited for pixel [(i, j)]. *)
Let unit_pixel (i j : Z) : cells :=
  fun i' j' i1' j1' =>
    i' = i /\ j' = j /\ getitem mask i j = Ok true /\ In i1' l0 /\ In j1' l1.

Lemma pixel_marks (i j : Z) (c : cells) (br : ndarray2 bool) :
  0 <= i < fst (shape mask) -> 0 <= j < snd (shape mask) ->
  marks c br ->
  exists br',
    blurring_pixel mask (shape mask) size i j br = Ok br'
    /\ marks (cup c (unit_pixel i j)) br'.
Proof.
  intros Hi Hj Hm. unfold blurring_pixel.
  destruct (getitem_in_bounds mask_rect Hi Hj) as [v Ev].
  rewrite Ev. cbn [bind]. destruct v.
  - assert (Hin : included mask i j) by (split; [|split]; assumption).
    fold l0 l1.
    destruct (@loop_marks
                (fun i1 => big l1 (fun j1 i' j' i1' j1' =>
                                     i' = i /\ j' = j /\ i1' = i1 /\ j1' = j1))
                (fun i1 => for_loop l1 (fun j1 => blurring_cell mask (shape mask) i j i1 j1))
                l0)
      with (c := c) (br := br) as [br' [E M]]; [|exact Hm|].
    + intros i1 Hi1 c' br1 Hm1. apply loop_marks; [|exact Hm1].
      intros j1 Hj1 c2 br2 Hm2. apply cell_marks; [exact Hm2|].
      now apply box_in_bounds.
    + exists br'. split; [exact E|]. eapply marks_ext; [|exact M].
      intros i' j' i1' j1'. unfold cup, big, unit_pixel. split.
      * intros [H|[i1 [Hi1 [j1 [Hj1 [-> [-> [-> ->]]]]]]]]; [now left|].
        right. auto.
      * intros [H|[-> [-> [_ [Hi1 Hj1]]]]]; [now left|].
        right. exists i1'. split; [exact Hi1|]. exists j1'. auto.
  - exists br. split; [reflexivity|]. eapply marks_ext; [|exact Hm].
    intros i' j' i1' j1'. unfold cup, unit_pixel. split; [now left|].
    intros [H|[_ [_ [H _]]]]; [exact H|]. rewrite Ev in H. discriminate.
Qed.

(** What the returned array marks. *)
Lemma blurring_region_marks :
  exists br,
    blurring_region mask size = Ok br
    /\ same_shape mask br
    /\ forall a b, in_bounds mask (a, b) ->
         (getitem br a b = Ok true
          <-> getitem mask a b = Ok false
              /\ exists i j, included mask i j /\ in_box size i j b a).
Proof.
  unfold blurring_region. rewrite size_odd_0, size_odd_1. cbn [Z.eqb orb].
  destruct (@loop_marks
              (fun i => big (range 0 (snd (shape mask))) (unit_pixel i))
              (fun i => for_loop (range 0 (snd (shape mask)))
                          (fun j => blurring_pixel mask (shape mask) size i j))
              (range 0 (fst (shape mask))))
    with (c := fun (_ _ _ _ : Z) => False) (br := zeros (shape mask))
    as [br [E [Hshape M]]].
  - intros i Hi c br1 Hm1. apply In_range in Hi.
    apply loop_marks; [|exact Hm1].
    intros j Hj c2 br2 Hm2. apply In_range in Hj. now apply pixel_marks.
  - split; [apply same_shape_zeros|]. intros a b Hab.
    rewrite (getitem_zeros Hab). split; [discriminate|].
    intros [i [j [i1 [j1 [[] _]]]]].
  - exists br. split; [exact E|]. split; [exact Hshape|].
    intros a b Hab. rewrite (M a b Hab). unfold cup, big, unit_pixel. split.
    + intros [i' [j' [i1 [j1 [[[]|[i [Hi [j [Hj [-> [-> [Hget [H0 H1]]]]]]]]]
                                [-> [-> Hf]]]]]]].
      apply In_range in Hi, Hj. destruct (In_offsets i1 j1) as [O0 O1].
      apply O0 in H0. apply O1 in H1.
      split; [exact Hf|]. exists i, j. split.
      * split; [lia|]. split; [lia|exact Hget].
      * unfold in_box. lia.
    + intros [Hf [i [j [[Hi [Hj Hget]] [B0 B1]]]]].
      destruct (In_offsets (b - i) (a - j)) as [O0 O1].
      exists i, j, (b - i), (a - j). split.
      * right. exists i. split; [apply In_range; lia|].
        exists j. split; [apply In_range; lia|].
        repeat split; try assumption; [now apply O0|now apply O1].
      * repeat split; try lia. exact Hf.
Qed.

End BlurringMarks.

Section BlurringProperties.

Import Image.
Local Open Scope Z_scope.

(** X9: for a square mask and an odd kernel none of whose boxes leaves the
    array, blurring_region returns an array of the mask's shape that is True
    exactly at the excluded positions [(a, b)] for which some included pixel
    [(i, j)] has [(b, a)], the transposed position, in its box. *)
Theorem blurring_region_marks_transposed_boxes (mask : Mask) (size : Z * Z) :
  square mask -> fst size mod 2 = 1 -> snd size mod 2 = 1 ->
  (forall i j, included mask i j -> ~ box_outside mask size i j) ->
  exists br,
    blurring_region mask size = Ok br
    /\ same_shape mask br
    /\ forall a b, in_bounds mask (a, b) ->
         (getitem br a b = Ok true
          <-> getitem mask a b = Ok false
              /\ exists i j, included mask i j /\ in_box size i j b a).
Proof. intros Hsq H0 H1 Hin. now apply blurring_region_marks. Qed.

(** X10: for a square mask and an odd kernel, blurring_region returns an
    array exactly when no included pixel has a box that leaves the array. *)
Theorem blurring_region_returns_iff_boxes_inside (mask : Mask) (size : Z * Z) :
  square mask -> fst size mod 2 = 1 -> snd size mod 2 = 1 ->
  ((exists br, blurring_region mask size = Ok br)
   <-> forall i j, included mask i j -> ~ box_outside mask size i j).
Proof.
  intros Hsq H0 H1. split.
  - intros [br E] i j Hin Hout.
    rewrite (@blurring_region_outside mask Hsq size H0 H1) in E; [discriminate|].
    exists i, j. auto.
  - intros Hin. destruct (blurring_region_marks Hsq H0 H1 Hin) as [br [E _]].
    exists br. exact E.
Qed.

(** X11: for a square mask equal to its transpose and a square odd kernel
    none of whose boxes leaves the array, blurring_region computes the
    blurring region of its documentation: the excluded pixels inside the box
    of some included pixel. *)
Theorem blurring_region_correct_on_symmetric_masks (mask : Mask) (size : Z * Z) :
  square mask -> fst size mod 2 = 1 -> snd size = fst size ->
  (forall a b, getitem mask a b = getitem mask b a) ->
  (forall i j, included mask i j -> ~ box_outside mask size i j) ->
  exists br,
    blurring_region mask size = Ok br
    /\ forall a b, in_bounds mask (a, b) ->
         (getitem br a b = Ok true <-> in_blurring_region mask size a b).
Proof.
  intros Hsq H0 Hk Hsym Hin.
  assert (H1 : snd size mod 2 = 1) by now rewrite Hk.
  destruct (blurring_region_marks Hsq H0 H1 Hin) as [br [E [_ M]]].
  exists br. split; [exact E|]. intros a b Hab. rewrite (M a b Hab).
  pose proof (square_shape Hsq) as Hn. unfold in_blurring_region. split.
  - intros [Hf [i [j [[Hi [Hj Hget]] [B0 B1]]]]].
    split; [exact Hf|]. split; [exact Hab|]. exists j, i. split.
    + split; [lia|]. split; [lia|]. now rewrite Hsym.
    + unfold in_box. rewrite Hk in *. lia.
  - intros [Hf [_ [i [j [[Hi [Hj Hget]] [B0 B1]]]]]].
    split; [exact Hf|]. exists j, i. split.
    + split; [lia|]. split; [lia|]. now rewrite Hsym.
    + unfold in_box. rewrite Hk in *. lia.
Qed.

Lemma norm_index_none (n k : Z) : k < - n \/ n <= k -> 0 <= n -> norm_index n k = None.
Proof.
  intros Hk Hn. unfold norm_index.
  destruct (Z.leb_spec 0 k), (Z.ltb_spec k n), (Z.leb_spec (- n) k),
    (Z.ltb_spec k 0); cbn [andb]; try reflexivity; lia.
Qed.

Lemma getitem_out_of_range {A} (a : ndarray2 A) (i j : Z) :
  norm_index (fst (shape a)) i = None \/ norm_index (snd (shape a)) j = None ->
  getitem a i j = Raise IndexError.
Proof.
  intros [E|E]; unfold getitem; rewrite E; [reflexivity|].
  now destruct (norm_index (fst (shape a)) i).
Qed.

Lemma mask_block_4x4_facts :
  square mask_block_4x4
  /\ (forall a b, getitem mask_block_4x4 a b = getitem mask_block_4x4 b a)
  /\ (forall i j, included mask_block_4x4 i j ->
        ~ box_outside mask_block_4x4 (3, 3) i j).
Proof.
  split; [split; [repeat constructor|reflexivity]|]. split.
  - intros a b.
    destruct (Z_lt_le_dec a (-4)) as [Ha|Ha];
      [rewrite !getitem_out_of_range; [reflexivity| |];
       [right|left]; apply norm_index_none; cbn; lia|].
    destruct (Z_lt_le_dec 3 a) as [Ha'|Ha'];
      [rewrite !getitem_out_of_range; [reflexivity| |];
       [right|left]; apply norm_index_none; cbn; lia|].
    destruct (Z_lt_le_dec b (-4)) as [Hb|Hb];
      [rewrite !getitem_out_of_range; [reflexivity| |];
       [left|right]; apply norm_index_none; cbn; lia|].
    destruct (Z_lt_le_dec 3 b) as [Hb'|Hb'];
      [rewrite !getitem_out_of_range; [reflexivity| |];
       [left|right]; apply norm_index_none; cbn; lia|].
    assert (Ea : a = -4 \/ a = -3 \/ a = -2 \/ a = -1 \/ a = 0 \/ a = 1
                 \/ a = 2 \/ a = 3) by lia.
    assert (Eb : b = -4 \/ b = -3 \/ b = -2 \/ b = -1 \/ b = 0 \/ b = 1
                 \/ b = 2 \/ b = 3) by lia.
    destruct Ea as [-> | [-> | [-> | [-> | [-> | [-> | [-> | ->]]]]]]];
      destruct Eb as [-> | [-> | [-> | [-> | [-> | [-> | [-> | ->]]]]]]];
      reflexivity.
  - intros i j [Hi [Hj Hget]] [a [b [[B0 B1] Hout]]].
    change (fst (shape mask_block_4x4)) with 4 in Hi.
    change (snd (shape mask_block_4x4)) with 4 in Hj.
    unfold half in B0, B1. cbn [fst snd] in B0, B1.
    change ((3 - 1) / 2) with 1 in B0, B1.
    apply Hout. unfold in_bounds. cbn [fst snd].
    change (fst (shape mask_block_4x4)) with 4.
    change (snd (shape mask_block_4x4)) with 4.
    assert (Ei : i = 0 \/ i = 1 \/ i = 2 \/ i = 3) by lia.
    assert (Ej : j = 0 \/ j = 1 \/ j = 2 \/ j = 3) by lia.
    destruct Ei as [-> | [-> | [-> | ->]]]; destruct Ej as [-> | [-> | [-> | ->]]];
      vm_compute in Hget; try discriminate Hget; lia.
Qed.

End BlurringProperties.

Lemma blurring_region_marks_transposed_boxes_witness :
  square Image.mask_block_4x4 /\ (3 mod 2 = 1)%Z
  /\ exists br,
       Image.blurring_region Image.mask_block_4x4 (3, 3)%Z = Numpy.Ok br
       /\ Image.same_shape Image.mask_block_4x4 br
       /\ forall a b, Image.in_bounds Image.mask_block_4x4 (a, b) ->
            (Numpy.getitem br a b = Numpy.Ok true
             <-> Numpy.getitem Image.mask_block_4x4 a b = Numpy.Ok false
                 /\ exists i j, Image.included Image.mask_block_4x4 i j
                                /\ Image.in_box (3, 3)%Z i j b a).
Proof.
  destruct mask_block_4x4_facts as [Hsq [_ Hin]].
  split; [exact Hsq|]. split; [reflexivity|].
  apply (@blurring_region_marks_transposed_boxes Image.mask_block_4x4 (3, 3)%Z);
    [exact Hsq|reflexivity|reflexivity|exact Hin].
Defined.

Lemma blurring_region_returns_iff_boxes_inside_witness :
  square Image.mask_block_4x4 /\ (3 mod 2 = 1)%Z
  /\ ((exists br, Image.blurring_region Image.mask_block_4x4 (3, 3)%Z = Numpy.Ok br)
      <-> forall i j, Image.included Image.mask_block_4x4 i j ->
            ~ Image.box_outside Image.mask_block_4x4 (3, 3)%Z i j).
Proof.
  destruct mask_block_4x4_facts as [Hsq _].
  split; [exact Hsq|]. split; [reflexivity|].
  apply (@blurring_region_returns_iff_boxes_inside Image.mask_block_4x4 (3, 3)%Z);
    [exact Hsq|reflexivity|reflexivity].
Defined.

Lemma blurring_region_correct_on_symmetric_masks_witness :
  square Image.mask_block_4x4 /\ (3 mod 2 = 1)%Z
  /\ exists br,
       Image.blurring_region Image.mask_block_4x4 (3, 3)%Z = Numpy.Ok br
       /\ forall a b, Image.in_bounds Image.mask_block_4x4 (a, b) ->
            (Numpy.getitem br a b = Numpy.Ok true
             <-> Image.in_blurring_region Image.mask_block_4x4 (3, 3)%Z a b).
Proof.
  destruct mask_block_4x4_facts as [Hsq [Hsym Hin]].
  split; [exact Hsq|]. split; [reflexivity|].
  apply (@blurring_region_correct_on_symmetric_masks Image.mask_block_4x4 (3, 3)%Z);
    [exact Hsq|reflexivity|reflexivity|exact Hsym|exact Hin].
Defined.

(** ** The position fit *)

Section Maxima.

Local Open Scope R_scope.

Lemma fold_left_Rmax (t : list R) (x : R) :
  (fold_left Rmax t x = x \/ In (fold_left Rmax t x) t)
  /\ x <= fold_left Rmax t x
  /\ forall y, In y t -> y <= fold_left Rmax t x.
Proof.
  revert x. induction t as [|h t IH]; intros x; cbn [fold_left].
  - split; [now left|]. split; [lra|]. intros y [].
  - destruct (IH (Rmax x h)) as [Hin [Hle Hall]].
    pose proof (Rmax_l x h). pose proof (Rmax_r x h).
    split; [|split].
    + destruct Hin as [E|Hin]; [|right; now right].
      rewrite E. unfold Rmax. destruct (Rle_dec x h); [right; now left|now left].
    + lra.
    + intros y [<-|Hy]; [lra|auto].
Qed.

Lemma np_max_spec (l : list R) :
  l <> [] ->
  exists m, Fit.np_max l = Ok m /\ In m l /\ forall x, In x l -> x <= m.
Proof.
  destruct l as [|x t]; [congruence|]. intros _.
  destruct (fold_left_Rmax t x) as [Hin [Hle Hall]].
  exists (fold_left Rmax t x). split; [reflexivity|]. split.
  - destruct Hin as [->|Hin]; [now left|now right].
  - intros y [<-|Hy]; auto.
Qed.

Lemma fold_left_Rplus (l : list R) (a : R) :
  fold_left Rplus l a = a + Grids.rsum l.
Proof.
  revert a. induction l as [|h t IH]; intros a; cbn [fold_left Grids.rsum fold_right].
  - lra.
  - rewrite IH. unfold Grids.rsum. lra.
Qed.

Lemma rsum_nonneg (l : list R) :
  Forall (fun x => 0 <= x) l ->
  0 <= Grids.rsum l /\ (Grids.rsum l = 0 <-> Forall (fun x => x = 0) l).
Proof.
  induction 1 as [|h t Hh Ht [IH0 IH1]]; cbn [Grids.rsum fold_right].
  - split; [lra|]. split; auto.
  - fold (Grids.rsum t). split; [lra|]. split.
    + intros E. constructor; [lra|]. apply IH1. lra.
    + intros Hz. apply Forall_cons_iff in Hz as [-> Hz].
      apply IH1 in Hz. lra.
Qed.

End Maxima.

Section FillLoop.

Local Open Scope Z_scope.

Variable A : Type.
Variable P : Z -> A -> Prop.
Variable n : nat.
Variable body : Z -> list A -> result (list A).

Hypothesis body_sets : forall x s,
  0 <= x < Z.of_nat n -> length s = n ->
  exists v, body x s = Ok (set_nth s (Z.to_nat x) v) /\ P x v.

(** A loop that assigns entry [x] of an array at iteration [x] leaves the
    assigned value in every visited entry and the other entries alone. *)
Lemma fill_loop (l : list Z) (s : list A) :
  (forall x, In x l -> 0 <= x < Z.of_nat n) -> length s = n ->
  exists s', for_loop l body s = Ok s' /\ length s' = n
    /\ forall k, (k < n)%nat ->
         (In (Z.of_nat k) l -> exists v, nth_error s' k = Some v /\ P (Z.of_nat k) v)
         /\ (~ In (Z.of_nat k) l -> nth_error s' k = nth_error s k).
Proof.
  revert s. induction l as [|x l IH]; intros s Hl Hs; cbn [for_loop].
  - exists s. split; [reflexivity|]. split; [exact Hs|].
    intros k Hk. split; [intros []|reflexivity].
  - assert (Hx : 0 <= x < Z.of_nat n) by (apply Hl; now left).
    destruct (body_sets s Hx Hs) as [v [E Hv]]. rewrite E. cbn [bind].
    destruct (IH (set_nth s (Z.to_nat x) v)) as [s' [E' [Hlen Hk]]].
    { intros y Hy. apply Hl. now right. }
    { now rewrite set_nth_length. }
    exists s'. split; [exact E'|]. split; [exact Hlen|].
    intros k Hkn. destruct (Hk k Hkn) as [Hin Hout].
    destruct (in_dec Z.eq_dec (Z.of_nat k) l) as [Hkl|Hkl].
    + split; [intros _; auto|]. intros Hno. exfalso. apply Hno. now right.
    + rewrite (Hout Hkl), nth_error_set_nth. split.
      * intros [Ex|Hin']; [|contradiction]. subst x.
        rewrite Nat2Z.id, Nat.eqb_refl.
        destruct (nth_error s k) as [w|] eqn:Ew.
        -- exists v. auto.
        -- apply nth_error_None in Ew. lia.
      * intros Hno.
        destruct (Nat.eqb_spec (Z.to_nat x) k) as [Ek|Ek]; [|reflexivity].
        exfalso. apply Hno. left. lia.
Qed.

End FillLoop.

Section PositionsFitLemmas.

Import Grids Fit.
Local Open Scope R_scope.

Let dist2 (p q : Coord) : R := Rsqr (fst p - fst q) + Rsqr (snd p - snd q).

Lemma map2_map_map {A} (f g : A -> R) (l : list A) :
  map2 Rplus (map f l) (map g l) = map (fun q => f q + g q) l.
Proof. induction l as [|h t IH]; cbn; [reflexivity|now rewrite IH]. Qed.

Lemma dist2_nonneg (p q : Coord) : 0 <= dist2 p q.
Proof.
  unfold dist2. pose proof (Rle_0_sqr (fst p - fst q)).
  pose proof (Rle_0_sqr (snd p - snd q)). lra.
Qed.

Lemma distance_nonneg (p q : Coord) : 0 <= distance p q.
Proof. apply sqrt_pos. Qed.

Lemma distance_zero (p q : Coord) : distance p q = 0 <-> p = q.
Proof.
  unfold distance. split.
  - intros E. apply sqrt_eq_0 in E; [|apply dist2_nonneg].
    pose proof (Rle_0_sqr (fst p - fst q)) as H0.
    pose proof (Rle_0_sqr (snd p - snd q)) as H1.
    assert (E0 : Rsqr (fst p - fst q) = 0) by lra.
    assert (E1 : Rsqr (snd p - snd q) = 0) by lra.
    apply Rsqr_0_uniq in E0. apply Rsqr_0_uniq in E1.
    destruct p as [p0 p1], q as [q0 q1]. cbn [fst snd] in *.
    f_equal; lra.
  - intros ->. rewrite !Rminus_diag, Rsqr_0, Rplus_0_r. apply sqrt_0.
Qed.

(** The entry the loop writes for the position at index [k]: the largest
    squared distance from that position. *)
Let row_max (grid : PositionGrid) (k : Z) (v : R) : Prop :=
  exists p, nth_error grid (Z.to_nat k) = Some p
    /\ (exists q, In q grid /\ v = dist2 p q)
    /\ forall q, In q grid -> dist2 p q <= v.

Lemma max_separation_body (grid : PositionGrid) (x : Z) (s : list R) :
  (0 <= x < Z.of_nat (length grid))%Z -> length s = length grid ->
  exists v,
    (p <- position grid x ;;
     m <- np_max (map2 Rplus (map (fun q => Rsqr (fst p - fst q)) grid)
                             (map (fun q => Rsqr (snd p - snd q)) grid)) ;;
     setitem1 s x m) = Ok (set_nth s (Z.to_nat x) v)
    /\ row_max grid x v.
Proof.
  intros Hx Hs. unfold position, sub_shape_1d.
  rewrite norm_index_in by exact Hx.
  destruct (nth_error grid (Z.to_nat x)) as [p|] eqn:Ep;
    [|apply nth_error_None in Ep; lia].
  cbn [bind]. rewrite map2_map_map.
  destruct (@np_max_spec (map (fun q => dist2 p q) grid)) as [m [Em [Hin Hmax]]].
  { destruct grid; [cbn in Hx; lia|discriminate]. }
  match goal with
  | |- context [np_max ?l] =>
      change (np_max l) with (np_max (map (fun q => dist2 p q) grid))
  end.
  rewrite Em. cbn [bind].
  unfold setitem1. rewrite Hs, norm_index_in by exact Hx.
  exists m. split; [reflexivity|]. exists p. split; [exact Ep|]. split.
  - apply in_map_iff in Hin as [q [Eq Hq]]. exists q. auto.
  - intros q Hq. apply Hmax. apply in_map_iff. exists q. auto.
Qed.

Lemma max_separation_spec (grid : PositionGrid) :
  grid <> [] ->
  exists d, max_separation_of_grid grid = Ok d /\ largest_distance grid d.
Proof.
  intros Hne. unfold max_separation_of_grid, sub_shape_1d. rewrite Nat2Z.id.
  destruct (@fill_loop R (row_max grid) (length grid) _
              (fun x s Hx Hs => @max_separation_body grid x s Hx Hs)
              (range 0 (Z.of_nat (length grid))) (repeat 0 (length grid)))
    as [rd [E [Hlen Hrd]]].
  { intros x Hx. apply In_range in Hx. lia. }
  { apply repeat_length. }
  rewrite E. cbn [bind].
  assert (Hall : forall k, (k < length grid)%nat ->
            exists v, nth_error rd k = Some v /\ row_max grid (Z.of_nat k) v).
  { intros k Hk. apply (Hrd k Hk). apply In_range. lia. }
  destruct (@np_max_spec (map sqrt rd)) as [m [Em [Hin Hmax]]].
  { destruct rd; [|discriminate]. destruct grid; [congruence|discriminate]. }
  exists m. split; [exact Em|]. split.
  - apply in_map_iff in Hin as [v [Ev Hv]].
    apply In_nth_error in Hv as [k Ek].
    assert (Hk : (k < length grid)%nat).
    { rewrite <- Hlen. apply nth_error_Some. congruence. }
    destruct (Hall k Hk) as [v' [Ev' [p [Ep [[q [Hq Eq]] _]]]]].
    rewrite Nat2Z.id in Ep. rewrite Ek in Ev'. injection Ev' as <-.
    exists p, q. split; [eapply nth_error_In; eassumption|].
    split; [exact Hq|]. rewrite <- Ev, Eq. reflexivity.
  - intros p q Hp Hq. apply In_nth_error in Hp as [k Ek].
    assert (Hk : (k < length grid)%nat) by (apply nth_error_Some; congruence).
    destruct (Hall k Hk) as [v [Ev [p' [Ep [_ Hle]]]]].
    rewrite Nat2Z.id, Ek in Ep. injection Ep as <-.
    apply Rle_trans with (sqrt v).
    + apply sqrt_le_1_alt. apply (Hle q Hq).
    + apply Hmax. apply in_map_iff. exists v. split; [reflexivity|].
      eapply nth_error_In; eassumption.
Qed.

Lemma maximum_separations_spec (positions : list PositionGrid) :
  Forall (fun grid => grid <> []) positions ->
  exists separations,
    comprehension max_separation_of_grid positions = Ok separations
    /\ Forall2 largest_distance positions separations.
Proof.
  induction 1 as [|grid t Hg Ht [seps [E F]]]; cbn [comprehension].
  - exists []. split; [reflexivity|constructor].
  - destruct (max_separation_spec Hg) as [d [Ed Hd]]. rewrite Ed, E. cbn [bind].
    exists (d :: seps). split; [reflexivity|]. now constructor.
Qed.

End PositionsFitLemmas.

Section PositionsFitProperties.

Import Grids Fit.
Local Open Scope R_scope.

Lemma Forall2_In_l {A B} (Q : A -> B -> Prop) (l : list A) (l' : list B) (x : A) :
  Forall2 Q l l' -> In x l -> exists y, In y l' /\ Q x y.
Proof.
  induction 1 as [|a b l l' Hab _ IH]; intros Hx; [destruct Hx|].
  destruct Hx as [<-|Hx].
  - exists b. split; [now left|exact Hab].
  - destruct (IH Hx) as [y [Hy Hxy]]. exists y. split; [now right|exact Hxy].
Qed.

Lemma Forall2_In_r {A B} (Q : A -> B -> Prop) (l : list A) (l' : list B) (y : B) :
  Forall2 Q l l' -> In y l' -> exists x, In x l /\ Q x y.
Proof.
  induction 1 as [|a b l l' Hab _ IH]; intros Hy; [destruct Hy|].
  destruct Hy as [<-|Hy].
  - exists a. split; [now left|exact Hab].
  - destruct (IH Hy) as [x [Hx Hxy]]. exists x. split; [now right|exact Hxy].
Qed.

(** X12: max_separation_of_grid raises ValueError on a grid without
    positions; on any other grid it returns the largest distance between two
    positions of the grid: a distance that some pair attains and no pair
    exceeds. *)
Theorem max_separation_of_grid_is_largest_distance (grid : PositionGrid) :
  (grid = [] /\ max_separation_of_grid grid = Raise ValueError)
  \/ (grid <> []
      /\ exists d,
           max_separation_of_grid grid = Ok d
           /\ (exists p q, In p grid /\ In q grid /\ d = distance p q)
           /\ forall p q, In p grid -> In q grid -> distance p q <= d).
Proof.
  destruct grid as [|p grid]; [left; split; reflexivity|right].
  split; [discriminate|].
  destruct (@max_separation_spec (p :: grid)) as [d [E [Hex Hall]]];
    [discriminate|].
  exists d. auto.
Qed.

(** X13: when there is at least one list of positions and none is empty,
    maximum_separation_within_threshold returns True exactly when every two
    positions of one list are within the threshold of each other. *)
Theorem maximum_separation_within_threshold_iff (fit : PositionsFit)
  (threshold : R) :
  source_plane_positions fit <> [] ->
  Forall (fun grid => grid <> []) (source_plane_positions fit) ->
  exists b,
    maximum_separation_within_threshold fit threshold = Ok b
    /\ (b = true
        <-> forall grid p q,
              In grid (source_plane_positions fit) -> In p grid -> In q grid ->
              distance p q <= threshold).
Proof.
  intros Hne Hall. unfold maximum_separation_within_threshold, maximum_separations.
  destruct (maximum_separations_spec Hall) as [seps [E F]]. rewrite E. cbn [bind].
  destruct (@np_max_spec seps) as [m [Em [Hin Hmax]]].
  { inversion F; subst; congruence. }
  rewrite Em. cbn [bind]. eexists. split; [reflexivity|].
  destruct (Rle_dec m threshold) as [Hm|Hm]; split.
  - intros _ grid p q Hg Hp Hq.
    destruct (Forall2_In_l grid F Hg) as [d [Hd [_ Hle]]].
    specialize (Hle p q Hp Hq). specialize (Hmax d Hd). lra.
  - reflexivity.
  - discriminate.
  - intros Hthr. exfalso. apply Hm.
    destruct (Forall2_In_r m F Hin) as [grid [Hg [[p [q [Hp [Hq ->]]]] _]]].
    apply (Hthr grid p q Hg Hp Hq).
Qed.

(** X14: with a noise value other than zero and no empty list of
    positions, figure_of_merit returns a value that is never positive, and
    that is zero exactly when the positions of each list all coincide. *)
Theorem figure_of_merit_nonpositive (fit : PositionsFit) :
  noise_map fit <> 0 ->
  Forall (fun grid => grid <> []) (source_plane_positions fit) ->
  exists f,
    figure_of_merit fit = Ok f
    /\ f <= 0
    /\ (f = 0
        <-> forall grid p q,
              In grid (source_plane_positions fit) -> In p grid -> In q grid ->
              p = q).
Proof.
  intros Hnoise Hall. unfold figure_of_merit, chi_squared_map, maximum_separations.
  destruct (maximum_separations_spec Hall) as [seps [E F]]. rewrite E. cbn [bind].
  eexists. split; [reflexivity|].
  set (chi := map (fun s => Rsqr (s / noise_map fit)) seps).
  unfold py_sum. rewrite fold_left_Rplus.
  assert (Hpos : Forall (fun x => 0 <= x) chi).
  { apply Forall_forall. intros x Hx. apply in_map_iff in Hx as [s [<- _]].
    apply Rle_0_sqr. }
  destruct (rsum_nonneg Hpos) as [H0 Hz]. split; [lra|].
  assert (Hsep : Forall (fun x => x = 0) chi <-> forall s, In s seps -> s = 0).
  { rewrite Forall_forall. split.
    - intros Hchi s Hs.
      assert (Es : Rsqr (s / noise_map fit) = 0).
      { apply Hchi. apply in_map_iff. exists s. auto. }
      apply Rsqr_0_uniq in Es. unfold Rdiv in Es.
      apply Rmult_integral in Es as [Es|Es]; [exact Es|].
      exfalso. revert Es. now apply Rinv_neq_0_compat.
    - intros Hs x Hx. apply in_map_iff in Hx as [s [<- Hin]].
      rewrite (Hs s Hin). unfold Rdiv. rewrite Rmult_0_l. apply Rsqr_0. }
  split.
  - intros Ef grid p q Hg Hp Hq.
    assert (Ez : rsum chi = 0) by lra.
    apply Hz in Ez. rewrite Hsep in Ez.
    destruct (Forall2_In_l grid F Hg) as [d [Hd [_ Hle]]].
    specialize (Hle p q Hp Hq). rewrite (Ez d Hd) in Hle.
    pose proof (distance_nonneg p q). apply distance_zero. lra.
  - intros Hsame.
    assert (Ez : rsum chi = 0).
    { apply Hz. apply Hsep. intros s Hs.
      destruct (Forall2_In_r s F Hs) as [grid [Hg [[p [q [Hp [Hq ->]]]] _]]].
      apply distance_zero. apply (Hsame grid p q Hg Hp Hq). }
    rewrite Ez. lra.
Qed.

End PositionsFitProperties.

Lemma maximum_separation_within_threshold_iff_witness :
  exists b,
    Fit.maximum_separation_within_threshold
      {| Fit.source_plane_positions := [[(0, 0); (3, 4)]%R]; Fit.noise_map := 1%R |}
      5%R = Ok b
    /\ (b = true
        <-> forall grid p q,
              In grid [[(0, 0); (3, 4)]%R] -> In p grid -> In q grid ->
              (Fit.distance p q <= 5)%R).
Proof.
  apply (@maximum_separation_within_threshold_iff
           {| Fit.source_plane_positions := [[(0, 0); (3, 4)]%R];
              Fit.noise_map := 1%R |} 5%R).
  - cbn. discriminate.
  - cbn. constructor; [discriminate|constructor].
Defined.

Lemma figure_of_merit_nonpositive_witness :
  exists f,
    Fit.figure_of_merit
      {| Fit.source_plane_positions := [[(0, 0); (3, 4)]%R]; Fit.noise_map := 1%R |}
    = Ok f
    /\ (f <= 0)%R
    /\ (f = 0%R
        <-> forall grid p q,
              In grid [[(0, 0); (3, 4)]%R] -> In p grid -> In q grid -> p = q).
Proof.
  apply (@figure_of_merit_nonpositive
           {| Fit.source_plane_positions := [[(0, 0); (3, 4)]%R];
              Fit.noise_map := 1%R |}).
  - cbn. apply R1_neq_R0.
  - cbn. constructor; [discriminate|constructor].
Defined.

(** ** The planes of a tracer *)

Section TracerPlanes.

Import Grids RayTracing.

(** X15: in a tracer built by the constructor, tracing the image plane again
    gives the grids the source plane holds, and the source plane, built
    without deflections, cannot be traced: trace_to_next_plane raises
    AttributeError on it. *)
Theorem source_plane_cannot_be_traced (lens_galaxies source_galaxies : list Galaxy)
  (image_plane_grids : RayTracingGrids) (t : Tracer) :
  Tracer_init lens_galaxies source_galaxies image_plane_grids = Ok t ->
  trace_to_next_plane (image_plane t) = Ok (grids (source_plane t))
  /\ trace_to_next_plane (source_plane t) = Raise AttributeError.
Proof.
  unfold Tracer_init.
  destruct (trace_to_next_plane (Plane_init lens_galaxies image_plane_grids true))
    as [source_plane_grids|e] eqn:E; cbn [bind]; [|discriminate].
  intros [= <-]. cbn [image_plane source_plane]. split; [exact E|reflexivity].
Qed.

End TracerPlanes.

Lemma source_plane_cannot_be_traced_witness :
  exists t,
    RayTracing.Tracer_init [] [] RayTracing.grids_with_sub = Ok t
    /\ RayTracing.trace_to_next_plane (RayTracing.image_plane t)
       = Ok (RayTracing.grids (RayTracing.source_plane t))
    /\ RayTracing.trace_to_next_plane (RayTracing.source_plane t)
       = Raise AttributeError.
Proof.
  eexists.
  refine ((fun E => conj E
             (source_plane_cannot_be_traced [] [] RayTracing.grids_with_sub E)) _).
  reflexivity.
Defined.

(** ** Filling an array cell by cell *)

Section PrefixLoop.

Variable S : Type.
Variable I : list Z -> S -> Prop.

(** A loop whose body extends an invariant on the visited prefix runs to the
    end of the list. *)
Lemma for_loop_prefix (l : list Z) (body : Z -> S -> result S) :
  (forall visited x s, In x l -> I visited s ->
     exists s', body x s = Ok s' /\ I (visited ++ [x]) s') ->
  forall visited s, I visited s ->
    exists s', for_loop l body s = Ok s' /\ I (visited ++ l) s'.
Proof.
  induction l as [|x l IH]; intros Hbody visited s Hs; cbn [for_loop].
  - exists s. rewrite app_nil_r. auto.
  - destruct (Hbody visited x s (or_introl eq_refl) Hs) as [s1 [E1 I1]].
    rewrite E1. cbn [bind].
    destruct (IH (fun v y t Hy => Hbody v y t (or_intror Hy)) _ _ I1)
      as [s' [E' I']].
    exists s'. split; [exact E'|]. now rewrite <- app_assoc in I'.
Qed.

End PrefixLoop.

Section ArrayFill.

Import ImageArrays ImageShapes.
Local Open Scope Z_scope.

Variable A : Type.
Variables n m : Z.

Let inside (i j : Z) : Prop := 0 <= i < n /\ 0 <= j < m.

Lemma np_zeros_filled (zero : A) :
  0 <= n -> 0 <= m ->
  exists a, np_zeros zero (n, m) = Ok a /\ has_shape a n m
    /\ forall i j, inside i j -> getitem a i j = Ok zero.
Proof.
  intros Hn Hm. unfold np_zeros. cbn [fst snd].
  replace (n <? 0) with false by (symmetry; apply Z.ltb_ge; lia).
  replace (m <? 0) with false by (symmetry; apply Z.ltb_ge; lia).
  cbn [orb]. eexists. split; [reflexivity|].
  assert (Hshape : has_shape (repeat (repeat zero (Z.to_nat m)) (Z.to_nat n)) n m).
  { split.
    - rewrite repeat_length. lia.
    - apply Forall_forall. intros row Hrow. apply repeat_spec in Hrow. subst.
      rewrite repeat_length. lia. }
  split; [exact Hshape|]. intros i j [Hi Hj].
  destruct (shape_of Hshape) as [Hsh _]; [lia|].
  unfold getitem. rewrite Hsh. cbn [fst snd].
  rewrite (norm_index_in Hi), (norm_index_in Hj).
  rewrite nth_error_repeat by lia. rewrite nth_error_repeat by lia.
  reflexivity.
Qed.

Lemma getitem_inside (a : ndarray2 A) (i j : Z) :
  has_shape a n m -> inside i j -> exists v, getitem a i j = Ok v.
Proof.
  intros Ha [Hi Hj]. destruct (shape_of Ha) as [Hsh Hrect]; [lia|].
  apply getitem_in_bounds; [exact Hrect| |]; rewrite Hsh; assumption.
Qed.

(** [a[i, j] = v] inside the array keeps the shape and changes the one entry. *)
Lemma setitem_inside (a : ndarray2 A) (i j : Z) (v : A) :
  has_shape a n m -> inside i j ->
  exists a', setitem a i j v = Ok a' /\ has_shape a' n m
    /\ forall i' j', inside i' j' ->
         getitem a' i' j' = if (i =? i') && (j =? j') then Ok v else getitem a i' j'.
Proof.
  intros Ha [Hi Hj]. destruct (shape_of Ha) as [Hsh _]; [lia|].
  destruct Ha as [Hlen Hrows].
  unfold setitem. rewrite Hsh. cbn [fst snd].
  rewrite (norm_index_in Hi), (norm_index_in Hj).
  destruct (nth_error a (Z.to_nat i)) as [row|] eqn:Erow;
    [|apply nth_error_None in Erow; lia].
  assert (Hrow : Z.of_nat (length row) = m).
  { rewrite Forall_forall in Hrows. apply Hrows. eapply nth_error_In; eauto. }
  replace (Z.to_nat j <? length row)%nat with true
    by (symmetry; apply Nat.ltb_lt; lia).
  eexists. split; [reflexivity|].
  assert (Ha' : has_shape (set_nth a (Z.to_nat i) (set_nth row (Z.to_nat j) v)) n m).
  { split.
    - now rewrite set_nth_length.
    - apply Forall_set_nth; [exact Hrows|]. now rewrite set_nth_length. }
  split; [exact Ha'|]. intros i' j' [Hi' Hj'].
  destruct (shape_of Ha') as [Hsh' _]; [lia|].
  unfold getitem. rewrite Hsh', Hsh. cbn [fst snd].
  rewrite (norm_index_in Hi'), (norm_index_in Hj').
  rewrite nth_error_set_nth, Erow. cbn [option_map].
  destruct (Z.eqb_spec i i') as [<-|Hne].
  - rewrite Nat.eqb_refl. cbn [andb]. rewrite nth_error_set_nth.
    destruct (Z.eqb_spec j j') as [<-|Hne'].
    + rewrite Nat.eqb_refl.
      destruct (nth_error row (Z.to_nat j)) eqn:E; [reflexivity|].
      apply nth_error_None in E. lia.
    + replace (Z.to_nat j =? Z.to_nat j')%nat with false
        by (symmetry; apply Nat.eqb_neq; lia).
      now rewrite Erow.
  - replace (Z.to_nat i =? Z.to_nat i')%nat with false
      by (symmetry; apply Nat.eqb_neq; lia).
    reflexivity.
Qed.

Variable f : Z -> Z -> A.
Variable body : Z -> Z -> ndarray2 A -> result (ndarray2 A).

Hypothesis body_sets : forall i j a,
  has_shape a n m -> inside i j ->
  exists a', body i j a = Ok a' /\ has_shape a' n m
    /\ forall i' j', inside i' j' ->
         getitem a' i' j' = if (i =? i') && (j =? j') then Ok (f i j)
                            else getitem a i' j'.

Lemma fill_row (i : Z) (a : ndarray2 A) :
  has_shape a n m -> 0 <= i < n ->
  exists a', for_loop (range 0 m) (fun j a => body i j a) a = Ok a'
    /\ has_shape a' n m
    /\ forall i' j', inside i' j' ->
         getitem a' i' j' = if i =? i' then Ok (f i j') else getitem a i' j'.
Proof.
  intros Ha Hi.
  destruct (@for_loop_prefix (ndarray2 A)
              (fun visited a' =>
                 has_shape a' n m
                 /\ forall i' j', inside i' j' ->
                      (i = i' /\ In j' visited -> getitem a' i' j' = Ok (f i j'))
                      /\ (~ (i = i' /\ In j' visited) ->
                          getitem a' i' j' = getitem a i' j'))
              (range 0 m) (fun j a => body i j a)) with (visited := @nil Z) (s := a)
    as [a' [E [Ha' Hget]]].
  - intros visited j s Hj [Hs Hinv]. apply In_range in Hj.
    destruct (@body_sets i j s Hs) as [s' [Es [Hs' Hget]]]; [split; lia|].
    exists s'. split; [exact Es|]. split; [exact Hs'|].
    intros i' j' Hin. rewrite (Hget i' j' Hin).
    destruct (Hinv i' j' Hin) as [Hv Hnv].
    destruct (Z.eqb_spec i i') as [<-|Hne]; cbn [andb].
    + destruct (Z.eqb_spec j j') as [<-|Hne']; split.
      * reflexivity.
      * intros Hno. exfalso. apply Hno. split; [reflexivity|].
        apply in_or_app. right. now left.
      * intros [_ Hj']. apply in_app_or in Hj' as [Hj'|[Ej|[]]]; [|congruence].
        apply Hv. auto.
      * intros Hno. apply Hnv. intros [_ Hj']. apply Hno.
        split; [reflexivity|]. apply in_or_app. now left.
    + split; [intros [Ei _]; congruence|].
      intros _. apply Hnv. intros [Ei _]. congruence.
  - split; [exact Ha|]. intros i' j' _. split; [intros [_ []]|reflexivity].
  - exists a'. split; [exact E|]. split; [exact Ha'|].
    intros i' j' Hin. destruct (Hget i' j' Hin) as [Hv Hnv].
    destruct (Z.eqb_spec i i') as [<-|Hne].
    + apply Hv. split; [reflexivity|]. cbn [app]. apply In_range.
      destruct Hin. lia.
    + apply Hnv. intros [Ei _]. congruence.
Qed.

(** The two nested loops leave [f i j] in every cell. *)
Lemma fill_array (a : ndarray2 A) :
  has_shape a n m ->
  exists a',
    for_loop (range 0 n)
      (fun i a => for_loop (range 0 m) (fun j a => body i j a) a) a = Ok a'
    /\ has_shape a' n m
    /\ forall i j, inside i j -> getitem a' i j = Ok (f i j).
Proof.
  intros Ha.
  destruct (@for_loop_prefix (ndarray2 A)
              (fun visited a' =>
                 has_shape a' n m
                 /\ forall i j, inside i j -> In i visited ->
                      getitem a' i j = Ok (f i j))
              (range 0 n)
              (fun i a => for_loop (range 0 m) (fun j a => body i j a) a))
    with (visited := @nil Z) (s := a) as [a' [E [Ha' Hget]]].
  - intros visited i s Hi [Hs Hinv]. apply In_range in Hi.
    destruct (@fill_row i s Hs) as [s' [Es [Hs' Hget]]]; [lia|].
    exists s'. split; [exact Es|]. split; [exact Hs'|].
    intros i' j' Hin Hvis. rewrite (Hget i' j' Hin).
    destruct (Z.eqb_spec i i') as [<-|Hne]; [reflexivity|].
    apply Hinv; [exact Hin|].
    apply in_app_or in Hvis as [Hvis|[Ei|[]]]; [exact Hvis|congruence].
  - split; [exact Ha|]. intros i j _ [].
  - exists a'. split; [exact E|]. split; [exact Ha'|].
    intros i j Hin. apply Hget; [exact Hin|]. cbn [app]. apply In_range.
    destruct Hin. lia.
Qed.

End ArrayFill.

(** ** Coordinates of an array and normalisation *)

Section CoordinateLemmas.

Import ImageArrays ImageShapes.
Local Open Scope Z_scope.

Lemma central_pixel_middle (n m : Z) :
  central_pixel (IZR n, IZR m) = ((IZR n - 1) / 2, (IZR m - 1) / 2)%R.
Proof. unfold central_pixel. cbn [fst snd]. f_equal; lra. Qed.

Lemma coordinates_cell (n m : Z) (v0 v1 : Z -> Z -> R) (i j : Z)
  (a : ndarray2 (R * R)) :
  has_shape a n m -> 0 <= i < n /\ 0 <= j < m ->
  exists a',
    (a1 <- setitem_0 a i j (v0 i j) ;; setitem_1 a1 i j (v1 i j)) = Ok a'
    /\ has_shape a' n m
    /\ forall i' j', 0 <= i' < n /\ 0 <= j' < m ->
         getitem a' i' j' = if (i =? i') && (j =? j') then Ok (v0 i j, v1 i j)
                            else getitem a i' j'.
Proof.
  intros Ha Hin. unfold setitem_0, setitem_1.
  destruct (getitem_inside Ha Hin) as [c Ec]. rewrite Ec. cbn [bind].
  destruct (setitem_inside (v0 i j, snd c) Ha Hin) as [a1 [E1 [Ha1 G1]]].
  rewrite E1. cbn [bind].
  rewrite (G1 i j Hin), !Z.eqb_refl. cbn [andb bind fst].
  destruct (setitem_inside (v0 i j, v1 i j) Ha1 Hin) as [a2 [E2 [Ha2 G2]]].
  exists a2. split; [exact E2|]. split; [exact Ha2|].
  intros i' j' Hin'. rewrite (G2 i' j' Hin'), (G1 i' j' Hin').
  now destruct ((i =? i') && (j =? j')).
Qed.

Lemma coordinates_of_array_entries (n m : Z) (pixel_scale : R) (centre : R * R) :
  0 <= n -> 0 <= m ->
  exists a,
    arc_seconds_coordinates_of_array (n, m) pixel_scale centre = Ok a
    /\ has_shape a n m
    /\ forall i j, 0 <= i < n /\ 0 <= j < m ->
         getitem a i j = Ok ((IZR i - (IZR n - 1) / 2) * pixel_scale,
                             (IZR j - (IZR m - 1) / 2) * pixel_scale)%R.
Proof.
  intros Hn Hm. unfold arc_seconds_coordinates_of_array. cbn [fst snd].
  destruct (@np_zeros_filled (R * R) n m (0, 0)%R Hn Hm) as [a0 [E0 [Ha0 _]]].
  rewrite E0. cbn [bind]. rewrite central_pixel_middle. cbn [fst snd].
  apply (@fill_array (R * R) n m
           (fun i j => ((IZR i - (IZR n - 1) / 2) * pixel_scale,
                        (IZR j - (IZR m - 1) / 2) * pixel_scale)%R)
           (fun i j a =>
              a1 <- setitem_0 a i j ((IZR i - (IZR n - 1) / 2) * pixel_scale)%R ;;
              setitem_1 a1 i j ((IZR j - (IZR m - 1) / 2) * pixel_scale)%R));
    [|exact Ha0].
  intros i j a Ha Hin.
  apply (@coordinates_cell n m
           (fun i _ => ((IZR i - (IZR n - 1) / 2) * pixel_scale)%R)
           (fun _ j => ((IZR j - (IZR m - 1) / 2) * pixel_scale)%R)
           i j a Ha Hin).
Qed.

End CoordinateLemmas.

Section NormalizeLemmas.

Import ImageShapes.
Local Open Scope R_scope.

Lemma rsum_map_div (t : R) (l : list R) :
  Grids.rsum (map (fun x => x / t) l) = Grids.rsum l / t.
Proof.
  induction l as [|h l IH]; cbn [map Grids.rsum fold_right].
  - unfold Rdiv. now rewrite Rmult_0_l.
  - fold (Grids.rsum (map (fun x => x / t) l)). rewrite IH.
    fold (Grids.rsum l). unfold Rdiv. lra.
Qed.

Lemma np_sum_normalize (array : ndarray2 R) :
  np_sum array <> 0 -> np_sum (normalize array) = 1.
Proof.
  intros Hsum. unfold normalize. set (t := np_sum array) in *.
  unfold np_sum at 1. rewrite map_map.
  rewrite (map_ext _ (fun row => Grids.rsum row / t))
    by (intros row; apply rsum_map_div).
  rewrite <- (map_map Grids.rsum (fun x => x / t)), rsum_map_div.
  fold (np_sum array). fold t. now apply Rdiv_diag.
Qed.

End NormalizeLemmas.

Section CoordinateProperties.

Import ImageArrays ImageShapes.

(** X16: for dimensions [n] and [m] that are not negative,
    arc_seconds_coordinates_of_array returns an [n] by [m] array whose entry
    [(i, j)] is [((i - (n - 1) / 2) * pixel_scale, (j - (m - 1) / 2) *
    pixel_scale)], whatever [centre] is; so the pixel opposite to [(i, j)]
    through the middle of the array holds the opposite coordinates. *)
Theorem coordinates_centred_on_the_array (n m : Z) (pixel_scale : R)
  (centre : R * R) :
  (0 <= n)%Z -> (0 <= m)%Z ->
  exists a,
    arc_seconds_coordinates_of_array (n, m) pixel_scale centre = Ok a
    /\ has_shape a n m
    /\ forall i j, (0 <= i < n)%Z -> (0 <= j < m)%Z ->
         exists x y,
           x = ((IZR i - (IZR n - 1) / 2) * pixel_scale)%R
           /\ y = ((IZR j - (IZR m - 1) / 2) * pixel_scale)%R
           /\ getitem a i j = Ok (x, y)
           /\ getitem a (n - 1 - i) (m - 1 - j) = Ok (- x, - y)%R.
Proof.
  intros Hn Hm.
  destruct (coordinates_of_array_entries pixel_scale centre Hn Hm)
    as [a [E [Ha Hget]]].
  exists a. split; [exact E|]. split; [exact Ha|]. intros i j Hi Hj.
  eexists. eexists. split; [reflexivity|]. split; [reflexivity|].
  split; [apply Hget; split; assumption|].
  rewrite Hget by (split; lia). f_equal. rewrite !minus_IZR.
  f_equal; lra.
Qed.

Local Open Scope R_scope.

(** X17: the entries of normalize(array) sum to 1 when those of the array do
    not sum to 0, and normalising a second time changes nothing. *)
Theorem normalize_sums_to_one (array : ndarray2 R) :
  np_sum array <> 0 ->
  np_sum (normalize array) = 1
  /\ normalize (normalize array) = normalize array.
Proof.
  intros Hsum. pose proof (@np_sum_normalize array Hsum) as E. split; [exact E|].
  unfold normalize at 1. rewrite E.
  rewrite (map_ext _ (fun row : list R => row)); [apply map_id|].
  intros row. rewrite (map_ext _ (fun x : R => x)); [apply map_id|].
  intros x. apply Rdiv_1_r.
Qed.

(** X18: from_array returns its argument with the entries as they were,
    whether renormalize is set or not: for an array whose entries sum to
    neither 0 nor 1 the result is not the normalised array. *)
Theorem from_array_does_not_normalize (array : ndarray2 R) (renormalize : bool) :
  np_sum array <> 0 -> np_sum array <> 1 ->
  from_array array renormalize = array
  /\ from_array array renormalize <> normalize array.
Proof.
  intros H0 H1. split; [reflexivity|].
  unfold from_array. intros E. apply H1.
  rewrite E at 1. exact (@np_sum_normalize array H0).
Qed.

End CoordinateProperties.

Lemma coordinates_centred_on_the_array_witness :
  exists a,
    ImageShapes.arc_seconds_coordinates_of_array (2, 3)%Z 1%R (5, 7)%R = Ok a
    /\ ImageArrays.has_shape a 2 3
    /\ forall i j, (0 <= i < 2)%Z -> (0 <= j < 3)%Z ->
         exists x y,
           x = ((IZR i - (2 - 1) / 2) * 1)%R
           /\ y = ((IZR j - (3 - 1) / 2) * 1)%R
           /\ getitem a i j = Ok (x, y)
           /\ getitem a (2 - 1 - i) (3 - 1 - j) = Ok (- x, - y)%R.
Proof.
  apply (@coordinates_centred_on_the_array 2 3 1%R (5, 7)%R); lia.
Defined.

Lemma normalize_sums_to_one_witness :
  ImageShapes.np_sum (ImageShapes.normalize [[1; 3]%R]) = 1%R
  /\ ImageShapes.normalize (ImageShapes.normalize [[1; 3]%R])
     = ImageShapes.normalize [[1; 3]%R].
Proof.
  apply (@normalize_sums_to_one [[1; 3]%R]).
  unfold ImageShapes.np_sum. cbn. lra.
Defined.

Lemma from_array_does_not_normalize_witness :
  ImageShapes.from_array [[1; 3]%R] true = [[1; 3]%R]
  /\ ImageShapes.from_array [[1; 3]%R] true <> ImageShapes.normalize [[1; 3]%R].
Proof.
  apply (@from_array_does_not_normalize [[1; 3]%R] true);
    unfold ImageShapes.np_sum; cbn; lra.
Defined.

(** ** Masks computed from a function of the coordinates *)

Section MaskShapeLemmas.

Import Python ImageArrays ImageShapes.
Local Open Scope Z_scope.

Lemma for_loop_ext {S} (l : list Z) (body body' : Z -> S -> result S) (s : S) :
  (forall x t, body x t = body' x t) ->
  for_loop l body s = for_loop l body' s.
Proof.
  intros Hext. revert s. induction l as [|x l IH]; intros s; cbn [for_loop].
  - reflexivity.
  - rewrite Hext. destruct (body' x s); cbn [bind]; [apply IH|reflexivity].
Qed.

Lemma mask_ext (function function' : R -> R -> bool)
  (arc_second_dimensions : R * R) (pixel_scale : R) (centre : R * R) :
  (forall x y, function x y = function' x y) ->
  mask arc_second_dimensions pixel_scale function centre
  = mask arc_second_dimensions pixel_scale function' centre.
Proof.
  intros Hext. unfold mask.
  destruct (arc_second_dimensions_to_pixel arc_second_dimensions pixel_scale)
    as [pd|e]; cbn [and_then]; [|reflexivity].
  destruct (lift (np_zeros false (py_int (fst pd), py_int (snd pd))))
    as [a|e]; cbn [and_then]; [|reflexivity].
  f_equal. f_equal. apply for_loop_ext. intros i t.
  apply for_loop_ext. intros j u. now rewrite Hext.
Qed.

(** [make_mask] keeps the array exactly when it has a True entry. *)
Lemma make_mask_array (n m : Z) (a : ndarray2 bool) :
  has_shape a n m ->
  (existsb (existsb (fun v => v)) a = true
   <-> exists i j, (0 <= i < n /\ 0 <= j < m) /\ getitem a i j = Ok true).
Proof.
  intros Ha. split.
  - intros H. apply existsb_exists in H as [row [Hrow H]].
    apply existsb_exists in H as [v [Hv ->]].
    apply In_nth_error in Hrow as [r Er]. apply In_nth_error in Hv as [c Ec].
    assert (Hr : (r < length a)%nat) by (apply nth_error_Some; congruence).
    assert (Hc : (c < length row)%nat) by (apply nth_error_Some; congruence).
    destruct (shape_of Ha) as [Hsh _]; [destruct Ha; lia|].
    destruct Ha as [Hlen Hrows].
    assert (Hm : Z.of_nat (length row) = m).
    { rewrite Forall_forall in Hrows. apply Hrows. eapply nth_error_In; eauto. }
    exists (Z.of_nat r), (Z.of_nat c).
    assert (Hin : 0 <= Z.of_nat r < n /\ 0 <= Z.of_nat c < m) by lia.
    split; [exact Hin|]. unfold getitem. rewrite Hsh. cbn [fst snd].
    rewrite (norm_index_in (proj1 Hin)), (norm_index_in (proj2 Hin)).
    now rewrite !Nat2Z.id, Er, Ec.
  - intros [i [j [[Hi Hj] Hget]]].
    destruct (shape_of Ha) as [Hsh _]; [lia|].
    unfold getitem in Hget. rewrite Hsh in Hget. cbn [fst snd] in Hget.
    rewrite (norm_index_in Hi), (norm_index_in Hj) in Hget.
    destruct (nth_error a (Z.to_nat i)) as [row|] eqn:Er; [|discriminate].
    destruct (nth_error row (Z.to_nat j)) as [v|] eqn:Ec; [|discriminate].
    injection Hget as ->.
    apply existsb_exists. exists row. split; [eapply nth_error_In; eauto|].
    apply existsb_exists. exists true. split; [eapply nth_error_In; eauto|].
    reflexivity.
Qed.

Variable function : R -> R -> bool.
Variable arc_second_dimensions : R * R.
Variable pixel_scale : R.
Variable centre : R * R.

Let n : Z := fst (pixel_counts arc_second_dimensions pixel_scale).
Let m : Z := snd (pixel_counts arc_second_dimensions pixel_scale).

Lemma mask_zero_scale :
  pixel_scale = 0%R ->
  mask arc_second_dimensions pixel_scale function centre = Raises ZeroDivisionError.
Proof.
  intros Hs. unfold mask, arc_second_dimensions_to_pixel.
  now destruct (Req_dec_T pixel_scale 0).
Qed.

Lemma mask_negative_count :
  pixel_scale <> 0%R -> n < 0 \/ m < 0 ->
  mask arc_second_dimensions pixel_scale function centre
  = Raises (Numpy_error ValueError).
Proof.
  intros Hs Hneg. unfold mask, arc_second_dimensions_to_pixel.
  destruct (Req_dec_T pixel_scale 0); [contradiction|]. cbn [and_then fst snd].
  unfold np_zeros. cbn [fst snd].
  fold (pixel_counts arc_second_dimensions pixel_scale).
  change (py_int (fst arc_second_dimensions / pixel_scale)) with n.
  change (py_int (snd arc_second_dimensions / pixel_scale)) with m.
  replace ((n <? 0) || (m <? 0)) with true; [reflexivity|].
  symmetry. apply orb_true_iff.
  destruct Hneg; [left|right]; now apply Z.ltb_lt.
Qed.

Lemma mask_filled :
  pixel_scale <> 0%R -> 0 <= n -> 0 <= m ->
  exists a,
    mask arc_second_dimensions pixel_scale function centre = Returns (make_mask a)
    /\ has_shape a n m
    /\ forall i j, 0 <= i < n /\ 0 <= j < m ->
         getitem a i j
         = Ok (mask_value function arc_second_dimensions pixel_scale centre i j).
Proof.
  intros Hs Hn Hm. unfold mask, arc_second_dimensions_to_pixel.
  destruct (Req_dec_T pixel_scale 0); [contradiction|]. cbn [and_then fst snd].
  change (py_int (fst arc_second_dimensions / pixel_scale)) with n.
  change (py_int (snd arc_second_dimensions / pixel_scale)) with m.
  destruct (@np_zeros_filled bool n m false Hn Hm) as [a0 [E0 [Ha0 _]]].
  rewrite E0. cbn [lift and_then].
  destruct (@fill_array bool n m
              (mask_value function arc_second_dimensions pixel_scale centre)
              (fun i j a =>
                 setitem a i j
                   (mask_value function arc_second_dimensions pixel_scale centre i j)))
    with (a := a0) as [a [E [Ha Hget]]].
  - intros i j a Ha Hin. now apply setitem_inside.
  - exact Ha0.
  - exists a. split; [|split; [exact Ha|exact Hget]].
    unfold mask_value, pixel_coordinates in E. cbn [fst snd] in E.
    rewrite E. reflexivity.
Qed.

Lemma mask_returns (mm : made_mask) :
  mask arc_second_dimensions pixel_scale function centre = Returns mm ->
  pixel_scale <> 0%R /\ 0 <= n /\ 0 <= m.
Proof.
  intros E. destruct (Req_dec_T pixel_scale 0) as [Hs|Hs].
  - rewrite (mask_zero_scale Hs) in E. discriminate.
  - split; [exact Hs|].
    destruct (Z_lt_le_dec n 0) as [Hn|Hn];
      [rewrite (mask_negative_count Hs (or_introl Hn)) in E; discriminate|].
    destruct (Z_lt_le_dec m 0) as [Hm|Hm];
      [rewrite (mask_negative_count Hs (or_intror Hm)) in E; discriminate|].
    split; assumption.
Qed.

End MaskShapeLemmas.

Section TruncationLemmas.

Import ImageShapes.

Lemma py_int_nonneg (x : R) : (0 <= x)%R -> (0 <= py_int x)%Z.
Proof.
  intros Hx. unfold py_int. destruct (Rle_dec 0 x) as [_|Hn]; [|contradiction].
  destruct (base_Int_part x) as [_ Hgt].
  assert (H : (IZR (-1) < IZR (Int_part x))%R) by (cbn; lra).
  apply lt_IZR in H. lia.
Qed.

Lemma Int_part_IZR (z : Z) : Int_part (IZR z) = z.
Proof. symmetry. apply Int_part_spec. lra. Qed.

Lemma py_int_IZR (z : Z) : py_int (IZR z) = z.
Proof.
  unfold py_int. destruct (Rle_dec 0 (IZR z)) as [_|_].
  - apply Int_part_IZR.
  - rewrite <- opp_IZR, Int_part_IZR. lia.
Qed.

Lemma Rleb_le (a b : R) : Rleb a b = true <-> (a <= b)%R.
Proof.
  unfold Rleb. destruct (Rle_dec a b); split; auto; discriminate.
Qed.

Lemma pixel_counts_nonneg (arc_second_dimensions : R * R) (pixel_scale : R) :
  (0 <= fst arc_second_dimensions / pixel_scale)%R ->
  (0 <= snd arc_second_dimensions / pixel_scale)%R ->
  (0 <= fst (pixel_counts arc_second_dimensions pixel_scale))%Z
  /\ (0 <= snd (pixel_counts arc_second_dimensions pixel_scale))%Z.
Proof.
  intros H0 H1. unfold pixel_counts. cbn [fst snd].
  split; now apply py_int_nonneg.
Qed.

End TruncationLemmas.

Section MaskShapeProperties.

Import Python ImageArrays ImageShapes.
Local Open Scope Z_scope.

(** X19: Mask.mask raises ZeroDivisionError for a pixel scale of 0 and
    ValueError when a pixel count (the size in arc seconds divided by the
    pixel scale, truncated) is negative; otherwise it returns numpy's nomask
    when the function is False at the coordinates of every pixel, and else
    an array with one entry per pixel holding the value of the function at
    the pixel's coordinates. *)
Theorem mask_outcome (function : R -> R -> bool) (arc_second_dimensions : R * R)
  (pixel_scale : R) (centre : R * R) :
  let n := fst (pixel_counts arc_second_dimensions pixel_scale) in
  let m := snd (pixel_counts arc_second_dimensions pixel_scale) in
  let value := mask_value function arc_second_dimensions pixel_scale centre in
  let result := mask arc_second_dimensions pixel_scale function centre in
  (pixel_scale = 0%R /\ result = Raises ZeroDivisionError)
  \/ (pixel_scale <> 0%R /\ (n < 0 \/ m < 0)
      /\ result = Raises (Numpy_error ValueError))
  \/ (pixel_scale <> 0%R /\ 0 <= n /\ 0 <= m
      /\ (forall i j, 0 <= i < n -> 0 <= j < m -> value i j = false)
      /\ result = Returns nomask)
  \/ (pixel_scale <> 0%R /\ 0 <= n /\ 0 <= m
      /\ (exists i j, 0 <= i < n /\ 0 <= j < m /\ value i j = true)
      /\ exists a,
           result = Returns (mask_array a)
           /\ has_shape a n m
           /\ forall i j, 0 <= i < n -> 0 <= j < m -> getitem a i j = Ok (value i j)).
Proof.
  intros n m value result.
  destruct (Req_dec_T pixel_scale 0) as [Hs|Hs];
    [left; split; [exact Hs|now apply mask_zero_scale]|right].
  destruct (Z_lt_le_dec n 0) as [Hn|Hn];
    [left; split; [exact Hs|]; split; [now left|];
     apply mask_negative_count; [exact Hs|now left]|].
  destruct (Z_lt_le_dec m 0) as [Hm|Hm];
    [left; split; [exact Hs|]; split; [now right|];
     apply mask_negative_count; [exact Hs|now right]|].
  right.
  destruct (mask_filled function arc_second_dimensions centre Hs Hn Hm)
    as [a [E [Ha Hget]]].
  fold n m value in Ha, Hget. fold result in E.
  pose proof (make_mask_array Ha) as Hany. unfold make_mask in E.
  destruct (existsb (existsb (fun v => v)) a) eqn:Eany.
  - right. repeat (split; [assumption|]).
    destruct (proj1 Hany eq_refl) as [i [j [Hin Ht]]].
    rewrite (Hget i j Hin) in Ht. injection Ht as Ht. split.
    + exists i, j. destruct Hin. auto.
    + exists a. split; [exact E|]. split; [exact Ha|]. intros i' j' Hi' Hj'.
      apply Hget. auto.
  - left. repeat (split; [assumption|]). split; [|exact E].
    intros i j Hi Hj. destruct (value i j) eqn:Ev; [|reflexivity].
    assert (Ht : false = true); [|discriminate].
    apply Hany. exists i, j. split; [auto|].
    rewrite (Hget i j (conj Hi Hj)). now rewrite Ev.
Qed.

End MaskShapeProperties.

Section CircularLemmas.

Import Python ImageArrays ImageShapes.
Local Open Scope Z_scope.

Variable arc_second_dimensions : R * R.
Variable pixel_scale : R.
Variable centre : R * R.

Let n : Z := fst (pixel_counts arc_second_dimensions pixel_scale).
Let m : Z := snd (pixel_counts arc_second_dimensions pixel_scale).

Hypothesis scale_not_zero : pixel_scale <> 0%R.
Hypothesis rows_not_negative : (0 <= fst arc_second_dimensions / pixel_scale)%R.
Hypothesis columns_not_negative : (0 <= snd arc_second_dimensions / pixel_scale)%R.

(** The array [Mask.circular] hands to [make_mask]. *)
Lemma circular_filled (radius : R) :
  exists a,
    circular arc_second_dimensions pixel_scale radius centre
    = Returns (make_mask a)
    /\ has_shape a n m
    /\ forall i j, 0 <= i < n /\ 0 <= j < m ->
         getitem a i j
         = Ok (Rleb (pixel_radius arc_second_dimensions pixel_scale centre i j)
                    radius).
Proof.
  destruct (@pixel_counts_nonneg arc_second_dimensions pixel_scale
              rows_not_negative columns_not_negative) as [Hn Hm].
  exact (mask_filled
           (fun x_pix y_pix => Rleb (sqrt (x_pix ^ 2 + y_pix ^ 2)) radius)
           arc_second_dimensions centre scale_not_zero Hn Hm).
Qed.

(** [make_mask] on an array whose entries are known. *)
Lemma make_mask_cases (a : ndarray2 bool) (value : Z -> Z -> bool) :
  has_shape a n m ->
  (forall i j, 0 <= i < n /\ 0 <= j < m -> getitem a i j = Ok (value i j)) ->
  (make_mask a = nomask
   /\ forall i j, 0 <= i < n /\ 0 <= j < m -> value i j = false)
  \/ (make_mask a = mask_array a
      /\ exists i j, (0 <= i < n /\ 0 <= j < m) /\ value i j = true).
Proof.
  intros Ha Hget. pose proof (make_mask_array Ha) as Hany. unfold make_mask.
  destruct (existsb (existsb (fun v => v)) a); [right|left]; split;
    try reflexivity.
  - destruct (proj1 Hany eq_refl) as [i [j [Hin Ht]]].
    rewrite (Hget i j Hin) in Ht. injection Ht as Ht. exists i, j. auto.
  - intros i j Hin. destruct (value i j) eqn:Ev; [|reflexivity].
    assert (Ht : false = true); [|discriminate].
    apply Hany. exists i, j. split; [exact Hin|].
    rewrite (Hget i j Hin). now rewrite Ev.
Qed.

End CircularLemmas.

Section CircularProperties.

Import Python ImageArrays ImageShapes.
Local Open Scope Z_scope.

(** X20: for a pixel scale other than 0 and a size that is not negative,
    Mask.circular returns nomask when every pixel is farther from the centre
    than the radius, and otherwise an array, one entry per pixel, that is
    True exactly at the pixels within the radius of the centre. *)
Theorem circular_marks_the_disc (arc_second_dimensions : R * R)
  (pixel_scale radius : R) (centre : R * R) :
  pixel_scale <> 0%R ->
  (0 <= fst arc_second_dimensions / pixel_scale)%R ->
  (0 <= snd arc_second_dimensions / pixel_scale)%R ->
  let n := fst (pixel_counts arc_second_dimensions pixel_scale) in
  let m := snd (pixel_counts arc_second_dimensions pixel_scale) in
  let r := pixel_radius arc_second_dimensions pixel_scale centre in
  exists made,
    circular arc_second_dimensions pixel_scale radius centre = Returns made
    /\ match made with
       | nomask => forall i j, 0 <= i < n -> 0 <= j < m -> (radius < r i j)%R
       | mask_array a =>
           has_shape a n m
           /\ (exists i j, 0 <= i < n /\ 0 <= j < m /\ (r i j <= radius)%R)
           /\ forall i j, 0 <= i < n -> 0 <= j < m ->
                (getitem a i j = Ok true <-> (r i j <= radius)%R)
       end.
Proof.
  intros Hs H0 H1 n m r.
  destruct (circular_filled arc_second_dimensions centre Hs H0 H1 radius) as [a [E [Ha Hget]]].
  fold n m r in Ha, Hget.
  destruct (make_mask_cases arc_second_dimensions pixel_scale
              (fun i j => Rleb (r i j) radius) Ha Hget)
    as [[Em Hnone]|[Em [i [j [Hin Ht]]]]]; rewrite Em in E; eexists;
    (split; [exact E|]); cbv beta in *.
  - intros i j Hi Hj. specialize (Hnone i j (conj Hi Hj)).
    apply Rnot_le_lt. intros Hle. apply Rleb_le in Hle. congruence.
  - split; [exact Ha|]. split.
    + exists i, j. apply Rleb_le in Ht. destruct Hin. auto.
    + intros i' j' Hi' Hj'. rewrite (Hget i' j' (conj Hi' Hj')).
      rewrite <- Rleb_le. split; [now intros [= ->]|now intros ->].
Qed.

(** X21: enlarging the radius of a circular mask never drops a pixel: if the
    smaller radius gives an array so does the larger, and every entry that
    is True for the smaller radius is True for the larger. *)
Theorem circular_grows_with_radius (arc_second_dimensions : R * R)
  (pixel_scale radius radius' : R) (centre : R * R) :
  pixel_scale <> 0%R ->
  (0 <= fst arc_second_dimensions / pixel_scale)%R ->
  (0 <= snd arc_second_dimensions / pixel_scale)%R ->
  (radius <= radius')%R ->
  exists made made',
    circular arc_second_dimensions pixel_scale radius centre = Returns made
    /\ circular arc_second_dimensions pixel_scale radius' centre = Returns made'
    /\ match made, made' with
       | nomask, _ => True
       | mask_array _, nomask => False
       | mask_array a, mask_array a' =>
           forall i j,
             0 <= i < fst (pixel_counts arc_second_dimensions pixel_scale) ->
             0 <= j < snd (pixel_counts arc_second_dimensions pixel_scale) ->
             getitem a i j = Ok true -> getitem a' i j = Ok true
       end.
Proof.
  intros Hs H0 H1 Hle.
  set (r := pixel_radius arc_second_dimensions pixel_scale centre).
  destruct (circular_filled arc_second_dimensions centre Hs H0 H1 radius)
    as [b [E [Hb Hget]]].
  destruct (circular_filled arc_second_dimensions centre Hs H0 H1 radius')
    as [b' [E' [Hb' Hget']]].
  fold r in Hget, Hget'.
  exists (make_mask b), (make_mask b'). split; [exact E|]. split; [exact E'|].
  assert (Hmono : forall i j, Rleb (r i j) radius = true ->
                    Rleb (r i j) radius' = true).
  { intros i' j' H. apply Rleb_le in H. apply Rleb_le. lra. }
  destruct (make_mask_cases arc_second_dimensions pixel_scale
              (fun i j => Rleb (r i j) radius) Hb Hget)
    as [[Em _]|[Em [i [j [Hin Ht]]]]]; rewrite Em; [exact Logic.I|].
  destruct (make_mask_cases arc_second_dimensions pixel_scale
              (fun i j => Rleb (r i j) radius') Hb' Hget')
    as [[Em' Hnone]|[Em' _]]; rewrite Em'.
  - specialize (Hnone i j Hin). cbv beta in Hnone, Ht.
    rewrite (Hmono i j Ht) in Hnone. discriminate.
  - intros i' j' Hi' Hj'.
    rewrite (Hget i' j' (conj Hi' Hj')), (Hget' i' j' (conj Hi' Hj')).
    intros [= H]. now rewrite (Hmono i' j' H).
Qed.

(** X22: with no inner radius to speak of (zero or negative), an annular mask
    is the circular mask of the outer radius, errors included. *)
Theorem annular_without_inner_radius_is_circular (arc_second_dimensions : R * R)
  (pixel_scale inner_radius outer_radius : R) (centre : R * R) :
  (inner_radius <= 0)%R ->
  annular arc_second_dimensions pixel_scale inner_radius outer_radius centre
  = circular arc_second_dimensions pixel_scale outer_radius centre.
Proof.
  intros Hinner. unfold annular, circular. apply mask_ext. intros x y.
  replace (Rleb inner_radius (sqrt (x ^ 2 + y ^ 2))) with true;
    [apply andb_true_r|].
  symmetry. apply Rleb_le. pose proof (sqrt_pos (x ^ 2 + y ^ 2)). lra.
Qed.

Lemma pixel_radius_mirror (arc_second_dimensions : R * R) (pixel_scale : R)
  (n0 m0 i j : Z) :
  (fst arc_second_dimensions / pixel_scale)%R = IZR n0 ->
  (snd arc_second_dimensions / pixel_scale)%R = IZR m0 ->
  pixel_radius arc_second_dimensions pixel_scale (0, 0)%R (n0 - 1 - i) j
  = pixel_radius arc_second_dimensions pixel_scale (0, 0)%R i j
  /\ pixel_radius arc_second_dimensions pixel_scale (0, 0)%R i (m0 - 1 - j)
     = pixel_radius arc_second_dimensions pixel_scale (0, 0)%R i j.
Proof.
  intros E0 E1. unfold pixel_radius, pixel_coordinates, central_pixel.
  cbn [fst snd]. rewrite E0, E1, !minus_IZR.
  split; f_equal; field.
Qed.

(** X23: a circular mask centred on [(0, 0)] whose size in arc seconds is a
    whole number of pixels on each axis is its own mirror image along both
    axes. *)
Theorem circular_mirror_symmetric (arc_second_dimensions : R * R)
  (pixel_scale radius : R) (n0 m0 : Z) :
  pixel_scale <> 0%R -> 0 <= n0 -> 0 <= m0 ->
  (fst arc_second_dimensions / pixel_scale)%R = IZR n0 ->
  (snd arc_second_dimensions / pixel_scale)%R = IZR m0 ->
  exists made,
    circular arc_second_dimensions pixel_scale radius (0, 0)%R = Returns made
    /\ match made with
       | nomask => True
       | mask_array a =>
           has_shape a n0 m0
           /\ forall i j, 0 <= i < n0 -> 0 <= j < m0 ->
                getitem a (n0 - 1 - i) j = getitem a i j
                /\ getitem a i (m0 - 1 - j) = getitem a i j
       end.
Proof.
  intros Hs Hn Hm E0 E1.
  assert (H0 : (0 <= fst arc_second_dimensions / pixel_scale)%R)
    by (rewrite E0; now apply IZR_le).
  assert (H1 : (0 <= snd arc_second_dimensions / pixel_scale)%R)
    by (rewrite E1; now apply IZR_le).
  destruct (circular_filled arc_second_dimensions (0, 0)%R Hs H0 H1 radius)
    as [b [E [Hb Hget]]].
  unfold pixel_counts in Hb, Hget. cbn [fst snd] in Hb, Hget.
  rewrite E0, E1, !py_int_IZR in Hb, Hget.
  exists (make_mask b). split; [exact E|]. unfold make_mask.
  destruct (existsb (existsb (fun v => v)) b); [|exact Logic.I].
  split; [exact Hb|]. intros i j Hi Hj.
  destruct (@pixel_radius_mirror arc_second_dimensions pixel_scale n0 m0 i j E0 E1)
    as [M0 M1].
  rewrite !Hget by lia. now rewrite M0, M1.
Qed.

End CircularProperties.

Lemma circular_marks_the_disc_witness :
  exists made,
    ImageShapes.circular (2, 2)%R 1%R 1%R (0, 0)%R = Python.Returns made
    /\ match made with
       | ImageShapes.nomask =>
           forall i j,
             (0 <= i < fst (ImageShapes.pixel_counts (2, 2)%R 1%R))%Z ->
             (0 <= j < snd (ImageShapes.pixel_counts (2, 2)%R 1%R))%Z ->
             (1 < ImageShapes.pixel_radius (2, 2)%R 1%R (0, 0)%R i j)%R
       | ImageShapes.mask_array a =>
           ImageArrays.has_shape a
             (fst (ImageShapes.pixel_counts (2, 2)%R 1%R))
             (snd (ImageShapes.pixel_counts (2, 2)%R 1%R))
           /\ (exists i j,
                 (0 <= i < fst (ImageShapes.pixel_counts (2, 2)%R 1%R))%Z
                 /\ (0 <= j < snd (ImageShapes.pixel_counts (2, 2)%R 1%R))%Z
                 /\ (ImageShapes.pixel_radius (2, 2)%R 1%R (0, 0)%R i j <= 1)%R)
           /\ forall i j,
                (0 <= i < fst (ImageShapes.pixel_counts (2, 2)%R 1%R))%Z ->
                (0 <= j < snd (ImageShapes.pixel_counts (2, 2)%R 1%R))%Z ->
                (getitem a i j = Ok true
                 <-> (ImageShapes.pixel_radius (2, 2)%R 1%R (0, 0)%R i j <= 1)%R)
       end.
Proof.
  apply (@circular_marks_the_disc (2, 2)%R 1%R 1%R (0, 0)%R);
    cbn [fst snd]; lra.
Defined.

Lemma circular_grows_with_radius_witness :
  exists made made',
    ImageShapes.circular (2, 2)%R 1%R 1%R (0, 0)%R = Python.Returns made
    /\ ImageShapes.circular (2, 2)%R 1%R 2%R (0, 0)%R = Python.Returns made'
    /\ match made, made' with
       | ImageShapes.nomask, _ => True
       | ImageShapes.mask_array _, ImageShapes.nomask => False
       | ImageShapes.mask_array a, ImageShapes.mask_array a' =>
           forall i j,
             (0 <= i < fst (ImageShapes.pixel_counts (2, 2)%R 1%R))%Z ->
             (0 <= j < snd (ImageShapes.pixel_counts (2, 2)%R 1%R))%Z ->
             getitem a i j = Ok true -> getitem a' i j = Ok true
       end.
Proof.
  apply (@circular_grows_with_radius (2, 2)%R 1%R 1%R 2%R (0, 0)%R);
    cbn [fst snd]; lra.
Defined.

Lemma annular_without_inner_radius_is_circular_witness :
  ImageShapes.annular (2, 2)%R 1%R 0%R 1%R (0, 0)%R
  = ImageShapes.circular (2, 2)%R 1%R 1%R (0, 0)%R.
Proof.
  apply (@annular_without_inner_radius_is_circular (2, 2)%R 1%R 0%R 1%R (0, 0)%R).
  lra.
Defined.

Lemma circular_mirror_symmetric_witness :
  exists made,
    ImageShapes.circular (2, 3)%R 1%R 1%R (0, 0)%R = Python.Returns made
    /\ match made with
       | ImageShapes.nomask => True
       | ImageShapes.mask_array a =>
           ImageArrays.has_shape a 2 3
           /\ forall i j, (0 <= i < 2)%Z -> (0 <= j < 3)%Z ->
                getitem a (2 - 1 - i) j = getitem a i j
                /\ getitem a i (3 - 1 - j) = getitem a i j
       end.
Proof.
  apply (@circular_mirror_symmetric (2, 3)%R 1%R 1%R 2%Z 3%Z);
    cbn [fst snd]; try lia; lra.
Defined.

Section PositionsFitInvariance.

Import Grids Fit.
Local Open Scope R_scope.

(** X24: max_separation_of_grid depends on the set of positions only: two
    grids holding the same positions, in any order and with any repetition,
    give the same result. *)
Theorem max_separation_of_grid_same_positions (grid grid' : PositionGrid) :
  (forall p, In p grid <-> In p grid') ->
  max_separation_of_grid grid = max_separation_of_grid grid'.
Proof.
  intros Hsame. destruct grid as [|p grid].
  - destruct grid' as [|q grid']; [reflexivity|].
    destruct (proj2 (Hsame q) (or_introl eq_refl)).
  - assert (Hne' : grid' <> []).
    { intros ->. destruct (proj1 (Hsame p) (or_introl eq_refl)). }
    destruct (@max_separation_spec (p :: grid)) as [d [E [Hex Hall]]];
      [discriminate|].
    destruct (max_separation_spec Hne') as [d' [E' [Hex' Hall']]].
    rewrite E, E'. f_equal. apply Rle_antisym.
    + destruct Hex as [a [b [Ha [Hb ->]]]].
      apply Hall'; now apply Hsame.
    + destruct Hex' as [a [b [Ha [Hb ->]]]].
      apply Hall; now apply Hsame.
Qed.

End PositionsFitInvariance.

Lemma max_separation_of_grid_same_positions_witness :
  Fit.max_separation_of_grid [(0, 0); (3, 4)]%R
  = Fit.max_separation_of_grid [(3, 4); (0, 0); (3, 4)]%R.
Proof.
  apply (@max_separation_of_grid_same_positions
           [(0, 0); (3, 4)]%R [(3, 4); (0, 0); (3, 4)]%R).
  intros p. cbn [In]. tauto.
Defined.
